(** * RSG audio cores: a shallow embedding and its verified properties

    Two JavaScript sources are embedded:

    - [Hardline]: the "hardline vNext" engine (class [SQAudioEngine] with its
      [ClockScheduler], [playNote], [playPhrase], [playSong], and the
      helpers [makeNoiseBuffer], [makePulseWave]);
    - [Core]: the older one-voice core (class [SQAudioCore]: the bit-depth
      curve, the pulse wave, the sample-and-hold noise buffer, the shared
      FX buses and the [_activeTracks] registry).

    [Binary64] gives rounding to the nearest double.  After the two
    source modules come the parts of the same sources that they leave
    out: [Transport] (starting and stopping the scheduler and a song, and
    what a pump pass runs), [Pitch] (the core's [noteToHz]), [Banks]
    ([loadBanks] and its validators), [Buses] ([createBus],
    [setBusGain]), [NoteFx] (the filter and pitch automation of
    [playNote]), [Crush] (the sample-rate crusher) and [Registry]
    (vocabulary for the core's track registry).

    Number model.  A JavaScript number is an IEEE double; here the finite
    ones are exact reals ([R]) where [Math.pow]/[Math.sin] occur, exact
    rationals ([Q]) in the table kernels and integers ([Z]) for sample
    counts, with [NaN] and the two infinities as separate constructors
    wherever the source tests for them.  Where a property is about the
    rounding itself, the source expression is also evaluated with every
    operation rounded to binary64: the start of a loop window
    ([nextLoopT64], next to the exact [nextLoopT]) and the key of the
    pulse-wave cache ([dutyKey]).  Elsewhere rounding error is not
    modelled; every other guard of the source is kept as written.

    Object model.  [toneBank.tones[toneId]] reads through the prototype
    chain of a plain object: [tonesGet] answers the bank's own entry, or
    [Inherited] for a name every object has from [Object.prototype]. *)

From Stdlib Require Import Reals Lra Lia ZArith QArith Qround Qminmax List Psatz.
From stdpp Require Import base option list gmap strings sorting.
Import ListNotations.

(** ** JavaScript numbers and the source's numeric guards *)
Module JS.
Local Open Scope R_scope.

(** A value read from a JSON field: a number, or [None] for [undefined]. *)
Inductive num : Type :=
| NaN
| PosInf
| NegInf
| Fin (x : R).

(** [Number(x)] on a number-or-undefined. *)
Definition Number (x : option num) : num :=
  match x with Some n => n | None => NaN end.

Definition isFinite (n : num) : bool :=
  match n with Fin _ => true | _ => false end.

(** [clamp(x,a,b)]: non-finite input gives the lower bound. *)
Definition clamp (x : option num) (a b : R) : R :=
  match Number x with
  | Fin n => Rmax a (Rmin b n)
  | _ => a
  end.

(** [numOr(x,d)]: non-finite input gives the default. *)
Definition numOr (x : option num) (d : R) : R :=
  match Number x with
  | Fin n => n
  | _ => d
  end.

(** [x ?? y] on optional fields. *)
Definition nullish {A} (x y : option A) : option A :=
  match x with Some _ => x | None => y end.

(** [x | 0] on an integer-valued number: wrap to 32 bits, signed. *)
Definition toInt32 (z : Z) : Z :=
  ((z + 2147483648) mod 4294967296 - 2147483648)%Z.

(** Outcome of a call that may [throw new Error(msg)]. *)
Inductive result (A : Type) : Type :=
| Ok (a : A)
| Throw (msg : string).
Arguments Ok {A} a.
Arguments Throw {A} msg.

End JS.

(** ** Binary64 rounding

    Where a property is about rounding itself, a number is the double the
    source holds.  [round x] is the double nearest to the real [x], a tie
    going to the even significand: 53 significant bits, least binade
    [-1022], below which the doubles are the multiples of [2^-1074].  It
    is the value of an arithmetic operation whose exact result is [x], as
    long as that value is finite ([finite]); past [2^1024] the source has
    an infinity, which [R] does not hold. *)
Module Binary64.
Local Open Scope R_scope.

Definition pow2 (z : Z) : R := powerRZ 2 z.

(** The integer nearest to [y]; a tie goes to the even neighbour. *)
Definition nearestEven (y : R) : Z :=
  let f := Int_part y in
  let d := y - IZR f in
  if Rlt_dec d (1 / 2) then f
  else if Rlt_dec (1 / 2) d then (f + 1)%Z
  else if Z.even f then f else (f + 1)%Z.

(** The binade of [x]: the [e] with [2^e <= |x| < 2^(e+1)]. *)
Definition exponent (x : R) : Z := Int_part (ln (Rabs x) / ln 2).

Definition round (x : R) : R :=
  let e := Z.max (exponent x) (-1022) in
  IZR (nearestEven (x * pow2 (52 - e))) * pow2 (e - 52).

Definition finite (x : R) : Prop := Rabs x < pow2 1024.

End Binary64.

(** ** The backend's AudioParam automation timeline

    [playNote] drives a gain parameter through three Web Audio calls.  The
    timeline below is the event list those calls maintain: events are kept
    in time order; an event added at the time of an event of the same kind
    replaces it, otherwise it goes after the events that are not later;
    [cancelScheduledValues t] removes every event whose time is at or after
    [t] (the time of a ramp is the time it ends). *)
Module AudioParam.
Local Open Scope R_scope.

Inductive event : Type :=
| SetValue (v t : R)
| ExpRamp (v t : R).

Definition time (e : event) : R :=
  match e with SetValue _ t | ExpRamp _ t => t end.

Definition value (e : event) : R :=
  match e with SetValue v _ | ExpRamp v _ => v end.

Definition sameKind (e1 e2 : event) : bool :=
  match e1, e2 with
  | SetValue _ _, SetValue _ _ | ExpRamp _ _, ExpRamp _ _ => true
  | _, _ => false
  end.

Fixpoint insertEvent (e : event) (evs : list event) : list event :=
  match evs with
  | [] => [e]
  | x :: rest =>
      if Rlt_dec (time e) (time x) then e :: x :: rest
      else if Req_dec_T (time e) (time x) then
             if sameKind e x then e :: rest else x :: insertEvent e rest
           else x :: insertEvent e rest
  end.

Definition setValueAtTime (v t : R) (evs : list event) : list event :=
  insertEvent (SetValue v t) evs.

Definition exponentialRampToValueAtTime (v t : R) (evs : list event) : list event :=
  insertEvent (ExpRamp v t) evs.

Fixpoint cancelScheduledValues (tc : R) (evs : list event) : list event :=
  match evs with
  | [] => []
  | x :: rest =>
      if Rlt_dec (time x) tc then x :: cancelScheduledValues tc rest
      else cancelScheduledValues tc rest
  end.

(** Value of an exponential ramp from [(v0,t0)] to [(v1,t1)] at [t]; the
    parameter holds [v0] when the end points do not have the same sign. *)
Definition expInterp (v0 v1 t0 t1 t : R) : R :=
  if Rlt_dec 0 (v0 * v1)
  then v0 * Rpower (v1 / v0) ((t - t0) / (t1 - t0))
  else v0.

(** The parameter's value at time [t], walking the timeline with the last
    event passed ([pv] at [pt]): before a ramp's end the value is on the
    ramp, before a step it is the last value. *)
Fixpoint valueFrom (pv pt : R) (evs : list event) (t : R) : R :=
  match evs with
  | [] => pv
  | e :: rest =>
      if Rlt_dec t (time e) then
        match e with
        | ExpRamp v1 t1 => expInterp pv v1 pt t1 t
        | SetValue _ _ => pv
        end
      else valueFrom (value e) (time e) rest t
  end.

(** A gain parameter starts at its default value 1. *)
Definition valueAt (evs : list event) (t : R) : R := valueFrom 1 0 evs t.

End AudioParam.

(** The two coefficient arrays handed to [createPeriodicWave]. *)
Record PeriodicWave : Type := {
  real : list R;
  imag : list R
}.

(** ** The hardline engine: [sq_audio_core_vNext_hardline_v0.2h.js] *)
Module Hardline.
Import JS AudioParam.
Local Open Scope R_scope.

(** *** Data model (the JSON typedefs at the top of the source) *)

(** Envelope object; the source reads either spelling of each field
    ([env0.attack ?? env0.a], ...). *)
Record EnvDef : Type := {
  env_attack : option num;  env_a : option num;
  env_decay : option num;   env_d : option num;
  env_sustain : option num; env_s : option num;
  env_release : option num; env_r : option num
}.

Inductive MonoMode : Type := poly | mono | softMono.

(** The fields of a tone that decide timing, level and voice identity.
    Oscillator, filter and pan descriptors only parameterise backend nodes
    and are not part of this embedding. *)
Record ToneDef : Type := {
  tone_env : option EnvDef;
  tone_gain : option num;
  tone_mono : option MonoMode;
  tone_monoCutMs : option R
}.

(** [params] of [playNote]: [{toneId, v, t0, dSec, busKey}] (pitch, pan and
    fx feed the oscillator and filter nodes only). *)
Record NoteParams : Type := {
  p_toneId : string;
  p_v : option num;
  p_t0 : option R;
  p_dSec : option num;
  p_busKey : option string
}.

(** The object [playNote] returns. *)
Record NoteInfo : Type := {
  voiceId : nat;
  t0 : R;
  tOff : R;
  tR : R;
  toneId : string;
  busKey : string
}.

(** An entry of [_activeMono]: [{stopAt, stopper}]; the stopper closure
    stops the source of the voice it was made for. *)
Record MonoSlot : Type := {
  stopAt : R;
  stopper : nat
}.

(** The closures handed to [sched.schedule]: a note trigger (from
    [playPhrase], or from [playSong] with its handle) and the voice
    clean-up. *)
Inductive action : Type :=
| PlayNoteAction (handle : option nat) (p : NoteParams)
| CleanupAction (vid : nat).

(** Engine state: the fields of [SQAudioEngine] and [ClockScheduler] the
    operations below read or write, the backend's record of each voice's
    gain timeline and source [stop] calls, and the console. *)
Record engine : Type := {
  currentTime : R;                       (* ctx.currentTime *)
  hasCancel : bool;                      (* typeof cancelScheduledValues === "function" *)
  running : bool;                        (* sched._running *)
  lookaheadSec : R;
  toneBank : option (gmap string ToneDef);   (* toneBank.tones, or null *)
  buses : gmap string R;                 (* busKey -> bus gain *)
  activeMono : gmap string MonoSlot;     (* _activeMono *)
  voiceSerial : nat;                     (* _voiceSerial *)
  voices : gset nat;                     (* keys of _voices *)
  queue : list (R * action);             (* sched._queue *)
  stoppedSongs : gset nat;               (* handles with stopped = true *)
  gainTimeline : gmap nat (list event);  (* voiceId -> g.gain events *)
  sourceStops : list (nat * R);          (* src.stop(t) calls, latest first *)
  console : list string                  (* console.error lines, latest first *)
}.

Definition set_activeMono (f : gmap string MonoSlot -> gmap string MonoSlot) (st : engine) : engine :=
  {| currentTime := currentTime st; hasCancel := hasCancel st; running := running st;
     lookaheadSec := lookaheadSec st; toneBank := toneBank st; buses := buses st;
     activeMono := f (activeMono st); voiceSerial := voiceSerial st; voices := voices st;
     queue := queue st; stoppedSongs := stoppedSongs st; gainTimeline := gainTimeline st;
     sourceStops := sourceStops st; console := console st |}.

Definition set_voiceSerial (n : nat) (st : engine) : engine :=
  {| currentTime := currentTime st; hasCancel := hasCancel st; running := running st;
     lookaheadSec := lookaheadSec st; toneBank := toneBank st; buses := buses st;
     activeMono := activeMono st; voiceSerial := n; voices := voices st;
     queue := queue st; stoppedSongs := stoppedSongs st; gainTimeline := gainTimeline st;
     sourceStops := sourceStops st; console := console st |}.

Definition set_voices (f : gset nat -> gset nat) (st : engine) : engine :=
  {| currentTime := currentTime st; hasCancel := hasCancel st; running := running st;
     lookaheadSec := lookaheadSec st; toneBank := toneBank st; buses := buses st;
     activeMono := activeMono st; voiceSerial := voiceSerial st; voices := f (voices st);
     queue := queue st; stoppedSongs := stoppedSongs st; gainTimeline := gainTimeline st;
     sourceStops := sourceStops st; console := console st |}.

Definition set_queue (f : list (R * action) -> list (R * action)) (st : engine) : engine :=
  {| currentTime := currentTime st; hasCancel := hasCancel st; running := running st;
     lookaheadSec := lookaheadSec st; toneBank := toneBank st; buses := buses st;
     activeMono := activeMono st; voiceSerial := voiceSerial st; voices := voices st;
     queue := f (queue st); stoppedSongs := stoppedSongs st; gainTimeline := gainTimeline st;
     sourceStops := sourceStops st; console := console st |}.

Definition set_gainTimeline (f : gmap nat (list event) -> gmap nat (list event)) (st : engine) : engine :=
  {| currentTime := currentTime st; hasCancel := hasCancel st; running := running st;
     lookaheadSec := lookaheadSec st; toneBank := toneBank st; buses := buses st;
     activeMono := activeMono st; voiceSerial := voiceSerial st; voices := voices st;
     queue := queue st; stoppedSongs := stoppedSongs st; gainTimeline := f (gainTimeline st);
     sourceStops := sourceStops st; console := console st |}.

(** [src.stop(t)] on the source of voice [vid]. *)
Definition stopSource (vid : nat) (t : R) (st : engine) : engine :=
  {| currentTime := currentTime st; hasCancel := hasCancel st; running := running st;
     lookaheadSec := lookaheadSec st; toneBank := toneBank st; buses := buses st;
     activeMono := activeMono st; voiceSerial := voiceSerial st; voices := voices st;
     queue := queue st; stoppedSongs := stoppedSongs st; gainTimeline := gainTimeline st;
     sourceStops := (vid, t) :: sourceStops st; console := console st |}.

(** [console.error('[SQAE] scheduled fn error', e)]. *)
Definition consoleError (msg : string) (st : engine) : engine :=
  {| currentTime := currentTime st; hasCancel := hasCancel st; running := running st;
     lookaheadSec := lookaheadSec st; toneBank := toneBank st; buses := buses st;
     activeMono := activeMono st; voiceSerial := voiceSerial st; voices := voices st;
     queue := queue st; stoppedSongs := stoppedSongs st; gainTimeline := gainTimeline st;
     sourceStops := sourceStops st; console := msg :: console st |}.

(** *** ClockScheduler *)

(** The backward scan of [schedule]: [while (i>0 && queue[i-1].t > audioTime) i--]. *)
Fixpoint insertIndex (q : list (R * action)) (audioTime : R) (i : nat) : nat :=
  match i with
  | O => O
  | S j =>
      match q !! j with
      | Some it => if Rgt_dec (fst it) audioTime then insertIndex q audioTime j else i
      | None => i
      end
  end.

(** [schedule(audioTime, fn)]: [queue.splice(i, 0, item)]. *)
Definition schedule (audioTime : R) (fn : action) (q : list (R * action)) : list (R * action) :=
  let i := insertIndex q audioTime (length q) in
  take i q ++ (audioTime, fn) :: drop i q.

(** *** playNote *)

Definition g0 : R := 0.0001.

(** The helper [expAt] inside [playNote]: [v(t) = v0 * (v1/v0)^p]. *)
Definition expAt (v0 v1 t0x t1x tx : R) : R :=
  if Rgt_dec t1x t0x then
    let p := (tx - t0x) / (t1x - t0x) in
    let pp := Rmax 0 (Rmin 1 p) in
    let a := Rmax g0 v0 in
    let b := Rmax g0 v1 in
    a * Rpower (b / a) pp
  else v1.

(** The calls made on [g.gain]: the initial [setValueAtTime(0.0001, t0)]
    and the block "ADSR scheduling (early noteOff-safe)". *)
Definition scheduleADSR (canCancel : bool) (peak susLevel t0 tA2 tD2 tOff2 tR2 : R) : list event :=
  let g := setValueAtTime 0.0001 t0 [] in
  let g := exponentialRampToValueAtTime peak tA2 g in
  let g := exponentialRampToValueAtTime susLevel tD2 g in
  if Rle_dec tOff2 tD2 then
    let levelAtOff :=
      if Rle_dec tOff2 tA2
      then expAt g0 peak t0 tA2 tOff2
      else expAt peak susLevel tA2 tD2 tOff2 in
    let g := if canCancel then cancelScheduledValues tOff2 g else g in
    let g := setValueAtTime (Rmax g0 levelAtOff) tOff2 g in
    exponentialRampToValueAtTime g0 tR2 g
  else
    let g := setValueAtTime susLevel tOff2 g in
    exponentialRampToValueAtTime g0 tR2 g.

(** [params.busKey || 'master'] and friends: the empty string is falsy. *)
Definition orFalsy (x : option string) (dflt : string) : string :=
  match x with
  | Some k => if decide (k = "") then dflt else k
  | None => dflt
  end.

(** The default envelope [{attack:0.005, decay:0.03, sustain:0.7, release:0.06}]. *)
Definition defaultEnv : EnvDef :=
  {| env_attack := Some (Fin 0.005); env_a := None;
     env_decay := Some (Fin 0.03); env_d := None;
     env_sustain := Some (Fin 0.7); env_s := None;
     env_release := Some (Fin 0.06); env_r := None |}.

(** The effective note length: [Math.max(0.001, numOr(params.dSec, 0.25))]. *)
Definition noteDSec (params : NoteParams) : R :=
  Rmax 0.001 (numOr (p_dSec params) 0.25).

(** The numbers [playNote] derives from the tone and the parameters before
    it touches the gain node.  Sums of finite reals are finite, so the
    "final safety" fall-backs ([tA2 = Number.isFinite(tA) ? tA : ...]) always
    take their first branch: [tA2], [tD2], [tOff2], [tR2] are [tA], [tD],
    [tOff], [tR]. *)
Record Timing : Type := {
  tm_t0 : R;
  tm_peak : R;
  tm_susLevel : R;
  tm_tA : R;
  tm_tD : R;
  tm_tOff : R;
  tm_tR : R
}.

Definition noteTiming (now : R) (tone : ToneDef) (params : NoteParams) : Timing :=
  let t0 := default now (p_t0 params) in
  let v := clamp (Some (Fin (numOr (p_v params) 1))) 0 1 in
  let dSec := noteDSec params in
  let env0 := default defaultEnv (tone_env tone) in
  let attack := numOr (nullish (env_attack env0) (env_a env0)) 0.005 in
  let decay := numOr (nullish (env_decay env0) (env_d env0)) 0.03 in
  let sustain := numOr (nullish (env_sustain env0) (env_s env0)) 0.7 in
  let release := numOr (nullish (env_release env0) (env_r env0)) 0.06 in
  let baseGain := numOr (tone_gain tone) 0.8 in
  let peak := Rmax 0.0002 (baseGain * v) in
  let tA := t0 + clamp (Some (Fin attack)) 0 4 in
  let tD := tA + clamp (Some (Fin decay)) 0 4 in
  let sus := clamp (Some (Fin sustain)) 0 1 in
  let tOff := t0 + dSec in
  let tR := tOff + clamp (Some (Fin release)) 0.001 6 in
  let susLevel := Rmax 0.0002 (peak * sus) in
  {| tm_t0 := t0; tm_peak := peak; tm_susLevel := susLevel;
     tm_tA := tA; tm_tD := tD; tm_tOff := tOff; tm_tR := tR |}.

(** "Mono handling (per toneId)": stop the previous occupant of the slot
    [cutMs] after the new onset and delete the slot. *)
Definition monoSteal (tone : ToneDef) (toneId : string) (t0 : R) (st : engine) : engine :=
  match default poly (tone_mono tone) with
  | poly => st
  | _ =>
      match activeMono st !! toneId with
      | Some prev =>
          let cutMs := default 12 (tone_monoCutMs tone) in
          let st := stopSource (stopper prev) (t0 + cutMs / 1000) st in
          set_activeMono (delete toneId) st
      | None => st
      end
  end.

(** [playNote] once the tone and the bus are found: everything after the
    three [throw]s. *)
Definition startVoice (st : engine) (params : NoteParams) (tone : ToneDef) (busKey : string)
    : NoteInfo * engine :=
  let toneId := p_toneId params in
  let tm := noteTiming (currentTime st) tone params in
  let st := monoSteal tone toneId (tm_t0 tm) st in
  let voiceId := voiceSerial st in
  let st := set_voiceSerial (S voiceId) st in
  let st := set_gainTimeline
              (insert voiceId
                 (scheduleADSR (hasCancel st) (tm_peak tm) (tm_susLevel tm) (tm_t0 tm)
                    (tm_tA tm) (tm_tD tm) (tm_tOff tm) (tm_tR tm))) st in
  (* Start/Stop: hard stop after the release tail *)
  let st := stopSource voiceId (tm_tR tm + 0.02) st in
  (* Track voice for transport stop; auto-clean after tail *)
  let st := set_voices (union {[ voiceId ]}) st in
  let tCleanup := tm_tR tm + 0.10 in
  let st := set_queue (schedule tCleanup (CleanupAction voiceId)) st in
  let st :=
    match default poly (tone_mono tone) with
    | poly => st
    | _ => set_activeMono (insert toneId {| stopAt := tm_tR tm; stopper := voiceId |}) st
    end in
  ({| voiceId := voiceId; t0 := tm_t0 tm; tOff := tm_tOff tm; tR := tm_tR tm;
      toneId := toneId; busKey := busKey |}, st).

(** The property names every plain object inherits from
    [Object.prototype].  [toneBank.tones] is a plain object (what
    [JSON.parse] or an object literal gives), so [tones[toneId]] finds its
    own entries first and these names next; all their values are truthy
    (functions, and the prototype itself for [__proto__]). *)
Definition objectPrototypeKeys : list string :=
  ["constructor"; "__defineGetter__"; "__defineSetter__"; "hasOwnProperty";
   "__lookupGetter__"; "__lookupSetter__"; "isPrototypeOf";
   "propertyIsEnumerable"; "toString"; "valueOf"; "__proto__"; "toLocaleString"].

(** What [this.toneBank.tones[toneId]] evaluates to when it is truthy: an
    entry of the bank, or a value inherited from [Object.prototype]. *)
Inductive TonesValue : Type :=
| OwnTone (tone : ToneDef)
| Inherited.

(** [this.toneBank.tones[toneId]]; [None] is [undefined]. *)
Definition tonesGet (tones : gmap string ToneDef) (toneId : string) : option TonesValue :=
  match tones !! toneId with
  | Some tone => Some (OwnTone tone)
  | None => if bool_decide (toneId ∈ objectPrototypeKeys) then Some Inherited else None
  end.

(** The error of [osc.type] when [tone.osc] is [undefined] (the wording is
    the JavaScript engine's; this is V8's). *)
Definition typeErrorText : string :=
  "TypeError: Cannot read properties of undefined (reading 'type')".

(** [playNote(params)].  The three [throw new Error] come before any
    write.  An inherited value passes them and fails at [osc.type]. *)
Definition playNote (st : engine) (params : NoteParams) : result (NoteInfo * engine) :=
  let toneId := p_toneId params in
  match toneBank st with
  | None => Throw "toneBank not loaded"
  | Some tones =>
      match tonesGet tones toneId with
      | None => Throw ("Unknown toneId: " +:+ toneId)
      | Some tone =>
          let busKey := orFalsy (p_busKey params) "master" in
          match buses st !! busKey with
          | None => Throw ("Unknown bus: " +:+ busKey)
          | Some bus =>
              match tone with
              | OwnTone tone => Ok (startVoice st params tone busKey)
              | Inherited => Throw typeErrorText
              end
          end
      end
  end.

(** The fields [playNote] reads on an inherited value are all
    [undefined]: no envelope, gain, mono mode or cut time. *)
Definition noFields : ToneDef :=
  {| tone_env := None; tone_gain := None; tone_mono := None; tone_monoCutMs := None |}.

(** What [playNote] has written when [osc.type] throws: with the defaults
    for every field (mode ['poly'], so no voice is stolen) it has taken a
    voice id and scheduled the envelope on a new gain node; the source, the
    tracking of the voice and its clean-up come after the throw. *)
Definition abandonedVoice (st : engine) (params : NoteParams) : engine :=
  let tm := noteTiming (currentTime st) noFields params in
  let voiceId := voiceSerial st in
  let st := set_voiceSerial (S voiceId) st in
  set_gainTimeline
    (insert voiceId
       (scheduleADSR (hasCancel st) (tm_peak tm) (tm_susLevel tm) (tm_t0 tm)
          (tm_tA tm) (tm_tD tm) (tm_tOff tm) (tm_tR tm))) st.

(** The engine as a [playNote] that throws leaves it. *)
Definition afterThrow (st : engine) (params : NoteParams) : engine :=
  match toneBank st with
  | None => st
  | Some tones =>
      match tonesGet tones (p_toneId params) with
      | Some Inherited =>
          match buses st !! orFalsy (p_busKey params) "master" with
          | Some bus => abandonedVoice st params
          | None => st
          end
      | _ => st
      end
  end.

(** *** The pump, and transport stop *)

Definition set_running (b : bool) (st : engine) : engine :=
  {| currentTime := currentTime st; hasCancel := hasCancel st; running := b;
     lookaheadSec := lookaheadSec st; toneBank := toneBank st; buses := buses st;
     activeMono := activeMono st; voiceSerial := voiceSerial st; voices := voices st;
     queue := queue st; stoppedSongs := stoppedSongs st; gainTimeline := gainTimeline st;
     sourceStops := sourceStops st; console := console st |}.

Definition set_stoppedSongs (f : gset nat -> gset nat) (st : engine) : engine :=
  {| currentTime := currentTime st; hasCancel := hasCancel st; running := running st;
     lookaheadSec := lookaheadSec st; toneBank := toneBank st; buses := buses st;
     activeMono := activeMono st; voiceSerial := voiceSerial st; voices := voices st;
     queue := queue st; stoppedSongs := f (stoppedSongs st); gainTimeline := gainTimeline st;
     sourceStops := sourceStops st; console := console st |}.

(** The environment advances the audio clock between calls. *)
Definition set_currentTime (t : R) (st : engine) : engine :=
  {| currentTime := t; hasCancel := hasCancel st; running := running st;
     lookaheadSec := lookaheadSec st; toneBank := toneBank st; buses := buses st;
     activeMono := activeMono st; voiceSerial := voiceSerial st; voices := voices st;
     queue := queue st; stoppedSongs := stoppedSongs st; gainTimeline := gainTimeline st;
     sourceStops := sourceStops st; console := console st |}.

(** Running one queued closure.  [PlayNoteAction (Some h)] is the closure
    of [scheduleTracks] ([if (handle.stopped) return;]); [CleanupAction] is
    [()=>{ this._voices.delete(voiceId); }]. *)
Definition runAction (st : engine) (fn : action) : result engine :=
  match fn with
  | PlayNoteAction h p =>
      let stopped :=
        match h with
        | Some hid => bool_decide (hid ∈ stoppedSongs st)
        | None => false
        end in
      if stopped then Ok st
      else match playNote st p with
           | Ok (_, st') => Ok st'
           | Throw msg => Throw msg
           end
  | CleanupAction vid => Ok (set_voices (fun vs => vs ∖ {[ vid ]}) st)
  end.

(** The engine as a queued closure that throws leaves it. *)
Definition abandoned (st : engine) (fn : action) : engine :=
  match fn with
  | PlayNoteAction _ p => afterThrow st p
  | CleanupAction _ => st
  end.

(** The [while] of [_pump]: shift the head while it is due and run it
    inside [try]/[catch]; after a caught throw the state is what the
    closure had written by then, plus the console line. *)
Fixpoint pumpWhile (fuel : nat) (tMax : R) (st : engine) : engine :=
  match fuel with
  | O => st
  | S fuel' =>
      match queue st with
      | [] => st
      | (t, fn) :: rest =>
          if Rle_dec t tMax then
            let st1 := set_queue (fun _ => rest) st in
            let st2 :=
              match runAction st1 fn with
              | Ok st' => st'
              | Throw msg =>
                  consoleError ("[SQAE] scheduled fn error: " +:+ msg) (abandoned st1 fn)
              end in
            pumpWhile fuel' tMax st2
          else st
      end
  end.

(** A note trigger can enqueue one clean-up and a clean-up enqueues
    nothing, so twice the queue length bounds the iterations. *)
Definition actionWeight (it : R * action) : nat :=
  match snd it with
  | PlayNoteAction _ _ => 2
  | CleanupAction _ => 1
  end.

Definition queueWeight (q : list (R * action)) : nat :=
  foldr (fun it n => (actionWeight it + n)%nat) O q.

(** [_pump()]. *)
Definition _pump (st : engine) : engine :=
  if running st then
    let tNow := currentTime st in
    let tMax := tNow + lookaheadSec st in
    pumpWhile (queueWeight (queue st)) tMax st
  else st.

(** [stopAllVoices(tStop=null)]. *)
Definition stopAllVoices (tStop : option R) (st : engine) : engine :=
  let t := default (currentTime st + 0.01) tStop in
  let st := foldl (fun st vid => stopSource vid t st) st (elements (voices st)) in
  set_activeMono (fun _ => ∅) (set_voices (fun _ => ∅) st).

(** *** Phrase playback *)

Record PhraseEvent : Type := {
  ev_t : option R;
  ev_d : option R;
  ev_v : option num;
  ev_toneId : option string;
  ev_busKey : option string
}.

Record Phrase : Type := {
  ph_tempo : option R;
  ph_events : list PhraseEvent
}.

Record PhraseOpts : Type := {
  po_tempo : option R;
  po_busKey : option string;
  po_toneId : option string;
  po_tStart : option R
}.

Record PhraseInfo : Type := {
  pi_tStart : R;
  pi_tempo : R;
  pi_count : nat
}.

(** [x || y] on optional strings, keeping [null] when both are falsy. *)
Definition orNull (x y : option string) : option string :=
  match x with
  | Some k => if decide (k = "") then y else Some k
  | None => y
  end.

(** [if (!toneId) continue;] *)
Definition truthy (x : option string) : option string :=
  match x with
  | Some k => if decide (k = "") then None else Some k
  | None => None
  end.

(** Body of the [for] loop of [playPhrase]. *)
Definition phraseEvent (tStart beatSec : R) (busKeyDefault : string)
    (toneIdDefault : option string) (q : list (R * action)) (ev : PhraseEvent)
    : list (R * action) :=
  let t := tStart + default 0 (ev_t ev) * beatSec in
  let dBeat := default 0.25 (ev_d ev) in
  let dSec := Rmax 0.001 (dBeat * beatSec) in
  match truthy (orNull (ev_toneId ev) toneIdDefault) with
  | None => q
  | Some toneId =>
      let v := default (Fin 1) (ev_v ev) in
      let busKey := orFalsy (ev_busKey ev) busKeyDefault in
      schedule t (PlayNoteAction None
                    {| p_toneId := toneId; p_v := Some v; p_t0 := Some t;
                       p_dSec := Some (Fin dSec); p_busKey := Some busKey |}) q
  end.

(** [playPhrase(phrase, opts)]: it never throws; every trigger is a queued
    closure. *)
Definition playPhrase (st : engine) (phrase : option Phrase) (opts : PhraseOpts)
    : result (PhraseInfo * engine) :=
  let ph := default {| ph_tempo := None; ph_events := [] |} phrase in
  let tempo := default 120 (nullish (po_tempo opts) (ph_tempo ph)) in
  let busKeyDefault := default "master" (po_busKey opts) in
  let toneIdDefault := po_toneId opts in
  let tStart := default (currentTime st) (po_tStart opts) in
  let beatSec := 60 / Rmax 1 tempo in
  let q := foldl (phraseEvent tStart beatSec busKeyDefault toneIdDefault) (queue st) (ph_events ph) in
  Ok ({| pi_tStart := tStart; pi_tempo := tempo; pi_count := length (ph_events ph) |},
      set_queue (fun _ => q) st).

(** *** Song playback *)

Record Track : Type := {
  tr_busKey : option string;
  tr_toneId : option string;
  tr_events : list PhraseEvent
}.

Record Song : Type := {
  sg_tempo : option R;
  sg_tracks : list Track;
  sg_loop : option (R * R)          (* {start, end} *)
}.

Record SongOpts : Type := {
  so_tempo : option R;
  so_tStart : option R;
  so_loop : option (R * R);
  so_loopClamp : option bool;
  so_loopLeadSec : option R
}.

(** [onlyWindow]: [{start, end}] with [None] for [Number.POSITIVE_INFINITY]. *)
Record Window : Type := {
  w_start : R;
  w_end : option R
}.

(** [bt < onlyWindow.start || bt >= onlyWindow.end] *)
Definition outsideWindow (w : Window) (bt : R) : bool :=
  if Rlt_dec bt (w_start w) then true
  else match w_end w with
       | Some e => if Rge_dec bt e then true else false
       | None => false
       end.

Definition eps : R := 1 / 1000000000.

(** The "Loop clamp" block of [scheduleTracks]: the duration in beats the
    note is scheduled with, or [None] when the event is skipped
    ([if (dBeat <= 0) continue;]).  [enabled] is [opts.loopClamp !== false]. *)
Definition loopClamp (enabled : bool) (onlyWindow : option Window) (bt dBeat : R) : option R :=
  match onlyWindow with
  | Some w =>
      match w_end w with
      | Some wend =>
          if enabled then
            let endBeat := bt + dBeat in
            if Rgt_dec endBeat (wend - eps) then
              let dBeat' := Rmax 0 ((wend - bt) - eps) in
              if Rle_dec dBeat' 0 then None else Some dBeat'
            else Some dBeat
          else Some dBeat
      | None => Some dBeat
      end
  | None => Some dBeat
  end.

(** What the closure [scheduleTracks] captures from [playSong]. *)
Record SongEnv : Type := {
  se_handle : nat;
  se_tracks : list Track;
  se_loopClamp : bool;
  se_beatSec : R
}.

(** Body of the inner [for] of [scheduleTracks]. *)
Definition scheduleEvent (env : SongEnv) (tBase beatShift : R) (onlyWindow : option Window)
    (windowBeatBase : R) (busKeyDefault : string) (toneIdDefault : option string)
    (q : list (R * action)) (ev : PhraseEvent) : list (R * action) :=
  let bt := default 0 (ev_t ev) in
  if match onlyWindow with Some w => outsideWindow w bt | None => false end then q
  else
    let beatInWin := bt - windowBeatBase in
    let beat := beatInWin + beatShift in
    let t := tBase + beat * se_beatSec env in
    match loopClamp (se_loopClamp env) onlyWindow bt (default 0.25 (ev_d ev)) with
    | None => q
    | Some dBeat =>
        let dSec := Rmax 0.001 (dBeat * se_beatSec env) in
        match truthy (orNull (ev_toneId ev) toneIdDefault) with
        | None => q
        | Some toneId =>
            let v := default (Fin 1) (ev_v ev) in
            let busKey := orFalsy (ev_busKey ev) busKeyDefault in
            schedule t (PlayNoteAction (Some (se_handle env))
                          {| p_toneId := toneId; p_v := Some v; p_t0 := Some t;
                             p_dSec := Some (Fin dSec); p_busKey := Some busKey |}) q
        end
    end.

(** [scheduleTracks(tBase, beatShift, onlyWindow, windowBeatBase)]. *)
Definition scheduleTracks (env : SongEnv) (tBase beatShift : R) (onlyWindow : option Window)
    (windowBeatBase : R) (q : list (R * action)) : list (R * action) :=
  foldl (fun q tr =>
           let busKeyDefault := orFalsy (tr_busKey tr) "master" in
           let toneIdDefault := truthy (tr_toneId tr) in
           foldl (scheduleEvent env tBase beatShift onlyWindow windowBeatBase
                    busKeyDefault toneIdDefault) q (tr_events tr))
        q (se_tracks env).

(** The variables of the looping branch of [playSong] that [pumpLoop]
    reads, and its counter [nextLoopI]. *)
Record LoopState : Type := {
  loopStart : R;
  loopEnd : R;
  loopLenSec : R;
  loopBaseT : R;
  loopLeadSec : R;
  nextLoopI : nat
}.

Record SongHandle : Type := {
  h_env : SongEnv;
  h_loop : option LoopState
}.

Definition loopWindow (ls : LoopState) : Window :=
  {| w_start := loopStart ls; w_end := Some (loopEnd ls) |}.

(** [loopBaseT + nextLoopI * loopLenSec], the expression of the loop test
    and of [nextLoopT], in exact arithmetic: the time at which the model
    queues window [i].  The counter is an integer. *)
Definition nextLoopT (ls : LoopState) (i : nat) : R :=
  loopBaseT ls + INR i * loopLenSec ls.





(** One pass of the loop body: the window [loop.start .. loop.end) placed
    at [nextLoopT]. *)
Definition scheduleWindow (env : SongEnv) (ls : LoopState) (q : list (R * action)) (i : nat)
    : list (R * action) :=
  scheduleTracks env (nextLoopT ls i) 0 (Some (loopWindow ls)) (loopStart ls) q.

(** The [while] of [pumpLoop]:
    [while ((loopBaseT + nextLoopI * loopLenSec) <= tMax) { ...; nextLoopI++; }].
    [None] when [fuel] iterations did not reach the exit. *)
Fixpoint loopWhile (fuel : nat) (env : SongEnv) (ls : LoopState) (tMax : R)
    (i : nat) (q : list (R * action)) : option (nat * list (R * action)) :=
  match fuel with
  | O => None
  | S fuel' =>
      if Rle_dec (nextLoopT ls i) tMax
      then loopWhile fuel' env ls tMax (S i) (scheduleWindow env ls q i)
      else Some (i, q)
  end.

Definition with_nextLoopI (i : nat) (ls : LoopState) : LoopState :=
  {| loopStart := loopStart ls; loopEnd := loopEnd ls; loopLenSec := loopLenSec ls;
     loopBaseT := loopBaseT ls; loopLeadSec := loopLeadSec ls; nextLoopI := i |}.

(** Iterations that can pass the test: indices [i] with
    [loopBaseT + i*loopLenSec <= tMax], plus the failing test. *)
Definition loopFuel (ls : LoopState) (tMax : R) : nat :=
  S (Z.to_nat (up ((tMax - loopBaseT ls) / loopLenSec ls))).

(** [pumpLoop()], called once by [playSong] and then by the interval
    timer. *)
Definition pumpLoop (h : SongHandle) (st : engine) : option (SongHandle * engine) :=
  match h_loop h with
  | None => Some (h, st)
  | Some ls =>
      if bool_decide (se_handle (h_env h) ∈ stoppedSongs st) then Some (h, st)
      else
        let tNow := currentTime st in
        let tMax := tNow + lookaheadSec st + loopLeadSec ls in
        match loopWhile (loopFuel ls tMax) (h_env h) ls tMax (nextLoopI ls) (queue st) with
        | Some (i, q) =>
            Some ({| h_env := h_env h; h_loop := Some (with_nextLoopI i ls) |},
                  set_queue (fun _ => q) st)
        | None => None
        end
  end.

(** [song || {tracks: []}] *)
Definition emptySong : Song := {| sg_tempo := None; sg_tracks := []; sg_loop := None |}.

(** [tempo = opts.tempo ?? sg.tempo ?? 120] *)
Definition songTempo (song : option Song) (opts : SongOpts) : R :=
  default 120 (nullish (so_tempo opts) (sg_tempo (default emptySong song))).

(** [tStart = opts.tStart ?? this.ctx.currentTime] *)
Definition songStart (st : engine) (opts : SongOpts) : R :=
  default (currentTime st) (so_tStart opts).

(** The environment of the closures of one [playSong] call, with
    [beatSec = 60 / Math.max(1, tempo)]; [handleId] stands for the random
    handle id. *)
Definition songEnv (handleId : nat) (song : option Song) (opts : SongOpts) : SongEnv :=
  {| se_handle := handleId;
     se_tracks := sg_tracks (default emptySong song);
     se_loopClamp := default true (so_loopClamp opts);
     se_beatSec := 60 / Rmax 1 (songTempo song opts) |}.

(** The loop variables as the looping branch initialises them
    ([nextLoopI = 0]). *)
Definition initialLoop (st : engine) (song : option Song) (opts : SongOpts)
    (lstart lend : R) : LoopState :=
  let beatSec := 60 / Rmax 1 (songTempo song opts) in
  let loopLenBeats := lend - lstart in
  {| loopStart := lstart; loopEnd := lend;
     loopLenSec := loopLenBeats * beatSec;
     loopBaseT := songStart st opts + lend * beatSec;
     loopLeadSec := default 6 (so_loopLeadSec opts);
     nextLoopI := 0 |}.




(** *** Noise buffer and pulse wave *)

Section NoiseBuffer.
(** [random k] is the value of the [k]-th evaluation of
    [(Math.random()*2-1)] made by the call (counting from 0). *)
Context {A : Type} (random : nat -> A).

(** The sample-and-hold [for] loop: [n] samples remain, [i] is the index,
    [draws] counts the evaluations made so far and [v] is the held value. *)
Fixpoint holdLoop (n : nat) (step i : Z) (draws : nat) (v : A) : list A :=
  match n with
  | O => []
  | S n' =>
      if (i mod step =? 0)%Z
      then random draws :: holdLoop n' step (i + 1) (S draws) (random draws)
      else v :: holdLoop n' step (i + 1) draws v
  end.

(** [makeNoiseBuffer(ctx, rateHz=0)]: the channel data of the buffer.
    [rateHz] is [None] when it is undefined or not finite. *)
Definition makeNoiseBuffer (sampleRate : Z) (rateHz : option Q) : list A :=
  let sr := toInt32 sampleRate in
  let len := Z.max 1 (2 * sr) in
  let white := map random (seq 0 (Z.to_nat len)) in
  match rateHz with
  | None => white
  | Some r =>
      if Qle_bool r 0 then white
      else
        let step := Z.max 1 (Qfloor (inject_Z sr / Qmax 1 r)) in
        holdLoop (Z.to_nat len) step 0 1 (random 0)
  end.

End NoiseBuffer.

(** [Number(duty) || 0.5]: [NaN] and [0] are falsy. *)
Definition orHalf (n : num) : num :=
  match n with
  | NaN => Fin 0.5
  | Fin x => if Req_dec_T x 0 then Fin 0.5 else Fin x
  | other => other
  end.

(** [makePulseWave(ctx, duty)], with [H = 64] harmonics. *)
Definition makePulseWave (duty : option num) : PeriodicWave :=
  let d := clamp (Some (orHalf (Number duty))) 0.01 0.99 in
  let H := 64%nat in
  let a k := let ang := 2 * PI * INR k * d in 2 * sin ang / (PI * INR k) in
  let b k := let ang := 2 * PI * INR k * d in 2 * (1 - cos ang) / (PI * INR k) in
  {| real := 0 :: map a (seq 1 H);
     imag := 0 :: map b (seq 1 H) |}.

(** *** Concrete inputs used by the examples below *)

(** A tone with a 100 ms attack and decay: [{env:{attack:0.1, decay:0.1,
    sustain:0.5, release:0.1}, gain:0.8}]. *)
Definition leadTone : ToneDef :=
  {| tone_env := Some {| env_attack := Some (Fin 0.1); env_a := None;
                         env_decay := Some (Fin 0.1); env_d := None;
                         env_sustain := Some (Fin 0.5); env_s := None;
                         env_release := Some (Fin 0.1); env_r := None |};
     tone_gain := Some (Fin 0.8);
     tone_mono := None;
     tone_monoCutMs := None |}.

(** The same tone in mono mode. *)
Definition bassTone : ToneDef :=
  {| tone_env := tone_env leadTone; tone_gain := tone_gain leadTone;
     tone_mono := Some mono; tone_monoCutMs := None |}.

(** An unlocked engine at clock 0 with the two tones loaded and the
    constructor's [master] bus. *)
Definition demoEngine : engine :=
  {| currentTime := 0; hasCancel := true; running := true;
     lookaheadSec := 0.12;
     toneBank := Some (<[ "lead" := leadTone ]> (<[ "bass" := bassTone ]> ∅));
     buses := <[ "master" := 1 ]> ∅;
     activeMono := ∅; voiceSerial := 1; voices := ∅;
     queue := []; stoppedSongs := ∅; gainTimeline := ∅;
     sourceStops := []; console := [] |}.

(** [playNote({toneId:"lead", t0:0, dSec:0.05})]: note-off in mid-attack. *)
Definition earlyOff : NoteParams :=
  {| p_toneId := "lead"; p_v := None; p_t0 := Some 0;
     p_dSec := Some (Fin 0.05); p_busKey := None |}.

(** [playNote({toneId:"lead", t0:0, dSec:NaN})]. *)
Definition nanLength : NoteParams :=
  {| p_toneId := "lead"; p_v := None; p_t0 := Some 0;
     p_dSec := Some NaN; p_busKey := None |}.

(** [playNote({toneId:"bass", t0:0, dSec:0.05})]. *)
Definition bassNote : NoteParams :=
  {| p_toneId := "bass"; p_v := None; p_t0 := Some 0;
     p_dSec := Some (Fin 0.05); p_busKey := None |}.

(** [playNote({toneId:"nope"})]: a tone id that is not in the bank. *)
Definition unknownTone : NoteParams :=
  {| p_toneId := "nope"; p_v := None; p_t0 := None;
     p_dSec := None; p_busKey := None |}.

(** The demo engine with the trigger [playNote({toneId:"nope"})] queued at
    time 0. *)
Definition queuedEngine : engine :=
  set_queue (fun _ => [(0, PlayNoteAction None unknownTone)]) demoEngine.


(** [{events:[{t:0, toneId:"nope"}]}] *)
Definition unknownTonePhrase : Phrase :=
  {| ph_tempo := None;
     ph_events := [ {| ev_t := Some 0; ev_d := None; ev_v := None;
                       ev_toneId := Some "nope"; ev_busKey := None |} ] |}.

Definition noPhraseOpts : PhraseOpts :=
  {| po_tempo := None; po_busKey := None; po_toneId := None; po_tStart := None |}.

(** [{tempo: 0.5, tracks: [], loop: {start: 0, end: 4}}] *)
Definition slowSong : Song :=
  {| sg_tempo := Some 0.5; sg_tracks := []; sg_loop := Some (0, 4) |}.



Definition noSongOpts : SongOpts :=
  {| so_tempo := None; so_tStart := None; so_loop := None;
     so_loopClamp := None; so_loopLeadSec := None |}.

(** The event [{t: 3, d: 1, toneId: "lead"}]: the last beat of a four-beat
    window. *)
Definition lastBeat : PhraseEvent :=
  {| ev_t := Some 3; ev_d := Some 1; ev_v := None;
     ev_toneId := Some "lead"; ev_busKey := None |}.

(** The event [{t: 3.999, d: 1, toneId: "lead"}]: a thousandth of a beat
    before the end of a four-beat window. *)
Definition lateBeat : PhraseEvent :=
  {| ev_t := Some 3.999; ev_d := Some 1; ev_v := None;
     ev_toneId := Some "lead"; ev_busKey := None |}.

(** The closure environment of a song at tempo 120 with handle 7. *)
Definition demoSongEnv : SongEnv :=
  {| se_handle := 7; se_tracks := []; se_loopClamp := true; se_beatSec := 0.5 |}.

(** A reference to an id that [playNote] cannot resolve: the bank is loaded
    and either [tones[toneId]] is [undefined] (the id is no key of the bank
    and no name inherited from [Object.prototype]) or no bus has the key. *)
Definition badRef (st : engine) (p : NoteParams) : Prop :=
  exists tones, toneBank st = Some tones /\
    (tonesGet tones (p_toneId p) = None \/ buses st !! orFalsy (p_busKey p) "master" = None).

(** [playNote({toneId:"toString"})]: not a tone of the bank, but a name
    every object inherits. *)
Definition inheritedTone : NoteParams :=
  {| p_toneId := "toString"; p_v := None; p_t0 := None;
     p_dSec := None; p_busKey := None |}.

End Hardline.

(** ** The one-voice core: [sq_audio_core_v0.7.1c.js], class [SQAudioCore] *)
Module Core.
Import JS.

(** *** Bit-depth curve (WaveShaper) *)
Section BitDepth.
Local Open Scope Q_scope.

(** [Math.round]: the nearest integer, halves upward. *)
Definition round (y : Q) : Z := Qfloor (y + 0.5).

(** [bits = Math.max(2, Math.min(16, bits | 0))] *)
Definition clampBits (bits : Z) : Z := Z.max 2 (Z.min 16 (toInt32 bits)).

(** [x = (i / (n - 1)) * 2 - 1] *)
Definition gridX (n i : Z) : Q := (inject_Z i / inject_Z (n - 1)) * 2 - 1.

(** The two assignments in the loop body, as a function of [x]:
    [q = Math.round((x*0.5+0.5)*(levels-1))/(levels-1); curve[i] = q*2-1]. *)
Definition quantize (levels : Z) (x : Q) : Q :=
  let q := inject_Z (round ((x * 0.5 + 0.5) * inject_Z (levels - 1))) / inject_Z (levels - 1) in
  q * 2 - 1.

(** The table built on a cache miss, [n = 2048] points. *)
Definition buildCurve (bits : Z) : list Q :=
  let levels := (2 ^ bits)%Z in
  let n := 2048%Z in
  map (fun i => quantize levels (gridX n (Z.of_nat i))) (seq 0 (Z.to_nat n)).

(** [_getBitDepthCurve(bits = 12)] over [_bitCurveCache]. *)
Definition _getBitDepthCurve (cache : gmap Z (list Q)) (bits : option Z)
    : list Q * gmap Z (list Q) :=
  let bits := clampBits (default 12%Z bits) in
  let key := bits in
  match cache !! key with
  | Some curve => (curve, cache)
  | None =>
      let curve := buildCurve bits in
      (curve, <[ key := curve ]> cache)
  end.

(** The curve as the transfer function of the [WaveShaperNode] it is
    given to ([shaper.curve = ...; shaper.oversample = "none"]), as the
    Web Audio API defines it for a table of [N] points: the input [x] is
    mapped to the index [v = (N-1)/2 * (x+1)]; outside the table the end
    points answer, inside it the output interpolates linearly between the
    two neighbouring points. *)
Definition shape (c : list Q) (x : Q) : Q :=
  let N := Z.of_nat (length c) in
  let v := inject_Z (N - 1) / 2 * (x + 1) in
  if Qle_bool v 0 then List.nth 0 c 0
  else if Qle_bool (inject_Z (N - 1)) v then List.nth (Z.to_nat (N - 1)) c 0
  else
    let k := Qfloor v in
    let f := v - inject_Z k in
    (1 - f) * List.nth (Z.to_nat k) c 0 + f * List.nth (Z.to_nat (k + 1)) c 0.

(** Vocabulary for the curve's properties.  Tables hold rationals, which
    are compared by value: [levelCount] counts the distinct values. *)
#[global] Instance Q_eq_dec : EqDecision Q.
Proof. solve_decision. Defined.

Definition levelCount (c : list Q) : nat := length (remove_dups (map Qred c)).

Definition nondecreasing (c : list Q) : Prop :=
  forall (i j : nat) (x y : Q),
    (i <= j)%nat -> c !! i = Some x -> c !! j = Some y -> x <= y.

(** Upward steps between neighbours of a table. *)
Fixpoint risingSteps (c : list Q) : nat :=
  match c with
  | x :: (y :: _) as rest => ((if Qeq_bool x y then 0 else 1) + risingSteps rest)%nat
  | _ => O
  end.

(** The depths the clamp lets through. *)
Definition depths : list Z := [2; 3; 4; 5; 6; 7; 8; 9; 10; 11; 12; 13; 14; 15; 16]%Z.

(** Every cached curve is the one [buildCurve] makes for its key: true of
    the empty cache and kept by [_getBitDepthCurve], the only writer. *)
Definition curveCacheOk (cache : gmap Z (list Q)) : Prop :=
  forall (k : Z) (c : list Q), cache !! k = Some c -> c = buildCurve k.

End BitDepth.

(** *** Pulse wave *)
Section Pulse.
Local Open Scope R_scope.

(** The cache key [Math.round(D * 1000) / 1000].  [D * 1000] is a
    product of doubles, so it is rounded before [Math.round] sees it;
    [Math.round] of a double is exact (the nearest integer, halves
    upward); and two keys are equal exactly when the rounded integers are,
    so the map is keyed by [Math.round(D * 1000)]. *)
Definition dutyKey (D : R) : Z := Int_part (Binary64.round (D * 1000) + 0.5).

(** [_getPulseWave(duty = 0.5)] over [_pulseCache]. *)
Definition _getPulseWave (cache : gmap Z PeriodicWave) (duty : option num)
    : PeriodicWave * gmap Z PeriodicWave :=
  let D := match default (Fin 0.5) duty with Fin x => x | _ => 0.5 end in
  let D := Rmax 0.05 (Rmin 0.95 D) in
  let dutyKey := dutyKey D in
  match cache !! dutyKey with
  | Some wave => (wave, cache)
  | None =>
      let size := 64%nat in
      let a n := (2 / (INR n * PI)) * sin (INR n * PI * D) in
      let wave := {| real := 0 :: map a (seq 1 (size - 1));
                     imag := 0 :: map (fun _ => 0) (seq 1 (size - 1)) |} in
      (wave, <[ dutyKey := wave ]> cache)
  end.

End Pulse.

(** *** Sample-and-hold noise buffer *)
Section Noise.
(** [random k]: the [k]-th evaluation of [Math.random() * 2 - 1] in the call. *)
Context {A : Type} (random : nat -> A).

(** The hold loop over [raw]: [c] counts down the samples left of the
    current hold, [last] is the held value. *)
Fixpoint shLoop (raw : list A) (step c : Z) (last : A) : list A :=
  match raw with
  | [] => []
  | x :: rest =>
      let last := if (c =? 0)%Z then x else last in
      let c := if (c =? 0)%Z then step else c in
      last :: shLoop rest step (c - 1) last
  end.

(** [_getNoiseBuffer(rateHz = 600)] over [_noiseBufCache], for a finite
    rate and a sample rate of at least one sample per second. *)
Definition _getNoiseBuffer (sampleRate : Z) (cache : gmap Z (list A)) (rateHz : option Q)
    : list A * gmap Z (list A) :=
  let key := Z.max 20 (Qfloor (default 600%Q rateHz)) in
  match cache !! key with
  | Some buf => (buf, cache)
  | None =>
      let sr := sampleRate in
      let length := sr in
      let raw := map random (seq 0 (Z.to_nat length)) in
      let step := Z.max 1 (sr / Z.max 20 key) in
      let sh := shLoop raw step 0 (random 0) in
      (sh, <[ key := sh ]> cache)
  end.

End Noise.

(** *** Shared FX buses and the track registry *)
Section Engine.
Local Open Scope Q_scope.

(** [toneJson.filter] *)
Record FilterDef : Type := {
  hpf_hz : option Q;
  lpf_hz : option Q;
  bit_depth : option Z;
  sr_crush_hz : option Q
}.

(** The tone fields read by [playTone]/[playToneBus] outside [_buildSource]. *)
Record ToneJson : Type := {
  len_ms : option Q;
  env_release : option Q;         (* env_ms.release, when finite *)
  tone_filter : option FilterDef  (* toneJson.filter *)
}.

(** The node [_createSRCrushNode] returns, with its hold length. *)
Inductive SRNode : Type :=
| WorkletNode (step : Z)
| ScriptProcessorNode (step : Z).

(** A bus object; [busId] is its identity (allocation number). *)
Record Bus : Type := {
  busId : nat;
  hpf_frequency : Q;
  lpf_frequency : Q;
  shaper_curve : list Q;
  srNode : option SRNode;
  outGain_value : Q;
  filterSnapshot : FilterDef
}.

(** A registry entry [{sourceNode, gainNode, endTime, releaseSec}];
    [entryId] is the identity that [===] compares. *)
Record Entry : Type := {
  entryId : nat;
  endTime : Q;
  releaseSec : option Q
}.

(** Calls made on an older voice when it is stolen. *)
Inductive BackendCall : Type :=
| FadeToZero (entry : nat) (tEnd : Q)     (* gain.linearRampToValueAtTime(0, tEnd) *)
| StopSource (entry : nat) (t : Q).       (* sourceNode.stop(t) *)

Record core : Type := {
  sampleRate : Z;                        (* AC.sampleRate *)
  currentTime : Q;                       (* AC.currentTime *)
  workletLoaded : bool;                  (* _workletLoaded, AudioWorkletNode exists and its
                                            constructor does not throw *)
  hasScriptProcessor : bool;             (* AC.createScriptProcessor exists *)
  bitCurveCache : gmap Z (list Q);       (* _bitCurveCache *)
  busCache : gmap string Bus;            (* _busCache *)
  activeTracks : gmap string Entry;      (* _activeTracks *)
  onended : gmap nat string;             (* entry -> trackId of its pending onended handler *)
  nextId : nat;                          (* objects allocated so far *)
  backend : list BackendCall             (* latest first *)
}.

Definition set_bitCurveCache (c : gmap Z (list Q)) (st : core) : core :=
  {| sampleRate := sampleRate st; currentTime := currentTime st;
     workletLoaded := workletLoaded st; hasScriptProcessor := hasScriptProcessor st;
     bitCurveCache := c; busCache := busCache st; activeTracks := activeTracks st;
     onended := onended st; nextId := nextId st; backend := backend st |}.

Definition set_busCache (c : gmap string Bus) (st : core) : core :=
  {| sampleRate := sampleRate st; currentTime := currentTime st;
     workletLoaded := workletLoaded st; hasScriptProcessor := hasScriptProcessor st;
     bitCurveCache := bitCurveCache st; busCache := c; activeTracks := activeTracks st;
     onended := onended st; nextId := nextId st; backend := backend st |}.

Definition set_activeTracks (f : gmap string Entry -> gmap string Entry) (st : core) : core :=
  {| sampleRate := sampleRate st; currentTime := currentTime st;
     workletLoaded := workletLoaded st; hasScriptProcessor := hasScriptProcessor st;
     bitCurveCache := bitCurveCache st; busCache := busCache st;
     activeTracks := f (activeTracks st);
     onended := onended st; nextId := nextId st; backend := backend st |}.

Definition set_onended (f : gmap nat string -> gmap nat string) (st : core) : core :=
  {| sampleRate := sampleRate st; currentTime := currentTime st;
     workletLoaded := workletLoaded st; hasScriptProcessor := hasScriptProcessor st;
     bitCurveCache := bitCurveCache st; busCache := busCache st;
     activeTracks := activeTracks st;
     onended := f (onended st); nextId := nextId st; backend := backend st |}.

Definition set_nextId (n : nat) (st : core) : core :=
  {| sampleRate := sampleRate st; currentTime := currentTime st;
     workletLoaded := workletLoaded st; hasScriptProcessor := hasScriptProcessor st;
     bitCurveCache := bitCurveCache st; busCache := busCache st;
     activeTracks := activeTracks st;
     onended := onended st; nextId := n; backend := backend st |}.

Definition call (c : BackendCall) (st : core) : core :=
  {| sampleRate := sampleRate st; currentTime := currentTime st;
     workletLoaded := workletLoaded st; hasScriptProcessor := hasScriptProcessor st;
     bitCurveCache := bitCurveCache st; busCache := busCache st;
     activeTracks := activeTracks st;
     onended := onended st; nextId := nextId st; backend := c :: backend st |}.

(** [x || y] on numbers: 0 is falsy (and so are [NaN] and [undefined],
    which a rational does not hold). *)
Definition orNumber (x y : Q) : Q := if Qeq_bool x 0 then y else x.

(** The hold length the constructor of [SRCrushProcessor] computes from
    its [processorOptions]:
    [outputSampleRate = options.sampleRate || 44100],
    [targetHz = options.targetHz || outputSampleRate],
    [step = Math.max(1, Math.floor(outputSampleRate / Math.max(1, targetHz)))]. *)
Definition processorStep (optSampleRate optTargetHz : Q) : Z :=
  let outputSampleRate := orNumber optSampleRate 44100 in
  let targetHz := orNumber optTargetHz outputSampleRate in
  Z.max 1 (Qfloor (outputSampleRate / Qmax 1 targetHz)).

(** [_createSRCrushNode(srCrushHz)].  A [new AudioWorkletNode] that throws
    is caught and the code falls through to the ScriptProcessor, which is
    also where it goes when the worklet is not loaded: [workletLoaded]
    stands for a worklet that is loaded and whose node can be made. *)
Definition _createSRCrushNode (st : core) (srCrushHz : Q) : option SRNode :=
  let sampleRate := inject_Z (sampleRate st) in
  let targetHz := orNumber srCrushHz sampleRate in
  if Qle_bool (sampleRate - 1) targetHz then None
  else if workletLoaded st then
    Some (WorkletNode (processorStep sampleRate (orNumber srCrushHz sampleRate)))
  else if negb (hasScriptProcessor st) then None
  else
    let target := Qmax 20 (Qmin sampleRate (orNumber srCrushHz sampleRate)) in
    Some (ScriptProcessorNode (Z.max 1 (Qfloor (sampleRate / target)))).

(** [String(busKey || "default")] *)
Definition busKeyOf (busKey : option string) : string :=
  match busKey with
  | Some k => if decide (k = "") then "default" else k
  | None => "default"
  end.

(** The optional crush stage of a chain:
    [srCrushHz = filter.sr_crush_hz ?? 44100], and a node only
    [if (srCrushHz > 0 && srCrushHz < sampleRate)]. *)
Definition crushNodeFor (st : core) (filter : FilterDef) : option SRNode :=
  let srCrushHz := default 44100 (sr_crush_hz filter) in
  if Qlt_le_dec 0 srCrushHz then
    if Qlt_le_dec srCrushHz (inject_Z (sampleRate st))
    then _createSRCrushNode st srCrushHz else None
  else None.

(** [_getOrCreateBus(busKey, filter = {}, masterGain = 1.0)];
    [masterGain] is [None] when it is not finite. *)
Definition _getOrCreateBus (st : core) (busKey : option string) (filter : FilterDef)
    (masterGain : option Q) : Bus * core :=
  let key := busKeyOf busKey in
  match busCache st !! key with
  | Some bus => (bus, st)
  | None =>
      let bd := default 12%Z (bit_depth filter) in
      let '(curve, cache) := _getBitDepthCurve (bitCurveCache st) (Some bd) in
      let st := set_bitCurveCache cache st in
      let srNode := crushNodeFor st filter in
      let bus := {| busId := nextId st;
                    hpf_frequency := default 20 (hpf_hz filter);
                    lpf_frequency := default 12000 (lpf_hz filter);
                    shaper_curve := curve;
                    srNode := srNode;
                    outGain_value := default 1 masterGain;
                    filterSnapshot := filter |} in
      let st := set_nextId (S (nextId st)) st in
      (bus, set_busCache (<[ key := bus ]> (busCache st)) st)
  end.

Definition emptyFilter : FilterDef :=
  {| hpf_hz := None; lpf_hz := None; bit_depth := None; sr_crush_hz := None |}.

(** [endTime] as [_applyEnvelope] returns it: [t0 + len_ms/1000 + R] with
    [R = (env_ms.release ?? 120) / 1000]. *)
Definition envelopeEnd (tone : ToneJson) (t0 : Q) : Q :=
  let R := default 120 (env_release tone) / 1000 in
  let lenSec := default 400 (len_ms tone) / 1000 in
  t0 + lenSec + R.

(** The "Monophonic check" of [playTone]: fade the old voice over 10 ms,
    stop its source after 20 ms, and delete the entry. *)
Definition stealTone (trackId : option string) (st : core) : core :=
  match trackId with
  | Some tid =>
      match activeTracks st !! tid with
      | Some old =>
          let now := currentTime st in
          let st := call (FadeToZero (entryId old) (now + 0.01)) st in
          let st := call (StopSource (entryId old) (now + 0.02)) st in
          set_activeTracks (delete tid) st
      | None => st
      end
  | None => st
  end.

(** [playTone(toneJson, whenSec = 0, trackId = null, monoCutMs = null)];
    the per-note filter chain it builds is private to the note. *)
Definition playTone (st : core) (tone : ToneJson) (whenSec : Q) (trackId : option string)
    : (Q * Q) * core :=
  let t0 := currentTime st + Qmax 0 whenSec in
  let st := stealTone trackId st in
  let filter := default emptyFilter (tone_filter tone) in
  let '(_, cache) := _getBitDepthCurve (bitCurveCache st) (Some (default 12%Z (bit_depth filter))) in
  let st := set_bitCurveCache cache st in
  let endTime := envelopeEnd tone t0 in
  let st :=
    match trackId with
    | Some tid =>
        let entry := {| entryId := nextId st; endTime := endTime; releaseSec := None |} in
        let st := set_nextId (S (nextId st)) st in
        let st := set_activeTracks (insert tid entry) st in
        set_onended (insert (entryId entry) tid) st
    | None => st
    end in
  ((t0, endTime), st).

(** The handler installed by [playTone]:
    [if (this._activeTracks.get(trackId) === entry) this._activeTracks.delete(trackId)]. *)
Definition onendedHandler (entry : nat) (trackId : string) (st : core) : core :=
  match activeTracks st !! trackId with
  | Some cur =>
      if decide (entryId cur = entry) then set_activeTracks (delete trackId) st else st
  | None => st
  end.

(** The backend raises [ended] on a source once; its handler, if one is
    installed, runs then. *)
Definition fireEnded (entry : nat) (st : core) : core :=
  match onended st !! entry with
  | Some tid => onendedHandler entry tid (set_onended (delete entry) st)
  | None => st
  end.

(** The "Monophonic check" of [playToneBus].  The fade length [r] is a
    [const] of the inner block, so the later [old.sourceNode.stop(now + r
    + 0.02)] throws inside the [try] and only the fade is applied. *)
Definition stealToneBus (trackId : option string) (monoCutMs : option Q) (st : core) : core :=
  match trackId with
  | Some tid =>
      match activeTracks st !! tid with
      | Some old =>
          let now := currentTime st in
          let r :=
            match monoCutMs with
            | Some ms => if Qle_bool 0 ms then Qmax 0.005 (ms / 1000)
                         else default 0.02 (releaseSec old)
            | None => default 0.02 (releaseSec old)
            end in
          let st := call (FadeToZero (entryId old) (now + r)) st in
          set_activeTracks (delete tid) st
      | None => st
      end
  | None => st
  end.

(** [playToneBus(toneJson, whenSec = 0, busKey = "bgm", trackId = null, monoCutMs = null)];
    [busKey] is [None] when the argument is left out. *)
Definition playToneBus (st : core) (tone : ToneJson) (whenSec : Q) (busKey : option string)
    (trackId : option string) (monoCutMs : option Q) : Q * core :=
  let t0 := currentTime st + Qmax 0 whenSec in
  let st := stealToneBus trackId monoCutMs st in
  let filter := default emptyFilter (tone_filter tone) in
  let '(bus, st) := _getOrCreateBus st (Some (default "bgm" busKey)) filter (Some 1) in
  let endTime := envelopeEnd tone t0 in
  let st :=
    match trackId with
    | Some tid =>
        let relMs := default 10 (env_release tone) in
        let releaseSec := Qmax 0.01 (relMs / 1000) in
        let entry := {| entryId := nextId st; endTime := endTime;
                        releaseSec := Some releaseSec |} in
        let st := set_nextId (S (nextId st)) st in
        set_activeTracks (insert tid entry) st
    | None => st
    end in
  (endTime, st).

Definition set_currentTime (t : Q) (st : core) : core :=
  {| sampleRate := sampleRate st; currentTime := t;
     workletLoaded := workletLoaded st; hasScriptProcessor := hasScriptProcessor st;
     bitCurveCache := bitCurveCache st; busCache := busCache st;
     activeTracks := activeTracks st;
     onended := onended st; nextId := nextId st; backend := backend st |}.

(** What can happen to a core between two requests: the public calls, an
    [ended] event of the backend, and the passing of time. *)
Inductive op : Type :=
| OpGetBus (busKey : option string) (f : FilterDef) (masterGain : option Q)
| OpPlayToneBus (tone : ToneJson) (whenSec : Q) (busKey trackId : option string)
    (monoCutMs : option Q)
| OpPlayTone (tone : ToneJson) (whenSec : Q) (trackId : option string)
| OpEnded (entry : nat)
| OpClock (t : Q).

Definition step (st : core) (o : op) : core :=
  match o with
  | OpGetBus busKey f g => snd (_getOrCreateBus st busKey f g)
  | OpPlayToneBus tone whenSec busKey trackId monoCutMs =>
      snd (playToneBus st tone whenSec busKey trackId monoCutMs)
  | OpPlayTone tone whenSec trackId => snd (playTone st tone whenSec trackId)
  | OpEnded entry => fireEnded entry st
  | OpClock t => set_currentTime t st
  end.

Definition run (ops : list op) (st : core) : core := foldl step st ops.

(** A new trigger on the track [k]. *)
Definition retriggers (k : string) (o : op) : Prop :=
  match o with
  | OpPlayToneBus _ _ _ (Some k') _ | OpPlayTone _ _ (Some k') => k' = k
  | _ => False
  end.

(** Ids in the registry and in the handler table were allocated: they are
    below [nextId]. *)
Definition idsAllocated (st : core) : Prop :=
  (forall k e, activeTracks st !! k = Some e -> (entryId e < nextId st)%nat) /\
  (forall id k, onended st !! id = Some k -> (id < nextId st)%nat).

(** *** Concrete inputs used by the examples below *)

(** A fresh core at 44100 Hz, as the constructor leaves it. *)
Definition freshCore : core :=
  {| sampleRate := 44100; currentTime := 0;
     workletLoaded := false; hasScriptProcessor := true;
     bitCurveCache := ∅; busCache := ∅; activeTracks := ∅;
     onended := ∅; nextId := 0; backend := [] |}.

(** The double nearest to 0.7505, [0x1.804189374bc6ap-1]. *)
Definition duty7505 : R := (IZR 6759903040683114 * Binary64.pow2 (-53))%R.

(** [{len_ms: 400, env_ms: {release: 120}, filter: {lpf_hz: 8000, bit_depth: 8}}] *)
Definition beepTone : ToneJson :=
  {| len_ms := Some 400; env_release := Some 120;
     tone_filter := Some {| hpf_hz := None; lpf_hz := Some 8000;
                            bit_depth := Some 8%Z; sr_crush_hz := None |} |}.

(** The same tone with another filter: [{lpf_hz: 500, bit_depth: 4}]. *)
Definition dullTone : ToneJson :=
  {| len_ms := Some 400; env_release := Some 120;
     tone_filter := Some {| hpf_hz := None; lpf_hz := Some 500;
                            bit_depth := Some 4%Z; sr_crush_hz := None |} |}.

End Engine.

End Core.

(** ** The hardline engine, continued *)

(** *** Transport: starting and stopping the scheduler, stopping a song *)
Module Transport.
Import JS Hardline.
Local Open Scope R_scope.

(** Queue items compared by their audio time. *)
Definition byTime (x y : R * action) : Prop := fst x <= fst y.

(** A queue whose items are in time order. *)
Definition inTimeOrder (q : list (R * action)) : Prop := StronglySorted byTime q.

(** Ids handed out so far are below [_voiceSerial]: the tracked voices, the
    stoppers of the mono slots and the voices the queued clean-ups name. *)
Definition voicesAllocated (st : engine) : Prop :=
  (forall v, v ∈ voices st -> (v < voiceSerial st)%nat) /\
  (forall k slot, activeMono st !! k = Some slot -> (stopper slot < voiceSerial st)%nat).







(** The banks, the buses and the stopped handles of two states agree. *)
Definition sameRefs (st st' : engine) : Prop :=
  toneBank st' = toneBank st /\ buses st' = buses st /\ stoppedSongs st' = stoppedSongs st.


(** The events of a phrase that name a tone, directly or through
    [opts.toneId]. *)
Definition hasTone (toneIdDefault : option string) (ev : PhraseEvent) : bool :=
  match truthy (orNull (ev_toneId ev) toneIdDefault) with Some _ => true | None => false end.

(** A queued item that a phrase can have added: a trigger without a song
    handle, whose start time is its queue time and whose length is at
    least 1 ms. *)
Definition phraseTrigger (x : R * action) : Prop :=
  exists p d, snd x = PlayNoteAction None p /\ p_t0 p = Some (fst x) /\
              p_dSec p = Some (Fin d) /\ 0.001 <= d.

(** [ClockScheduler.start()]; the interval timer it installs calls [_pump]. *)
Definition sched_start (st : engine) : engine :=
  if running st then st else set_running true st.

(** [ClockScheduler.stop()]: [_running = false; _queue.length = 0]. *)
Definition sched_stop (st : engine) : engine :=
  set_queue (fun _ => []) (set_running false st).

(** [handle.stop()] of the handle [playSong] returns; [stateRunning] is
    [this.state === 'running']. *)
Definition handle_stop (hid : nat) (stateRunning : bool) (st : engine) : engine :=
  let st := set_stoppedSongs (union {[ hid ]}) st in
  let st := sched_stop st in
  let st := if stateRunning then sched_start st else st in
  stopAllVoices (Some (currentTime st + 0.01)) st.

End Transport.

(** *** Pitch conversion of the core *)
Module Pitch.
Import JS.
Local Open Scope R_scope.

(** The number's integer part, towards zero (the first step of [x | 0]). *)
Definition truncate (x : R) : Z :=
  if Rle_dec 0 x then Int_part x else (- Int_part (- x))%Z.

(** [SQAudioCore.noteToHz(note)]: [note | 0] when finite, else 69, clamped
    to 0..127. *)
Definition noteToHz (note : option num) : R :=
  let n := match Number note with
           | Fin x => toInt32 (truncate x)
           | _ => 69%Z
           end in
  let nn := Z.min 127 (Z.max 0 n) in
  440 * Rpower 2 (IZR (nn - 69) / 12).

End Pitch.

(** *** Banks: [loadBanks] and its validators *)
Module Banks.
Import JS.

(** [tone.osc] when it is an object: its [type] and [waveId], each a
    string or absent. *)
Record OscJson : Type := {
  osc_type : option string;
  osc_waveId : option string
}.

(** An entry of [toneBank.tones]: not an object (or [null]), or an object
    whose [osc] is an object or not. *)
Inductive ToneJson : Type :=
| ToneNotObject
| ToneObject (osc : option OscJson).

(** The argument [toneBank] when it is truthy: not an object, or an object
    whose [tones] is an object (its [Object.entries], in order) or not. *)
Inductive BankJson : Type :=
| BankNotObject
| BankObject (tones : option (list (string * ToneJson))).

(** [['sine','square','triangle','sawtooth','noise','wave'].includes(type)] *)
Definition okType (type : option string) : bool :=
  match type with
  | Some t => bool_decide (t ∈ ["sine"; "square"; "triangle"; "sawtooth"; "noise"; "wave"])
  | None => false
  end.

(** [String(type)] in the error message. *)
Definition showType (type : option string) : string := default "undefined" type.

(** [!t.osc.waveId] *)
Definition noWaveId (osc : OscJson) : bool :=
  match osc_waveId osc with
  | Some w => bool_decide (w = "")
  | None => true
  end.

(** The body of the [for] loop of [_validateToneBank]. *)
Definition validateTone (id : string) (t : ToneJson) : result unit :=
  if bool_decide (id = "") then Throw "toneId empty"
  else match t with
       | ToneNotObject => Throw ("tone " +:+ id +:+ " invalid")
       | ToneObject None => Throw ("tone " +:+ id +:+ " missing osc")
       | ToneObject (Some osc) =>
           let type := osc_type osc in
           if negb (okType type)
           then Throw ("tone " +:+ id +:+ " osc.type invalid: " +:+ showType type)
           else if bool_decide (type = Some "wave") && noWaveId osc
           then Throw ("tone " +:+ id +:+ " osc.waveId required")
           else Ok tt
       end.

Fixpoint validateTones (tones : list (string * ToneJson)) : result unit :=
  match tones with
  | [] => Ok tt
  | (id, t) :: rest =>
      match validateTone id t with
      | Ok _ => validateTones rest
      | Throw msg => Throw msg
      end
  end.

(** [_validateToneBank(tb)] *)
Definition _validateToneBank (tb : BankJson) : result unit :=
  match tb with
  | BankNotObject => Throw "toneBank must be object"
  | BankObject None => Throw "toneBank.tones required"
  | BankObject (Some tones) => validateTones tones
  end.

(** A wave of the wave bank (an object): the arrays [w.real || []] and
    [w.imag || []]. *)
Record WaveJson : Type := {
  w_real : list R;
  w_imag : list R
}.

(** The argument [waveBank] when it is truthy; [waves] is [None] when
    [wb.waves] is missing or not an object. *)
Inductive WaveBankJson : Type :=
| WaveBankNotObject
| WaveBankObject (waves : option (list (string * WaveJson))).

(** [_validateWaveBank(wb)] *)
Definition _validateWaveBank (wb : WaveBankJson) : result unit :=
  match wb with
  | WaveBankNotObject => Throw "waveBank must be object"
  | WaveBankObject None => Throw "waveBank.waves required"
  | WaveBankObject (Some _) => Ok tt
  end.

(** The bank fields of the engine. *)
Record banks : Type := {
  toneBank : option BankJson;
  waveBank : option WaveBankJson;
  _waves : gmap string WaveJson;       (* id -> the PeriodicWave built from it *)
  warnings : list string                (* ids of the console.warn lines, latest first *)
}.

Section LoadBanks.
(** [accepts w] holds when [ctx.createPeriodicWave(real, imag, ...)] returns
    for the arrays of [w] and does not throw. *)
Variable accepts : WaveJson -> bool.

(** The [for] loop over [Object.entries(this.waveBank.waves || {})] with
    its [try]/[catch]. *)
Definition buildWaves (waves : list (string * WaveJson)) (b : banks) : banks :=
  foldl (fun b '(id, w) =>
           if accepts w
           then {| toneBank := toneBank b; waveBank := waveBank b;
                   _waves := <[ id := w ]> (_waves b); warnings := warnings b |}
           else {| toneBank := toneBank b; waveBank := waveBank b;
                   _waves := _waves b; warnings := id :: warnings b |})
        b waves.

(** [loadBanks({toneBank=null, waveBank=null}={})]; an argument is [None]
    when it is left out or falsy. *)
Definition loadBanks (b : banks) (tb : option BankJson) (wb : option WaveBankJson)
    : result banks :=
  match match tb with Some x => _validateToneBank x | None => Ok tt end with
  | Throw msg => Throw msg
  | Ok _ =>
      match match wb with Some x => _validateWaveBank x | None => Ok tt end with
      | Throw msg => Throw msg
      | Ok _ =>
          let b := {| toneBank := nullish tb (toneBank b);
                      waveBank := nullish wb (waveBank b);
                      _waves := _waves b; warnings := warnings b |} in
          match waveBank b with
          | Some wbank =>
              let waves := match wbank with
                           | WaveBankObject (Some ws) => ws
                           | _ => []
                           end in
              Ok (buildWaves waves {| toneBank := toneBank b; waveBank := waveBank b;
                                      _waves := ∅; warnings := warnings b |})
          | None => Ok b
          end
      end
  end.

End LoadBanks.

(** A tone that passes the validator. *)
Definition toneOk (id : string) (t : ToneJson) : Prop :=
  id <> "" /\
  exists osc, t = ToneObject (Some osc) /\
    okType (osc_type osc) = true /\
    (osc_type osc = Some "wave" -> noWaveId osc = false).

End Banks.

(** *** Buses: [createBus], [setBusGain] *)
Module Buses.
Import JS.
Local Open Scope R_scope.

(** A bus [{gain, pan}]: the value of its gain node and, when the context
    has [createStereoPanner], the value of its panner. *)
Record BusNode : Type := {
  bus_gain : R;
  bus_pan : option R
}.

(** [createBus(busKey, {gain=1.0, pan=0}={})] on [this.buses];
    [hasPanner] is [typeof this.ctx.createStereoPanner === 'function']. *)
Definition createBus (hasPanner : bool) (busKey : string) (gain : option R) (pan : option num)
    (buses : gmap string BusNode) : string * gmap string BusNode :=
  let gain := default 1 gain in
  let pan := default (Fin 0) pan in
  let p := if hasPanner then Some (clamp (Some pan) (-1) 1) else None in
  (busKey, <[ busKey := {| bus_gain := gain; bus_pan := p |} ]> buses).

(** [setBusGain(busKey, value)] *)
Definition setBusGain (busKey : string) (value : R) (buses : gmap string BusNode)
    : result (gmap string BusNode) :=
  match buses !! busKey with
  | None => Throw ("Unknown bus: " +:+ busKey)
  | Some b => Ok (<[ busKey := {| bus_gain := value; bus_pan := bus_pan b |} ]> buses)
  end.

(** The map the constructor leaves: [this.createBus('master', { gain: 1.0 })]. *)
Definition initialBuses (hasPanner : bool) : gmap string BusNode :=
  snd (createBus hasPanner "master" (Some 1) None ∅).

End Buses.

(** *** Per-note filter and pitch automation of [playNote] *)
Module NoteFx.
Import JS Hardline.
Local Open Scope R_scope.

(** A call on an AudioParam, in the order the source makes them. *)
Inductive ParamCall : Type :=
| SetAt (v t : R)           (* setValueAtTime(v, t) *)
| LinearRampTo (v t : R)    (* linearRampToValueAtTime(v, t) *)
| ExpRampTo (v t : R).      (* exponentialRampToValueAtTime(v, t) *)

Definition callValue (c : ParamCall) : R :=
  match c with SetAt v _ | LinearRampTo v _ | ExpRampTo v _ => v end.

Definition callTime (c : ParamCall) : R :=
  match c with SetAt _ t | LinearRampTo _ t | ExpRampTo _ t => t end.

(** [tone.filter]: [{type, freq, q, gain}] *)
Record ToneFilter : Type := {
  tf_type : option string;
  tf_freq : option num;
  tf_q : option num;
  tf_gain : option num
}.

(** [fx.flt]: [{type, q, gain, from, to, time, curve}] *)
Record NoteFilter : Type := {
  nf_type : option string;
  nf_q : option num;
  nf_gain : option num;
  nf_from : option num;
  nf_to : option num;
  nf_time : option num;
  nf_curve : option string
}.

(** The biquad filter as the calls leave it; each list has the calls in the
    order they were made. *)
Record FilterNode : Type := {
  f_type : string;
  f_frequency : list ParamCall;
  f_Q : list ParamCall;
  f_gain : list ParamCall
}.

(** [x > 0] as a test. *)
Definition isPositive (x : R) : bool := if Rgt_dec x 0 then true else false.

(** [(x != null) ? numOr(x, null) : null] *)
Definition finiteOrNull (x : option num) : option R :=
  match x with
  | Some (Fin r) => Some r
  | _ => None
  end.

(** The body of the block "Optional filter inserted before gain". *)
Definition configureFilter (toneFilt : option ToneFilter) (noteFilt : option NoteFilter)
    (t0 : R) : FilterNode :=
  (* Base (tone) defaults *)
  let baseType := orFalsy (toneFilt ≫= tf_type) "lowpass" in
  let baseFreq := match toneFilt ≫= tf_freq with Some x => x | None => Fin 1200 end in
  let baseQ := toneFilt ≫= tf_q in
  let baseG := toneFilt ≫= tf_gain in
  (* Apply base first *)
  let type := baseType in
  let frequency : list ParamCall := [SetAt (Rmax 10 (numOr (Some baseFreq) 1200)) t0] in
  let Q : list ParamCall :=
    match baseQ with
    | Some q => [SetAt (Rmax 0.0001 (numOr (Some q) 1)) t0]
    | None => []
    end in
  let gain : list ParamCall :=
    match baseG with
    | Some g => [SetAt (numOr (Some g) 0) t0]
    | None => []
    end in
  (* Apply per-note overrides/sweep *)
  match noteFilt with
  | None => {| f_type := type; f_frequency := frequency; f_Q := Q; f_gain := gain |}
  | Some nf =>
      let type := orFalsy (nf_type nf) type in
      let Q := match nf_q nf with
               | Some q => Q ++ [SetAt (Rmax 0.0001 (numOr (Some q) 1)) t0]
               | None => Q
               end in
      let gain := match nf_gain nf with
                  | Some g => gain ++ [SetAt (numOr (Some g) 0) t0]
                  | None => gain
                  end in
      let fFrom := finiteOrNull (nf_from nf) in
      let fTo := finiteOrNull (nf_to nf) in
      let fTime := Rmax 0 (numOr (nf_time nf) 0) in
      let frequency := match fFrom with
                       | Some x => frequency ++ [SetAt (Rmax 10 x) t0]
                       | None => frequency
                       end in
      let frequency :=
        match fTo with
        | Some x =>
            if Rgt_dec fTime 0 then
              let t1 := t0 + fTime in
              let curve := orFalsy (nf_curve nf) "lin" in
              if bool_decide (curve = "exp")
                 && isPositive x
                 && match fFrom with Some y => isPositive y | None => true end
              then frequency ++ [ExpRampTo (Rmax 10 x) t1]
              else frequency ++ [LinearRampTo (Rmax 10 x) t1]
            else frequency ++ [SetAt (Rmax 10 x) t0]
        | None => frequency
        end in
      {| f_type := type; f_frequency := frequency; f_Q := Q; f_gain := gain |}
  end.

(** [if (toneFilt || noteFilt) { ... }]: [None] when neither the tone nor
    the note asks for a filter. *)
Definition buildFilter (toneFilt : option ToneFilter) (noteFilt : option NoteFilter) (t0 : R)
    : option FilterNode :=
  match toneFilt, noteFilt with
  | None, None => None
  | _, _ => Some (configureFilter toneFilt noteFilt t0)
  end.

(** [fx.pitch]: [{mode, time, curve, from, to}] *)
Record NotePitch : Type := {
  np_mode : option string;
  np_time : option num;
  np_curve : option string;
  np_from : option num;
  np_to : option num
}.

(** The calls on [o.frequency] and [o.detune] for an oscillator voice:
    the initial [setValueAtTime]s, then the "Pitch sweep" block of
    [fx.pitch].  [detuneCents] is [osc.detuneCents]. *)
Definition pitchCalls (hz : R) (detuneCents : option R) (notePitch : option NotePitch) (t0 : R)
    : list ParamCall * list ParamCall :=
  let detune : list ParamCall :=
    match detuneCents with
    | Some c => if Req_dec_T c 0 then [] else [SetAt c t0]
    | None => []
    end in
  let frequency : list ParamCall := [SetAt (Rmax 1 hz) t0] in
  match notePitch with
  | None => (frequency, detune)
  | Some np =>
      let mode := orFalsy (np_mode np) "cents" in
      let pTime := Rmax 0 (numOr (np_time np) 0) in
      let curve := orFalsy (np_curve np) "lin" in
      let from := finiteOrNull (np_from np) in
      let to := finiteOrNull (np_to np) in
      if bool_decide (mode = "hz") then
        let frequency := match from with
                         | Some x => frequency ++ [SetAt (Rmax 1 x) t0]
                         | None => frequency
                         end in
        let frequency :=
          match to with
          | Some x =>
              if Rgt_dec pTime 0 then
                if bool_decide (curve = "exp")
                   && isPositive x
                   && match from with Some y => isPositive y | None => true end
                then frequency ++ [ExpRampTo (Rmax 1 x) (t0 + pTime)]
                else frequency ++ [LinearRampTo (Rmax 1 x) (t0 + pTime)]
              else frequency ++ [SetAt (Rmax 1 x) t0]
          | None => frequency
          end in
        (frequency, detune)
      else
        let detune := match from with
                      | Some x => detune ++ [SetAt x t0]
                      | None => detune
                      end in
        let detune :=
          match to with
          | Some x =>
              if Rgt_dec pTime 0 then detune ++ [LinearRampTo x (t0 + pTime)]
              else detune ++ [SetAt x t0]
          | None => detune
          end in
        (frequency, detune)
  end.

End NoteFx.

(** ** The one-voice core, continued *)

(** *** The sample-rate crusher: [SRCrushProcessor] and the ScriptProcessor
    fallback of [_createSRCrushNode] *)
Module Crush.
Section Processor.
Context {A : Type}.

(** [this.lastValue], [this.counter] (the closure variables [last],
    [counter] of the fallback). *)
Record state : Type := {
  lastValue : A;
  counter : Z
}.

(** The state both constructors leave: [lastValue = 0; counter = 0]. *)
Definition initial (zero : A) : state := {| lastValue := zero; counter := 0 |}.

(** The inner [for] loop over one channel buffer, the same in [process] and
    in the [onaudioprocess] handler. *)
Fixpoint holdChannel (step : Z) (s : state) (inCh : list A) : list A * state :=
  match inCh with
  | [] => ([], s)
  | x :: rest =>
      let s := if (counter s =? 0)%Z then {| lastValue := x; counter := step |} else s in
      let out := lastValue s in
      let s := {| lastValue := lastValue s; counter := (counter s - 1)%Z |} in
      let '(outCh, s') := holdChannel step s rest in
      (out :: outCh, s')
  end.

(** The buffers handled one after the other with the state carried along:
    the channels of [inputs[0]] in one [process] call, or the input buffers
    of successive [onaudioprocess] events. *)
Fixpoint process (step : Z) (s : state) (input : list (list A)) : list (list A) * state :=
  match input with
  | [] => ([], s)
  | inCh :: rest =>
      let '(outCh, s) := holdChannel step s inCh in
      let '(outs, s) := process step s rest in
      (outCh :: outs, s)
  end.

End Processor.
Arguments state A : clear implicits.
End Crush.

(** *** Vocabulary for the registry of the core *)
Module Registry.
Import JS Core.
Local Open Scope Q_scope.

(** No voice is registered under two tracks. *)
Definition voicesDistinct (st : core) : Prop :=
  forall k1 k2 e1 e2,
    activeTracks st !! k1 = Some e1 -> activeTracks st !! k2 = Some e2 ->
    entryId e1 = entryId e2 -> k1 = k2.

(** Every recorded release time is at least 10 ms. *)
Definition releasesOk (st : core) : Prop :=
  forall k e r, activeTracks st !! k = Some e -> releaseSec e = Some r -> 0.01 <= r.

(** What a run from a fresh core keeps. *)
Definition registryOk (st : core) : Prop :=
  idsAllocated st /\ voicesDistinct st /\ releasesOk st.

(** The [sourceNode.stop] calls among the backend calls. *)
Definition isStop (c : BackendCall) : bool :=
  match c with StopSource _ _ => true | FadeToZero _ _ => false end.

Definition stopCalls (st : core) : list BackendCall :=
  List.filter isStop (backend st).

End Registry.

(** * Tactics and small facts shared by the proofs *)

(** Decide the comparisons of reals that a goal branches on. *)
Ltac rdec :=
  repeat match goal with
  | |- context [Rle_dec ?a ?b] => destruct (Rle_dec a b); try lra
  | |- context [Rlt_dec ?a ?b] => destruct (Rlt_dec a b); try lra
  | |- context [Rgt_dec ?a ?b] => destruct (Rgt_dec a b); try lra
  | |- context [Rge_dec ?a ?b] => destruct (Rge_dec a b); try lra
  | |- context [Req_dec_T ?a ?b] => destruct (Req_dec_T a b); try lra
  end.

Lemma Rmax_right (a b : R) : (a <= b)%R -> Rmax a b = b.
Proof. intros. unfold Rmax. rdec. Qed.

Lemma Rmax_left (a b : R) : (b <= a)%R -> Rmax a b = a.
Proof. intros. unfold Rmax. rdec. Qed.

Lemma Rmin_left (a b : R) : (a <= b)%R -> Rmin a b = a.
Proof. intros. unfold Rmin. rdec. Qed.

Lemma Rmin_right (a b : R) : (b <= a)%R -> Rmin a b = b.
Proof. intros. unfold Rmin. rdec. Qed.

(** Resolve [Rmax]/[Rmin] whose order linear arithmetic can see, innermost
    first. *)
Ltac rminmax :=
  repeat match goal with
  | |- context [Rmax ?a ?b] =>
      first [ rewrite (Rmax_right a b) by lra | rewrite (Rmax_left a b) by lra ]
  | |- context [Rmin ?a ?b] =>
      first [ rewrite (Rmin_left a b) by lra | rewrite (Rmin_right a b) by lra ]
  end.

Lemma Rpower_gt_1 (x y : R) : (1 < x)%R -> (0 < y)%R -> (1 < Rpower x y)%R.
Proof.
  intros Hx Hy. rewrite <- (Rpower_O x) by lra. apply Rpower_lt; assumption.
Qed.

Lemma lookup_map_seq {B : Type} (f : nat -> B) (n a k : nat) :
  (k < n)%nat -> map f (seq a n) !! k = Some (f (a + k)%nat).
Proof.
  revert a k. induction n as [|n IH]; intros a k Hk; [lia|].
  cbn [seq map]. destruct k as [|k].
  - cbn. rewrite Nat.add_0_r. reflexivity.
  - change ((f a :: map f (seq (S a) n)) !! S k) with (map f (seq (S a) n) !! k).
    rewrite (IH (S a) k) by lia. f_equal. f_equal. lia.
Qed.

Lemma length_map_seq {B : Type} (f : nat -> B) (n a : nat) :
  length (map f (seq a n)) = n.
Proof. rewrite length_map. apply length_seq. Qed.

(** Multiples of [step] among [i-1+1 .. i]: one exactly when [step] divides [i]. *)
Lemma div_step_indicator (step i : Z) :
  (0 < step)%Z ->
  (i / step - (i - 1) / step = if (i mod step =? 0)%Z then 1 else 0)%Z.
Proof.
  intros Hs.
  pose proof (Z.div_mod i step ltac:(lia)) as Hdm.
  pose proof (Z.mod_pos_bound i step Hs) as Hb.
  destruct (i mod step =? 0)%Z eqn:E.
  - apply Z.eqb_eq in E.
    assert (H1 : ((i - 1) / step = i / step - 1)%Z).
    { symmetry. apply (Z.div_unique (i - 1) step (i / step - 1) (step - 1)); lia. }
    lia.
  - apply Z.eqb_neq in E.
    assert (H1 : ((i - 1) / step = i / step)%Z).
    { symmetry. apply (Z.div_unique (i - 1) step (i / step) (i mod step - 1)); lia. }
    lia.
Qed.

(** ** Binary64 rounding: the facts used below *)
Section Binary64Facts.
Import Binary64.
Local Open Scope R_scope.

Lemma pow2_pos (z : Z) : 0 < pow2 z.
Proof. apply powerRZ_lt. lra. Qed.

Lemma pow2_add (a b : Z) : pow2 (a + b) = pow2 a * pow2 b.
Proof. apply powerRZ_add. lra. Qed.

Lemma pow2_IZR (z : Z) : (0 <= z)%Z -> pow2 z = IZR (2 ^ z).
Proof.
  intros Hz. unfold pow2. destruct z as [|p|p]; [reflexivity| |lia].
  cbn [powerRZ]. rewrite pow_IZR, positive_nat_Z. reflexivity.
Qed.

Lemma pow2_opp (z : Z) : pow2 (- z) = / pow2 z.
Proof. apply powerRZ_neg'. Qed.

Lemma pow2_cancel (z : Z) : pow2 z * pow2 (- z) = 1.
Proof. rewrite <- pow2_add, Z.add_opp_diag_r. reflexivity. Qed.

Lemma pow2_ge_1 (z : Z) : (0 <= z)%Z -> 1 <= pow2 z.
Proof.
  intros Hz. rewrite pow2_IZR by exact Hz. apply IZR_le.
  pose proof (Z.pow_pos_nonneg 2 z). lia.
Qed.

Lemma pow2_le (a b : Z) : (a <= b)%Z -> pow2 a <= pow2 b.
Proof.
  intros Hab. replace b with (a + (b - a))%Z by lia. rewrite pow2_add.
  pose proof (pow2_pos a). pose proof (pow2_ge_1 (b - a) ltac:(lia)). nra.
Qed.

Lemma pow2_lt (a b : Z) : (a < b)%Z -> pow2 a < pow2 b.
Proof.
  intros Hab. replace b with (a + 1 + (b - a - 1))%Z by lia.
  rewrite !pow2_add. change (pow2 1) with (2 * 1).
  pose proof (pow2_pos a). pose proof (pow2_ge_1 (b - a - 1) ltac:(lia)). nra.
Qed.

Lemma pow2_lt_inv (a b : Z) : pow2 a < pow2 b -> (a < b)%Z.
Proof.
  intros H. destruct (Z_lt_le_dec a b) as [Hlt|Hge]; [exact Hlt|].
  pose proof (pow2_le b a Hge). lra.
Qed.

Lemma pow2_exp (z : Z) : pow2 z = exp (IZR z * ln 2).
Proof. unfold pow2. rewrite powerRZ_Rpower by lra. reflexivity. Qed.

Lemma ln2_pos : 0 < ln 2.
Proof. pose proof ln_lt_2. lra. Qed.

(** The binade found by [exponent]. *)
Lemma exponent_spec (x : R) :
  x <> 0 -> pow2 (exponent x) <= Rabs x < pow2 (exponent x + 1).
Proof.
  intros Hx. pose proof (Rabs_pos_lt x Hx) as Hpos. pose proof ln2_pos as H2.
  unfold exponent. set (y := ln (Rabs x) / ln 2).
  destruct (base_Int_part y) as [Hlo Hhi].
  assert (Hy : y * ln 2 = ln (Rabs x)) by (unfold y; field; lra).
  rewrite !pow2_exp, plus_IZR. rewrite <- (exp_ln (Rabs x) Hpos) at 1 2.
  split.
  - destruct (Req_dec (IZR (Int_part y) * ln 2) (ln (Rabs x))) as [->|Hne]; [lra|].
    left. apply exp_increasing. nra.
  - apply exp_increasing. nra.
Qed.

Lemma exponent_unique (x : R) (e : Z) :
  pow2 e <= Rabs x < pow2 (e + 1) -> exponent x = e.
Proof.
  intros [Hlo Hhi]. pose proof (pow2_pos e) as Hp. pose proof ln2_pos as H2.
  assert (Hpos : 0 < Rabs x) by lra.
  unfold exponent. symmetry. apply Int_part_spec.
  set (y := ln (Rabs x) / ln 2).
  assert (Hy : y * ln 2 = ln (Rabs x)) by (unfold y; field; lra).
  rewrite !pow2_exp, plus_IZR in *. rewrite <- (exp_ln (Rabs x) Hpos) in Hlo, Hhi.
  split.
  - apply exp_lt_inv in Hhi. nra.
  - destruct (Rle_dec (IZR e) y) as [Hle|Hgt]; [exact Hle|].
    exfalso. assert (ln (Rabs x) < IZR e * ln 2) by nra.
    apply exp_increasing in H. lra.
Qed.

Lemma Int_part_of_IZR (n : Z) : Int_part (IZR n) = n.
Proof. symmetry. apply Int_part_spec. lra. Qed.


Lemma nearestEven_IZR (n : Z) : nearestEven (IZR n) = n.
Proof.
  unfold nearestEven. rewrite Int_part_of_IZR.
  destruct (Rlt_dec (IZR n - IZR n) (1 / 2)); [reflexivity|lra].
Qed.

(** Evaluation away from a tie. *)
Lemma nearestEven_near (y : R) (n : Z) :
  IZR n - 1 / 2 < y < IZR n + 1 / 2 -> nearestEven y = n.
Proof.
  intros Hy. unfold nearestEven.
  destruct (Rle_dec (IZR n) y) as [Hge|Hlt].
  - rewrite <- (Int_part_spec y n) by lra.
    destruct (Rlt_dec (y - IZR n) (1 / 2)); [reflexivity|lra].
  - rewrite <- (Int_part_spec y (n - 1)) by (rewrite minus_IZR; lra).
    rewrite minus_IZR.
    destruct (Rlt_dec (y - (IZR n - 1)) (1 / 2)); [lra|].
    destruct (Rlt_dec (1 / 2) (y - (IZR n - 1))); [lia|lra].
Qed.


Lemma round_0 : round 0 = 0.
Proof. unfold round. rewrite Rmult_0_l, nearestEven_IZR. lra. Qed.

(** [round] in the binade [e >= -1022], away from a tie. *)
Lemma round_near (x : R) (e n : Z) :
  (-1022 <= e)%Z ->
  pow2 e <= Rabs x < pow2 (e + 1) ->
  IZR n - 1 / 2 < x * pow2 (52 - e) < IZR n + 1 / 2 ->
  round x = IZR n * pow2 (e - 52).
Proof.
  intros He Hx Hn. unfold round. rewrite (exponent_unique x e Hx).
  rewrite Z.max_l by lia. rewrite (nearestEven_near _ n Hn). reflexivity.
Qed.


(** A double is its own rounding. *)
Lemma round_representable (m k : Z) :
  (Z.abs m < 2 ^ 53)%Z -> (-1074 <= k)%Z ->
  round (IZR m * pow2 k) = IZR m * pow2 k.
Proof.
  intros Hm Hk. destruct (Z.eq_dec m 0%Z) as [->|Hm0].
  { rewrite Rmult_0_l. apply round_0. }
  set (x := IZR m * pow2 k).
  assert (Hx0 : x <> 0).
  { unfold x. pose proof (pow2_pos k). apply Rmult_integral_contrapositive_currified; [|lra].
    intros H0. apply eq_IZR in H0. lia. }
  assert (Habs : Rabs x < pow2 (k + 53)).
  { unfold x. rewrite Rabs_mult, (Rabs_pos_eq (pow2 k)) by (left; apply pow2_pos).
    rewrite Z.add_comm, pow2_add, (pow2_IZR 53) by lia. rewrite <- abs_IZR.
    apply Rmult_lt_compat_r; [apply pow2_pos|]. apply IZR_lt. exact Hm. }
  assert (He : (exponent x < k + 53)%Z).
  { apply pow2_lt_inv. destruct (exponent_spec x Hx0) as [Hlo _]. lra. }
  unfold round. fold x. set (E := Z.max (exponent x) (-1022)).
  assert (HE : (0 <= k + 52 - E)%Z) by (unfold E; lia).
  assert (Hs : x * pow2 (52 - E) = IZR (m * 2 ^ (k + 52 - E))).
  { unfold x. rewrite mult_IZR, <- pow2_IZR by exact HE.
    rewrite Rmult_assoc, <- pow2_add. f_equal. f_equal. lia. }
  rewrite Hs, nearestEven_IZR, mult_IZR, <- pow2_IZR by exact HE.
  unfold x. rewrite Rmult_assoc, <- pow2_add. f_equal. f_equal. lia.
Qed.



(** Powers of two with a literal exponent, as numerals. *)
Lemma pow2_neg_IZR (z : Z) : (0 <= z)%Z -> pow2 (- z) = / IZR (2 ^ z).
Proof. intros Hz. rewrite pow2_opp, pow2_IZR by exact Hz. reflexivity. Qed.



Lemma Int_part_between (x : R) (z : Z) : IZR z <= x < IZR z + 1 -> Int_part x = z.
Proof. intros Hx. symmetry. apply Int_part_spec. lra. Qed.

End Binary64Facts.

Ltac pow2_numerals :=
  repeat match goal with
  | |- context [Binary64.pow2 (Z.pos ?p)] =>
      let v := eval vm_compute in (2 ^ Z.pos p)%Z in
      rewrite (pow2_IZR (Z.pos p)) by lia; change (2 ^ Z.pos p)%Z with v
  | |- context [Binary64.pow2 (Z.neg ?p)] =>
      let v := eval vm_compute in (2 ^ Z.pos p)%Z in
      change (Z.neg p) with (- Z.pos p)%Z;
      rewrite (pow2_neg_IZR (Z.pos p)) by lia; change (2 ^ Z.pos p)%Z with v
  end.

(** * Properties of the hardline engine *)
Section HardlineFacts.
Import JS AudioParam Hardline.
Local Open Scope R_scope.

(** ** What [startVoice] writes *)

Lemma monoSteal_voiceSerial tone id t st :
  voiceSerial (monoSteal tone id t st) = voiceSerial st.
Proof.
  unfold monoSteal. destruct (default poly (tone_mono tone)); try reflexivity;
    destruct (activeMono st !! id); reflexivity.
Qed.

Lemma monoSteal_hasCancel tone id t st :
  hasCancel (monoSteal tone id t st) = hasCancel st.
Proof.
  unfold monoSteal. destruct (default poly (tone_mono tone)); try reflexivity;
    destruct (activeMono st !! id); reflexivity.
Qed.

Lemma monoSteal_voices tone id t st :
  voices (monoSteal tone id t st) = voices st.
Proof.
  unfold monoSteal. destruct (default poly (tone_mono tone)); try reflexivity;
    destruct (activeMono st !! id); reflexivity.
Qed.

Lemma monoSteal_queue tone id t st :
  queue (monoSteal tone id t st) = queue st.
Proof.
  unfold monoSteal. destruct (default poly (tone_mono tone)); try reflexivity;
    destruct (activeMono st !! id); reflexivity.
Qed.

Lemma startVoice_info st p tone bk :
  fst (startVoice st p tone bk) =
  let tm := noteTiming (currentTime st) tone p in
  {| voiceId := voiceSerial st; t0 := tm_t0 tm; tOff := tm_tOff tm; tR := tm_tR tm;
     toneId := p_toneId p; busKey := bk |}.
Proof. unfold startVoice. cbn. rewrite monoSteal_voiceSerial. reflexivity. Qed.

Lemma startVoice_gain st p tone bk :
  let tm := noteTiming (currentTime st) tone p in
  gainTimeline (snd (startVoice st p tone bk)) !! voiceSerial st =
  Some (scheduleADSR (hasCancel st) (tm_peak tm) (tm_susLevel tm) (tm_t0 tm)
          (tm_tA tm) (tm_tD tm) (tm_tOff tm) (tm_tR tm)).
Proof.
  intros tm. unfold startVoice. fold tm.
  destruct (default poly (tone_mono tone));
  cbn [snd gainTimeline set_gainTimeline set_activeMono set_queue set_voices
       stopSource set_voiceSerial hasCancel];
  rewrite ?monoSteal_voiceSerial, ?monoSteal_hasCancel; apply lookup_insert_eq.
Qed.

(** [tones[toneId]] on an entry of the bank, and on a name that is neither
    in the bank nor inherited. *)
Lemma tonesGet_own tones id tone :
  tones !! id = Some tone -> tonesGet tones id = Some (OwnTone tone).
Proof. intros H. unfold tonesGet. rewrite H. reflexivity. Qed.

Lemma tonesGet_own_inv tones id tone :
  tonesGet tones id = Some (OwnTone tone) -> tones !! id = Some tone.
Proof.
  unfold tonesGet. destruct (tones !! id) as [t|]; [congruence|].
  destruct (bool_decide _); discriminate.
Qed.

Lemma tonesGet_inherited tones id :
  tones !! id = None -> id ∈ objectPrototypeKeys -> tonesGet tones id = Some Inherited.
Proof.
  intros H Hin. unfold tonesGet. rewrite H, bool_decide_eq_true_2 by exact Hin. reflexivity.
Qed.

Lemma tonesGet_none tones id :
  tonesGet tones id = None <-> tones !! id = None /\ id ∉ objectPrototypeKeys.
Proof.
  unfold tonesGet. destruct (tones !! id) as [t|].
  - split; [discriminate|intros [H _]; discriminate].
  - destruct (bool_decide_reflect (id ∈ objectPrototypeKeys)) as [Hin|Hout].
    + split; [discriminate|intros [_ H]; contradiction].
    + split; auto.
Qed.

(** Inversion of a successful [playNote]. *)
Lemma playNote_inv st p info st' :
  playNote st p = Ok (info, st') ->
  exists tones tone bus,
    toneBank st = Some tones /\ tones !! p_toneId p = Some tone /\
    buses st !! orFalsy (p_busKey p) "master" = Some bus /\
    (info, st') = startVoice st p tone (orFalsy (p_busKey p) "master").
Proof.
  unfold playNote. cbv zeta.
  destruct (toneBank st) as [tones|]; [|discriminate].
  destruct (tonesGet tones (p_toneId p)) as [[tone|]|] eqn:Ht; [| |discriminate].
  - destruct (buses st !! orFalsy (p_busKey p) "master") as [bus|] eqn:Hb; [|discriminate].
    intros H.
    apply (f_equal (fun r => match r with Ok x => x | Throw _ => (info, st') end)) in H.
    apply tonesGet_own_inv in Ht.
    exists tones, tone, bus. rewrite H. auto.
  - destruct (buses st !! orFalsy (p_busKey p) "master"); discriminate.
Qed.

(** A closure that throws leaves the queue, the voice table, the mono
    slots, the banks and the flags as they were, and never lowers the
    voice serial. *)
Lemma afterThrow_cases st p : afterThrow st p = st \/ afterThrow st p = abandonedVoice st p.
Proof.
  unfold afterThrow. destruct (toneBank st) as [tones|]; [|left; reflexivity].
  destruct (tonesGet tones (p_toneId p)) as [[tone|]|]; try (left; reflexivity).
  destruct (buses st !! _); [right|left]; reflexivity.
Qed.

Lemma abandoned_cases st fn :
  abandoned st fn = st \/
  exists h p, fn = PlayNoteAction h p /\ abandoned st fn = abandonedVoice st p.
Proof.
  destruct fn as [h p|vid]; [|left; reflexivity]. cbn [abandoned].
  destruct (afterThrow_cases st p) as [H|H]; [left; exact H|right; eauto].
Qed.

Lemma abandoned_queue st fn : queue (abandoned st fn) = queue st.
Proof. destruct (abandoned_cases st fn) as [->|(h & p & _ & ->)]; reflexivity. Qed.

Lemma abandoned_voices st fn : voices (abandoned st fn) = voices st.
Proof. destruct (abandoned_cases st fn) as [->|(h & p & _ & ->)]; reflexivity. Qed.

Lemma abandoned_activeMono st fn : activeMono (abandoned st fn) = activeMono st.
Proof. destruct (abandoned_cases st fn) as [->|(h & p & _ & ->)]; reflexivity. Qed.

Lemma abandoned_running st fn : running (abandoned st fn) = running st.
Proof. destruct (abandoned_cases st fn) as [->|(h & p & _ & ->)]; reflexivity. Qed.

Lemma abandoned_sourceStops st fn : sourceStops (abandoned st fn) = sourceStops st.
Proof. destruct (abandoned_cases st fn) as [->|(h & p & _ & ->)]; reflexivity. Qed.

Lemma abandoned_voiceSerial st fn : (voiceSerial st <= voiceSerial (abandoned st fn))%nat.
Proof.
  destruct (abandoned_cases st fn) as [->|(h & p & _ & ->)]; [lia|].
  cbn [abandonedVoice voiceSerial set_gainTimeline set_voiceSerial]. lia.
Qed.

Lemma playNote_lead p :
  p_toneId p = "lead" -> p_busKey p = None ->
  playNote demoEngine p = Ok (startVoice demoEngine p leadTone "master").
Proof.
  intros Hid Hbus. unfold playNote. cbv zeta. rewrite Hid, Hbus.
  cbn [toneBank demoEngine]. rewrite (tonesGet_own _ _ leadTone) by apply lookup_insert_eq.
  cbn [orFalsy buses demoEngine]. rewrite lookup_insert_eq. reflexivity.
Qed.

Lemma playNote_bass p :
  p_toneId p = "bass" -> p_busKey p = None ->
  playNote demoEngine p = Ok (startVoice demoEngine p bassTone "master").
Proof.
  intros Hid Hbus. unfold playNote. cbv zeta. rewrite Hid, Hbus.
  cbn [toneBank demoEngine].
  rewrite (tonesGet_own _ _ bassTone)
    by (rewrite lookup_insert_ne by discriminate; apply lookup_insert_eq).
  cbn [orFalsy buses demoEngine]. rewrite lookup_insert_eq. reflexivity.
Qed.

Lemma demo_bank_nope :
  (<[ "lead" := leadTone ]> (<[ "bass" := bassTone ]> (∅ : gmap string ToneDef))) !! "nope" = None.
Proof.
  rewrite lookup_insert_ne by discriminate. rewrite lookup_insert_ne by discriminate.
  apply lookup_empty.
Qed.

(** ** C10: the note-off time *)

Lemma noteDSec_cases p :
  noteDSec p = match Number (p_dSec p) with Fin d => Rmax 0.001 d | _ => 0.25 end.
Proof.
  unfold noteDSec, numOr. destruct (Number (p_dSec p)); try reflexivity;
  apply Rmax_right; lra.
Qed.

Lemma noteDSec_lower p : 0.001 <= noteDSec p.
Proof. unfold noteDSec. apply Rmax_l. Qed.

(** C10.  Whenever [playNote] returns, the off-time it reports is the onset
    plus the effective duration: [max(0.001, dSec)] for a finite [dSec] and
    0.25 when [dSec] is missing, NaN or infinite; so the note-off is at
    least one millisecond after the onset. *)
Theorem playNote_off_time st p info st' :
  playNote st p = Ok (info, st') ->
  tOff info = t0 info + match Number (p_dSec p) with Fin d => Rmax 0.001 d | _ => 0.25 end
  /\ t0 info + 0.001 <= tOff info.
Proof.
  intros H. apply playNote_inv in H as (tones & tone & bus & _ & _ & _ & H).
  apply (f_equal fst) in H. rewrite startVoice_info in H. cbn [fst] in H. subst info.
  cbn [tOff t0 noteTiming tm_tOff tm_t0]. rewrite <- noteDSec_cases.
  split; [reflexivity|]. pose proof (noteDSec_lower p). lra.
Qed.

(** The theorem at [dSec = NaN]: the note is given a quarter of a second. *)
Lemma playNote_off_time_witness :
  exists info st',
    playNote demoEngine nanLength = Ok (info, st') /\
    tOff info = t0 info + 0.25 /\ t0 info + 0.001 <= tOff info.
Proof.
  destruct (startVoice demoEngine nanLength leadTone "master") as [info st'] eqn:E.
  assert (H : playNote demoEngine nanLength = Ok (info, st'))
    by (rewrite playNote_lead, E; reflexivity).
  exists info, st'. split; [exact H|].
  exact (playNote_off_time demoEngine nanLength info st' H).
Defined.

(** ** C1: the gain envelope around the note-off *)

Lemma expAt_interp v0 v1 ta tb t :
  ta < tb -> ta <= t <= tb -> g0 <= v0 -> g0 <= v1 ->
  expAt v0 v1 ta tb t = v0 * Rpower (v1 / v0) ((t - ta) / (tb - ta)).
Proof.
  intros Hab Ht H0 H1. unfold expAt. destruct (Rgt_dec tb ta); [|lra].
  cbv zeta. rewrite (Rmax_right g0 v0), (Rmax_right g0 v1) by assumption.
  assert (Hp : 0 <= (t - ta) / (tb - ta) <= 1).
  { split.
    - apply Rmult_le_pos; [lra|]. apply Rlt_le, Rinv_0_lt_compat. lra.
    - apply (Rmult_le_reg_r (tb - ta)); [lra|].
      unfold Rdiv. rewrite Rmult_assoc, Rinv_l by lra. lra. }
  rewrite (Rmin_right 1 _) by lra. rewrite Rmax_right by lra. reflexivity.
Qed.

(** On a rising ramp the interpolated level is above the start level as
    soon as some time has passed. *)
Lemma expAt_above_start v0 v1 ta tb t :
  ta < t <= tb -> g0 <= v0 -> v0 < v1 -> v0 < expAt v0 v1 ta tb t.
Proof.
  intros Ht H0 H1. assert (Hg : 0 < g0) by (unfold g0; lra).
  rewrite expAt_interp by lra.
  assert (Hr : 1 < v1 / v0).
  { apply (Rmult_lt_reg_r v0); [lra|]. unfold Rdiv.
    rewrite Rmult_assoc, Rinv_l by lra. lra. }
  assert (Hp : 0 < (t - ta) / (tb - ta)).
  { apply Rdiv_lt_0_compat; lra. }
  pose proof (Rpower_gt_1 _ _ Hr Hp). nra.
Qed.

(** On a falling ramp the interpolated level is below the start level as
    soon as some time has passed. *)
Lemma expAt_below_start v0 v1 ta tb t :
  ta < t <= tb -> g0 <= v1 -> v1 < v0 -> expAt v0 v1 ta tb t < v0.
Proof.
  intros Ht H1 H0. assert (Hg : 0 < g0) by (unfold g0; lra).
  rewrite expAt_interp by lra.
  assert (Hpos : 0 < v1 / v0) by (apply Rdiv_lt_0_compat; lra).
  assert (Hr : 1 < v0 / v1).
  { apply (Rmult_lt_reg_r v1); [lra|]. unfold Rdiv.
    rewrite Rmult_assoc, Rinv_l by lra. lra. }
  assert (Hp : 0 < (t - ta) / (tb - ta)).
  { apply Rdiv_lt_0_compat; lra. }
  pose proof (Rpower_gt_1 _ _ Hr Hp) as Hgt.
  assert (Hinv : Rpower (v1 / v0) ((t - ta) / (tb - ta)) * Rpower (v0 / v1) ((t - ta) / (tb - ta)) = 1).
  { rewrite Rpower_mult_distr by (try assumption; lra).
    replace (v1 / v0 * (v0 / v1)) with 1 by (field; lra).
    unfold Rpower. rewrite ln_1, Rmult_0_r. apply exp_0. }
  assert (Hx : 0 < Rpower (v1 / v0) ((t - ta) / (tb - ta))) by (unfold Rpower; apply exp_pos).
  nra.
Qed.

(** Note-off during the attack, with [cancelScheduledValues] available:
    the cancel removes the attack and decay ramps, which both end at or
    after the note-off, so what is left is the initial step, the step to
    the interpolated level at the note-off, and the release ramp. *)
Lemma scheduleADSR_mid_attack peak susLevel t0 tA tD tOff tR :
  0.0002 <= peak -> t0 < tOff <= tA -> tA <= tD -> tOff < tR ->
  scheduleADSR true peak susLevel t0 tA tD tOff tR =
  [SetValue 0.0001 t0; SetValue (expAt g0 peak t0 tA tOff) tOff; ExpRamp g0 tR]
  /\ g0 < expAt g0 peak t0 tA tOff.
Proof.
  intros Hp Ht HD HR.
  assert (Hlvl : g0 < expAt g0 peak t0 tA tOff).
  { apply expAt_above_start; unfold g0; lra. }
  split; [|exact Hlvl].
  unfold scheduleADSR, setValueAtTime, exponentialRampToValueAtTime. cbv zeta.
  destruct (Rle_dec tOff tD); [|lra]. destruct (Rle_dec tOff tA); [|lra].
  rewrite (Rmax_right g0 _) by lra.
  assert (Hc : cancelScheduledValues tOff
                 (insertEvent (ExpRamp susLevel tD)
                    (insertEvent (ExpRamp peak tA) (insertEvent (SetValue 0.0001 t0) [])))
               = [SetValue 0.0001 t0]).
  { cbn [insertEvent time sameKind]. rdec; cbn [insertEvent time sameKind]; rdec;
      cbn [cancelScheduledValues time]; rdec; reflexivity. }
  rewrite Hc. cbn [insertEvent time sameKind]. rdec.
  cbn [insertEvent time sameKind]. rdec. reflexivity.
Qed.

(** Note-off during the decay: the attack ramp ends before the note-off
    and stays, the decay ramp is removed. *)
Lemma scheduleADSR_mid_decay peak susLevel t0 tA tD tOff tR :
  g0 <= susLevel -> susLevel < peak -> t0 < tA -> tA < tOff <= tD -> tOff < tR ->
  scheduleADSR true peak susLevel t0 tA tD tOff tR =
  [SetValue 0.0001 t0; ExpRamp peak tA;
   SetValue (expAt peak susLevel tA tD tOff) tOff; ExpRamp g0 tR]
  /\ expAt peak susLevel tA tD tOff < peak.
Proof.
  intros Hs Hp Ht HD HR.
  assert (Hlvl : expAt peak susLevel tA tD tOff < peak).
  { apply expAt_below_start; lra. }
  assert (Hlo : g0 <= expAt peak susLevel tA tD tOff).
  { rewrite expAt_interp by lra.
    assert (0 < g0) by (unfold g0; lra).
    destruct (Rle_lt_or_eq_dec tOff tD ltac:(lra)) as [Hlt|Heq].
    - assert (Hq : 0 < (tOff - tA) / (tD - tA) < 1).
      { split; [apply Rdiv_lt_0_compat; lra|].
        apply (Rmult_lt_reg_r (tD - tA)); [lra|].
        unfold Rdiv. rewrite Rmult_assoc, Rinv_l by lra. lra. }
      assert (Hr : susLevel / peak < 1).
      { apply (Rmult_lt_reg_r peak); [lra|]. unfold Rdiv.
        rewrite Rmult_assoc, Rinv_l by lra. lra. }
      assert (Hrp : 0 < susLevel / peak) by (apply Rdiv_lt_0_compat; lra).
      (* (s/p)^q >= (s/p)^1 for q < 1 and s/p < 1 *)
      assert (Hpow : susLevel / peak <= Rpower (susLevel / peak) ((tOff - tA) / (tD - tA))).
      { rewrite <- (Rpower_1 (susLevel / peak)) at 1 by exact Hrp.
        unfold Rpower. left. apply exp_increasing.
        assert (ln (susLevel / peak) < 0).
        { rewrite <- ln_1. apply ln_increasing; lra. }
        nra. }
      assert (peak * (susLevel / peak) = susLevel) by (field; lra).
      nra.
    - subst tOff. replace ((tD - tA) / (tD - tA)) with 1 by (field; lra).
      rewrite Rpower_1 by (apply Rdiv_lt_0_compat; lra).
      replace (peak * (susLevel / peak)) with susLevel by (field; lra). exact Hs. }
  split; [|exact Hlvl].
  unfold scheduleADSR, setValueAtTime, exponentialRampToValueAtTime. cbv zeta.
  destruct (Rle_dec tOff tD); [|lra]. destruct (Rle_dec tOff tA); [lra|].
  rewrite (Rmax_right g0 _) by exact Hlo.
  assert (Hc : cancelScheduledValues tOff
                 (insertEvent (ExpRamp susLevel tD)
                    (insertEvent (ExpRamp peak tA) (insertEvent (SetValue 0.0001 t0) [])))
               = [SetValue 0.0001 t0; ExpRamp peak tA]).
  { cbn [insertEvent time sameKind]. rdec; cbn [insertEvent time sameKind]; rdec;
      cbn [cancelScheduledValues time]; rdec; reflexivity. }
  rewrite Hc. cbn [insertEvent time sameKind]. rdec.
  cbn [insertEvent time sameKind]. rdec.
  cbn [insertEvent time sameKind]. rdec.
  cbn [insertEvent time sameKind]. rdec. reflexivity.
Qed.

(** In the first case the gain is on the floor until the note-off and steps
    up there; in the second it holds the peak from the end of the attack
    and steps down at the note-off. *)
Lemma mid_attack_gain_steps peak t0 tA tOff tR :
  t0 < tOff -> tOff < tR -> 0 < expAt g0 peak t0 tA tOff ->
  let G := [SetValue 0.0001 t0; SetValue (expAt g0 peak t0 tA tOff) tOff; ExpRamp g0 tR] in
  (forall t, t0 <= t < tOff -> valueAt G t = 0.0001) /\
  valueAt G tOff = expAt g0 peak t0 tA tOff.
Proof.
  intros Ht HR Hpos G. split.
  - intros t Htt. unfold G, valueAt. cbn [valueFrom time value]. rdec; reflexivity.
  - unfold G, valueAt. cbn [valueFrom time value]. rdec.
    unfold expInterp. assert (0 < g0) by (unfold g0; lra).
    destruct (Rlt_dec 0 (expAt g0 peak t0 tA tOff * g0)) as [_|Hn]; [|exfalso; apply Hn; nra].
    replace ((tOff - tOff) / (tR - tOff)) with 0 by (field; lra).
    rewrite Rpower_O by (apply Rdiv_lt_0_compat; lra). lra.
Qed.

Lemma mid_decay_gain_steps peak susLevel t0 tA tD tOff tR :
  t0 < tA -> tA < tOff -> tOff < tR -> 0 < expAt peak susLevel tA tD tOff ->
  let G := [SetValue 0.0001 t0; ExpRamp peak tA;
            SetValue (expAt peak susLevel tA tD tOff) tOff; ExpRamp g0 tR] in
  (forall t, tA <= t < tOff -> valueAt G t = peak) /\
  valueAt G tOff = expAt peak susLevel tA tD tOff.
Proof.
  intros Ht HA HR Hpos G. split.
  - intros t Htt. unfold G, valueAt. cbn [valueFrom time value]. rdec; reflexivity.
  - unfold G, valueAt. cbn [valueFrom time value]. rdec.
    unfold expInterp. assert (0 < g0) by (unfold g0; lra).
    destruct (Rlt_dec 0 (expAt peak susLevel tA tD tOff * g0)) as [_|Hn];
      [|exfalso; apply Hn; nra].
    replace ((tOff - tOff) / (tR - tOff)) with 0 by (field; lra).
    rewrite Rpower_O by (apply Rdiv_lt_0_compat; lra). lra.
Qed.

(** Note-off after the decay, with a positive attack and decay: the five
    calls stay as they are; the gain reaches the peak at the end of the
    attack, is at the sustain level from the end of the decay up to and
    including the note-off, so the step scheduled there changes nothing,
    and ends on the floor. *)
Lemma scheduleADSR_after_decay canCancel peak susLevel t0 tA tD tOff tR :
  0 < peak -> 0 < susLevel -> t0 < tA -> tA < tD -> tD < tOff -> tOff < tR ->
  let G := scheduleADSR canCancel peak susLevel t0 tA tD tOff tR in
  G = [SetValue 0.0001 t0; ExpRamp peak tA; ExpRamp susLevel tD;
       SetValue susLevel tOff; ExpRamp g0 tR] /\
  valueAt G t0 = g0 /\
  valueAt G tA = peak /\
  (forall t, tD <= t <= tOff -> valueAt G t = susLevel) /\
  (forall t, tR <= t -> valueAt G t = g0).
Proof.
  intros Hp Hs H0 HA HD HR G.
  assert (HG : G = [SetValue 0.0001 t0; ExpRamp peak tA; ExpRamp susLevel tD;
                    SetValue susLevel tOff; ExpRamp g0 tR]).
  { unfold G, scheduleADSR, setValueAtTime, exponentialRampToValueAtTime. cbv zeta.
    destruct (Rle_dec tOff tD); [lra|].
    repeat (cbn [insertEvent time sameKind]; rdec). reflexivity. }
  split; [exact HG|]. rewrite HG. unfold valueAt.
  assert (Hg : 0 < g0) by (unfold g0; lra).
  split.
  { cbn [valueFrom time value]. rdec. unfold expInterp.
    destruct (Rlt_dec 0 (0.0001 * peak)) as [_|Hn]; [|exfalso; apply Hn; nra].
    replace ((t0 - t0) / (tA - t0)) with 0 by (field; lra).
    rewrite Rpower_O by (apply Rdiv_lt_0_compat; lra). unfold g0. lra. }
  split.
  { cbn [valueFrom time value]. rdec. unfold expInterp.
    destruct (Rlt_dec 0 (peak * susLevel)) as [_|Hn]; [|exfalso; apply Hn; nra].
    replace ((tA - tA) / (tD - tA)) with 0 by (field; lra).
    rewrite Rpower_O by (apply Rdiv_lt_0_compat; lra). lra. }
  split.
  { intros t Ht. cbn [valueFrom time value]. rdec; try reflexivity.
    unfold expInterp.
    destruct (Rlt_dec 0 (susLevel * g0)) as [_|Hn]; [|exfalso; apply Hn; nra].
    assert (t = tOff) by lra. subst t.
    replace ((tOff - tOff) / (tR - tOff)) with 0 by (field; lra).
    rewrite Rpower_O by (apply Rdiv_lt_0_compat; lra). lra. }
  intros t Ht. cbn [valueFrom time value]. rdec; reflexivity.
Qed.

(** ** C1: the gain envelope around an early note-off *)

Lemma earlyOff_timing :
  noteTiming 0 leadTone earlyOff =
  {| tm_t0 := 0; tm_peak := 0.8; tm_susLevel := 0.4; tm_tA := 0.1; tm_tD := 0.2;
     tm_tOff := 0.05; tm_tR := 0.15 |}.
Proof.
  unfold noteTiming, noteDSec, clamp, numOr. cbn.
  rminmax. f_equal; lra.
Qed.

(** The interpolated level for a note-off half-way through the attack. *)
Lemma earlyOff_level : expAt g0 0.8 0 0.1 0.05 = 0.0001 * Rpower 8000 0.5.
Proof.
  unfold expAt. rdec. unfold g0. rminmax.
  replace ((0.05 - 0) / (0.1 - 0)) with 0.5 by lra. rminmax.
  replace (0.8 / 0.0001) with 8000 by lra. reflexivity.
Qed.

(** The events left on the gain parameter: the cancel at 0.05 removed both
    ramps, the attack ramp included, because they end later. *)
Lemma earlyOff_schedule :
  scheduleADSR true 0.8 0.4 0 0.1 0.2 0.05 0.15 =
  [SetValue 0.0001 0; SetValue (0.0001 * Rpower 8000 0.5) 0.05; ExpRamp 0.0001 0.15].
Proof.
  assert (HP : 1 < Rpower 8000 0.5) by (apply Rpower_gt_1; lra).
  unfold scheduleADSR, setValueAtTime, exponentialRampToValueAtTime.
  cbn [insertEvent time sameKind cancelScheduledValues]. rdec.
  cbn [insertEvent time sameKind cancelScheduledValues]. rdec.
  cbn [insertEvent time sameKind cancelScheduledValues]. rdec.
  rewrite earlyOff_level. unfold g0. rminmax.
  cbn [insertEvent time sameKind cancelScheduledValues]. rdec.
  cbn [insertEvent time sameKind cancelScheduledValues]. rdec.
  reflexivity.
Qed.

Lemma earlyOff_value_before t :
  0 <= t < 0.05 ->
  valueAt [SetValue 0.0001 0; SetValue (0.0001 * Rpower 8000 0.5) 0.05; ExpRamp 0.0001 0.15] t
  = 0.0001.
Proof.
  intros Ht. unfold valueAt. cbn [valueFrom time value]. rdec; try reflexivity.
Qed.

Lemma earlyOff_value_at :
  valueAt [SetValue 0.0001 0; SetValue (0.0001 * Rpower 8000 0.5) 0.05; ExpRamp 0.0001 0.15] 0.05
  = 0.0001 * Rpower 8000 0.5.
Proof.
  assert (HP : 1 < Rpower 8000 0.5) by (apply Rpower_gt_1; lra).
  unfold valueAt. cbn [valueFrom time value]. rdec.
  unfold expInterp.
  destruct (Rlt_dec 0 (0.0001 * Rpower 8000 0.5 * 0.0001)) as [Hs|Hs]; [|exfalso; apply Hs; nra].
  replace ((0.05 - 0.05) / (0.15 - 0.05)) with 0 by lra.
  rewrite Rpower_O; [lra|].
  apply Rdiv_lt_0_compat; nra.
Qed.

(** C1, at [playNote({toneId:"lead", t0:0, dSec:0.05})] with a 0.1 s
    attack: the gain stays on the floor 0.0001 for the whole of [0, 0.05)
    and is set to the interpolated attack level, which is above the floor,
    at the note-off 0.05.  The envelope steps at the note-off boundary. *)
Theorem early_release_gain_steps_at_note_off :
  exists info st' G,
    playNote demoEngine earlyOff = Ok (info, st') /\
    t0 info = 0 /\ tOff info = 0.05 /\
    gainTimeline st' !! voiceId info = Some G /\
    (forall t, 0 <= t < 0.05 -> valueAt G t = 0.0001) /\
    valueAt G 0.05 = expAt g0 0.8 0 0.1 0.05 /\
    0.0001 < valueAt G 0.05.
Proof.
  destruct (startVoice demoEngine earlyOff leadTone "master") as [info st'] eqn:E.
  pose proof (startVoice_info demoEngine earlyOff leadTone "master") as Hi.
  pose proof (startVoice_gain demoEngine earlyOff leadTone "master") as Hg.
  rewrite E in Hi, Hg. cbn [fst snd] in Hi, Hg.
  cbv zeta in Hi, Hg. cbn [currentTime demoEngine hasCancel voiceSerial] in Hi, Hg.
  rewrite earlyOff_timing in Hi, Hg.
  cbn [tm_t0 tm_peak tm_susLevel tm_tA tm_tD tm_tOff tm_tR] in Hi, Hg.
  rewrite earlyOff_schedule in Hg.
  exists info, st',
    [SetValue 0.0001 0; SetValue (0.0001 * Rpower 8000 0.5) 0.05; ExpRamp 0.0001 0.15].
  split; [rewrite playNote_lead, E; reflexivity|].
  subst info. cbn [t0 tOff voiceId].
  repeat split; try reflexivity; try assumption.
  - apply earlyOff_value_before.
  - rewrite earlyOff_value_at, earlyOff_level. reflexivity.
  - rewrite earlyOff_value_at.
    assert (HP : 1 < Rpower 8000 0.5) by (apply Rpower_gt_1; lra). lra.
Qed.

(** ** C9: unknown tone and bus ids *)

(** The three [throw]s do not look at the queue. *)
Lemma playNote_queue_irrelevant st p f :
  match playNote (set_queue f st) p, playNote st p with
  | Throw m1, Throw m2 => m1 = m2
  | Ok _, Ok _ => True
  | _, _ => False
  end.
Proof.
  unfold playNote. cbv zeta. cbn [toneBank set_queue buses].
  destruct (toneBank st) as [tones|]; [|reflexivity].
  destruct (tonesGet tones (p_toneId p)) as [[tone|]|]; [| |reflexivity];
    destruct (buses st !! _); try exact I; reflexivity.
Qed.

Lemma playNote_badRef st p :
  badRef st p ->
  exists msg,
    (msg = "Unknown toneId: " +:+ p_toneId p \/
     msg = "Unknown bus: " +:+ orFalsy (p_busKey p) "master") /\
    playNote st p = Throw msg.
Proof.
  intros (tones & Hb & Hbad).
  unfold playNote. cbv zeta. rewrite Hb.
  destruct (tonesGet tones (p_toneId p)) as [tone|] eqn:Ht.
  - destruct Hbad as [Hbad|Hbad]; [discriminate|]. rewrite Hbad. eauto.
  - eauto.
Qed.

(** Such a call has written nothing when it throws. *)
Lemma afterThrow_badRef st p : badRef st p -> afterThrow st p = st.
Proof.
  intros (tones & Hb & Hbad). unfold afterThrow. rewrite Hb.
  destruct Hbad as [Hbad|Hbad]; rewrite Hbad; [reflexivity|].
  destruct (tonesGet tones (p_toneId p)) as [[tone|]|]; reflexivity.
Qed.

Lemma badRef_set_queue st p f : badRef st p -> badRef (set_queue f st) p.
Proof. intros (tones & Hb & Hbad). exists tones. split; assumption. Qed.

(** A name inherited from [Object.prototype], with a bus that exists: the
    call passes the three [throw]s, takes a voice id, and fails at
    [osc.type]. *)
Lemma playNote_inherited st p tones bus :
  toneBank st = Some tones ->
  tones !! p_toneId p = None ->
  p_toneId p ∈ objectPrototypeKeys ->
  buses st !! orFalsy (p_busKey p) "master" = Some bus ->
  playNote st p = Throw typeErrorText /\ afterThrow st p = abandonedVoice st p.
Proof.
  intros Hb Hnone Hin Hbus. unfold playNote, afterThrow. cbv zeta.
  rewrite Hb, (tonesGet_inherited _ _ Hnone Hin), Hbus. split; reflexivity.
Qed.

Lemma playPhrase_returns st phrase opts : exists r, playPhrase st phrase opts = Ok r.
Proof. unfold playPhrase. eauto. Qed.

Lemma pumpWhile_throwing_head st p t rest fuel tMax msg :
  queue st = (t, PlayNoteAction None p) :: rest -> t <= tMax ->
  playNote st p = Throw msg ->
  pumpWhile (S fuel) tMax st =
  pumpWhile fuel tMax
    (consoleError ("[SQAE] scheduled fn error: " +:+ msg)
       (afterThrow (set_queue (fun _ => rest) st) p)).
Proof.
  intros Hq Ht Hthrow. cbn [pumpWhile]. rewrite Hq.
  destruct (Rle_dec t tMax); [|lra].
  cbn [runAction abandoned].
  pose proof (playNote_queue_irrelevant st p (fun _ => rest)) as Hirr.
  rewrite Hthrow in Hirr.
  destruct (playNote (set_queue (fun _ => rest) st) p) as [ok|m]; [destruct Hirr|].
  subst m. reflexivity.
Qed.

(** C9 as the code has it, on an engine whose bank is loaded.  For a
    reference that resolves nowhere (the tone id is neither a key of the
    bank nor a name inherited from [Object.prototype], or no bus has the
    key): [playNote] throws ["Unknown toneId: ..."] or ["Unknown bus: ..."]
    having written nothing, and when the pump reaches a queued trigger with
    such a reference it removes it, writes the error to the console and
    goes on with the rest of the queue.  For a tone id that is not in the
    bank but is such an inherited name, on a bus that exists: [playNote]
    raises no ["Unknown toneId"] error; it takes a voice id, tracks no
    voice, and fails with the [TypeError] of [osc.type], which the pump
    logs in the same way.  [playPhrase] itself always returns. *)
Theorem unknown_ids_throw_and_are_logged st p tones :
  toneBank st = Some tones ->
  (badRef st p ->
   exists msg,
     (msg = "Unknown toneId: " +:+ p_toneId p \/
      msg = "Unknown bus: " +:+ orFalsy (p_busKey p) "master") /\
     playNote st p = Throw msg /\
     afterThrow st p = st /\
     (forall t rest fuel tMax,
         queue st = (t, PlayNoteAction None p) :: rest -> t <= tMax ->
         pumpWhile (S fuel) tMax st =
         pumpWhile fuel tMax
           (consoleError ("[SQAE] scheduled fn error: " +:+ msg)
              (set_queue (fun _ => rest) st)))) /\
  (tones !! p_toneId p = None ->
   p_toneId p ∈ objectPrototypeKeys ->
   is_Some (buses st !! orFalsy (p_busKey p) "master") ->
   playNote st p = Throw typeErrorText /\
   voiceSerial (afterThrow st p) = S (voiceSerial st) /\
   voices (afterThrow st p) = voices st /\
   queue (afterThrow st p) = queue st /\
   (forall t rest fuel tMax,
       queue st = (t, PlayNoteAction None p) :: rest -> t <= tMax ->
       pumpWhile (S fuel) tMax st =
       pumpWhile fuel tMax
         (consoleError ("[SQAE] scheduled fn error: " +:+ typeErrorText)
            (abandonedVoice (set_queue (fun _ => rest) st) p)))) /\
  (forall phrase opts, exists r, playPhrase st phrase opts = Ok r).
Proof.
  intros Hb. split; [|split].
  - intros Hbad. destruct (playNote_badRef st p Hbad) as (msg & Hmsg & Hthrow).
    exists msg. split; [exact Hmsg|]. split; [exact Hthrow|].
    split; [apply afterThrow_badRef; exact Hbad|].
    intros t rest fuel tMax Hq Ht.
    rewrite (pumpWhile_throwing_head st p t rest fuel tMax msg Hq Ht Hthrow).
    rewrite afterThrow_badRef by (apply badRef_set_queue; exact Hbad). reflexivity.
  - intros Hnone Hin [bus Hbus].
    destruct (playNote_inherited st p tones bus Hb Hnone Hin Hbus) as [Hthrow Hafter].
    split; [exact Hthrow|]. rewrite Hafter.
    split; [reflexivity|]. split; [reflexivity|]. split; [reflexivity|].
    intros t rest fuel tMax Hq Ht.
    rewrite (pumpWhile_throwing_head st p t rest fuel tMax _ Hq Ht Hthrow).
    destruct (playNote_inherited (set_queue (fun _ => rest) st) p tones bus Hb Hnone Hin Hbus)
      as [_ Hafter']. rewrite Hafter'. reflexivity.
  - intros phrase opts. apply playPhrase_returns.
Qed.

Lemma demo_tonesGet_nope :
  tonesGet (<[ "lead" := leadTone ]> (<[ "bass" := bassTone ]> ∅)) "nope" = None.
Proof. unfold tonesGet. rewrite demo_bank_nope. reflexivity. Qed.

Lemma demo_bank_toString :
  (<[ "lead" := leadTone ]> (<[ "bass" := bassTone ]> (∅ : gmap string ToneDef))) !! "toString"
  = None.
Proof.
  rewrite lookup_insert_ne by discriminate. rewrite lookup_insert_ne by discriminate.
  apply lookup_empty.
Qed.

Lemma toString_is_inherited : "toString" ∈ objectPrototypeKeys.
Proof. unfold objectPrototypeKeys. repeat constructor. Qed.

Lemma queued_badRef : badRef queuedEngine unknownTone.
Proof.
  eexists. split; [reflexivity|]. left. apply demo_tonesGet_nope.
Defined.

(** The theorem on the demo engine with [playNote({toneId:"nope"})]
    queued at time 0: the direct call throws ["Unknown toneId: nope"],
    [playPhrase] with the same tone id returns, and one turn of the pump
    with [tMax = 0.12] removes the trigger and leaves the error on the
    console. *)
Lemma unknown_ids_witness :
  badRef queuedEngine unknownTone /\
  playNote queuedEngine unknownTone = Throw "Unknown toneId: nope" /\
  (exists r, playPhrase queuedEngine (Some unknownTonePhrase) noPhraseOpts = Ok r) /\
  queue (pumpWhile 1 0.12 queuedEngine) = [] /\
  console (pumpWhile 1 0.12 queuedEngine) =
    ["[SQAE] scheduled fn error: Unknown toneId: nope"].
Proof.
  split; [exact queued_badRef|].
  destruct (unknown_ids_throw_and_are_logged queuedEngine unknownTone _ eq_refl)
    as (Hbad & _ & Hphrase).
  destruct (Hbad queued_badRef) as (msg & Hmsg & Hthrow & _ & Hpump).
  assert (Hdirect : playNote queuedEngine unknownTone = Throw "Unknown toneId: nope").
  { unfold playNote. cbv zeta.
    cbn [toneBank queuedEngine set_queue demoEngine p_toneId unknownTone].
    rewrite demo_tonesGet_nope. reflexivity. }
  assert (Hm : msg = "Unknown toneId: nope") by congruence.
  split; [exact Hdirect|]. split; [apply Hphrase|].
  rewrite (Hpump 0 [] 0%nat 0.12 eq_refl ltac:(lra)), Hm.
  split; reflexivity.
Defined.

(** The claim as stated fails twice.  For [playPhrase]: a phrase whose
    only event names the unknown tone ["nope"] is accepted, the call
    returns its summary, and the trigger sits in the queue.  And for a tone
    id that the bank does not hold but every object inherits:
    [playNote({toneId:"toString"})] on the demo engine raises no
    ["Unknown toneId"] error; it takes voice id 1 and fails with a
    [TypeError]. *)
Lemma playPhrase_unknown_tone_returns :
  (exists info st' t p,
      playPhrase demoEngine (Some unknownTonePhrase) noPhraseOpts = Ok (info, st') /\
      pi_count info = 1%nat /\
      queue st' = [(t, PlayNoteAction None p)] /\
      p_toneId p = "nope" /\
      badRef demoEngine p) /\
  (toneBank demoEngine =
     Some (<[ "lead" := leadTone ]> (<[ "bass" := bassTone ]> ∅)) /\
   (<[ "lead" := leadTone ]> (<[ "bass" := bassTone ]> (∅ : gmap string ToneDef)))
     !! p_toneId inheritedTone = None /\
   playNote demoEngine inheritedTone = Throw typeErrorText /\
   voiceSerial demoEngine = 1%nat /\
   voiceSerial (afterThrow demoEngine inheritedTone) = 2%nat).
Proof.
  split.
  - eexists _, _, _, _. split; [reflexivity|]. split; [reflexivity|].
    split; [reflexivity|]. split; [reflexivity|].
    eexists. split; [reflexivity|]. left. apply demo_tonesGet_nope.
  - split; [reflexivity|]. split; [exact demo_bank_toString|].
    destruct (playNote_inherited demoEngine inheritedTone _ 1 eq_refl demo_bank_toString
                toString_is_inherited (lookup_insert_eq _ _ _)) as [Hthrow Hafter].
    split; [exact Hthrow|]. split; [reflexivity|]. rewrite Hafter. reflexivity.
Qed.

(** ** C3, hardline side: the mono slot of [playNote] *)

(** A non-poly trigger leaves exactly the new voice in the slot of its
    tone id, whatever was there; other slots are untouched. *)
Lemma startVoice_mono_slot st p tone bk :
  default poly (tone_mono tone) <> poly ->
  activeMono (snd (startVoice st p tone bk)) =
  <[ p_toneId p := {| stopAt := tm_tR (noteTiming (currentTime st) tone p);
                      stopper := voiceSerial st |} ]> (activeMono st).
Proof.
  intros Hm. unfold startVoice, monoSteal. cbv zeta.
  destruct (default poly (tone_mono tone)); [congruence| |];
    destruct (activeMono st !! p_toneId p);
    cbn [snd activeMono set_activeMono set_queue set_voices stopSource set_voiceSerial
         set_gainTimeline voiceSerial];
    rewrite ?insert_delete_eq; reflexivity.
Qed.

(** A poly trigger does not touch the mono slots. *)
Lemma startVoice_poly_slot st p tone bk :
  default poly (tone_mono tone) = poly ->
  activeMono (snd (startVoice st p tone bk)) = activeMono st.
Proof.
  intros Hm. unfold startVoice, monoSteal. cbv zeta. rewrite Hm. reflexivity.
Qed.

(** Natural completion is the queued clean-up: it removes the voice id
    from [_voices] and nothing else. *)
Lemma cleanup_only_voices st vid :
  exists st', runAction st (CleanupAction vid) = Ok st' /\
    voices st' = voices st ∖ {[ vid ]} /\
    activeMono st' = activeMono st /\
    queue st' = queue st.
Proof. eexists. split; [reflexivity|]. repeat split. Qed.

Lemma startVoice_voices st p tone bk :
  voices (snd (startVoice st p tone bk)) = {[ voiceSerial st ]} ∪ voices st.
Proof.
  unfold startVoice. cbv zeta.
  destruct (default poly (tone_mono tone));
    cbn [snd voices set_activeMono set_queue set_voices stopSource set_voiceSerial
         set_gainTimeline];
    rewrite monoSteal_voiceSerial, monoSteal_voices; reflexivity.
Qed.

Lemma startVoice_queue st p tone bk :
  queue (snd (startVoice st p tone bk)) =
  schedule (tm_tR (noteTiming (currentTime st) tone p) + 0.10)
           (CleanupAction (voiceSerial st)) (queue st).
Proof.
  unfold startVoice. cbv zeta.
  destruct (default poly (tone_mono tone));
    cbn [snd queue set_activeMono set_queue set_voices stopSource set_voiceSerial
         set_gainTimeline];
    rewrite monoSteal_voiceSerial, monoSteal_queue; reflexivity.
Qed.

Lemma startVoice_voiceSerial st p tone bk :
  voiceSerial (snd (startVoice st p tone bk)) = S (voiceSerial st).
Proof.
  unfold startVoice. cbv zeta.
  destruct (default poly (tone_mono tone));
    cbn [snd voiceSerial set_activeMono set_queue set_voices stopSource set_voiceSerial
         set_gainTimeline];
    rewrite monoSteal_voiceSerial; reflexivity.
Qed.


Lemma startVoice_running st p tone bk :
  running (snd (startVoice st p tone bk)) = running st
  /\ lookaheadSec (snd (startVoice st p tone bk)) = lookaheadSec st.
Proof.
  unfold startVoice, monoSteal. cbv zeta.
  destruct (default poly (tone_mono tone)); destruct (activeMono st !! p_toneId p);
    split; reflexivity.
Qed.

Lemma bassNote_timing :
  noteTiming 0 bassTone bassNote =
  {| tm_t0 := 0; tm_peak := 0.8; tm_susLevel := 0.4; tm_tA := 0.1; tm_tD := 0.2;
     tm_tOff := 0.05; tm_tR := 0.15 |}.
Proof. exact earlyOff_timing. Qed.

(** The hardline engine does not clear the mono slot on natural completion:
    a mono note is played, the clock passes its clean-up time and the pump
    runs the clean-up; the voice is gone from [_voices], the queue is
    empty, and the slot still holds the finished voice. *)
Lemma mono_slot_survives_completion :
  exists info st1 st2,
    playNote demoEngine bassNote = Ok (info, st1) /\
    voices st1 = {[ voiceId info ]} /\
    queue st1 = [(tR info + 0.10, CleanupAction (voiceId info))] /\
    st2 = _pump (set_currentTime 1 st1) /\
    voices st2 = ∅ /\
    queue st2 = [] /\
    activeMono st2 !! "bass" = Some {| stopAt := tR info; stopper := voiceId info |}.
Proof.
  destruct (startVoice demoEngine bassNote bassTone "master") as [info st1] eqn:E.
  pose proof (startVoice_info demoEngine bassNote bassTone "master") as Hi.
  pose proof (startVoice_voices demoEngine bassNote bassTone "master") as Hv.
  pose proof (startVoice_queue demoEngine bassNote bassTone "master") as Hq.
  pose proof (startVoice_running demoEngine bassNote bassTone "master") as [Hr Hl].
  pose proof (startVoice_mono_slot demoEngine bassNote bassTone "master") as Hm.
  rewrite E in Hi, Hv, Hq, Hr, Hl, Hm. cbn [fst snd] in Hi, Hv, Hq, Hr, Hl, Hm.
  cbv zeta in Hi. cbn [currentTime demoEngine voiceSerial voices queue running lookaheadSec
                       activeMono] in Hi, Hv, Hq, Hr, Hl, Hm.
  rewrite bassNote_timing in Hi, Hq, Hm.
  cbn [tm_t0 tm_tOff tm_tR] in Hi, Hq, Hm.
  specialize (Hm ltac:(discriminate)).
  exists info, st1, (_pump (set_currentTime 1 st1)).
  split; [rewrite playNote_bass, E; reflexivity|].
  subst info. cbn [voiceId tR p_toneId bassNote] in *.
  assert (Hq' : queue st1 = [(0.15 + 0.10, CleanupAction 1)]) by (rewrite Hq; reflexivity).
  split; [rewrite Hv; apply (right_id_L ∅ (∪))|].
  split; [exact Hq'|]. split; [reflexivity|].
  unfold _pump. cbn [running set_currentTime queue currentTime lookaheadSec].
  rewrite Hr, Hl, Hq'. cbn [queueWeight foldr actionWeight snd Nat.add pumpWhile queue
                             set_currentTime].
  rewrite Hq'. destruct (Rle_dec (0.15 + 0.10) (1 + 0.12)); [|lra].
  cbn [runAction pumpWhile voices set_voices set_queue set_currentTime queue activeMono].
  rewrite Hv, Hm. split; [|split; [reflexivity|apply lookup_insert_eq]].
  apply set_eq. intros x. set_solver.
Qed.

(** ** The pump runs to the end of what is due *)






(** ** Transport stop *)

Lemma stopAllVoices_clears tStop st :
  activeMono (stopAllVoices tStop st) = ∅ /\ voices (stopAllVoices tStop st) = ∅.
Proof. unfold stopAllVoices. cbv zeta. split; reflexivity. Qed.

(** ** C6: the loop clamp of [scheduleTracks] *)

Lemma eps_pos : 0 < eps.
Proof. unfold eps. lra. Qed.

(** The clamp block on a window with a finite end. *)
Lemma loopClamp_cases ws wend bt d :
  loopClamp true (Some {| w_start := ws; w_end := Some wend |}) bt d =
  if Rgt_dec (bt + d) (wend - eps)
  then if Rle_dec (wend - bt - eps) 0 then None else Some (wend - bt - eps)
  else Some d.
Proof.
  unfold loopClamp. cbn [w_end].
  destruct (Rgt_dec (bt + d) (wend - eps)); [|reflexivity].
  destruct (Rle_dec (wend - bt - eps) 0) as [Hle|Hgt].
  - rewrite Rmax_left by lra. destruct (Rle_dec 0 0); [reflexivity|lra].
  - rewrite Rmax_right by lra.
    destruct (Rle_dec (wend - bt - eps) 0); [lra|reflexivity].
Qed.

(** What [scheduleEvent] does with an event inside the window that has a
    tone, by the outcome of the clamp. *)
Lemma scheduleEvent_in_window env tBase ws wend bk td q ev tid :
  se_loopClamp env = true ->
  ws <= default 0 (ev_t ev) < wend ->
  truthy (orNull (ev_toneId ev) td) = Some tid ->
  let w := {| w_start := ws; w_end := Some wend |} in
  let bt := default 0 (ev_t ev) in
  let t := tBase + (bt - ws + 0) * se_beatSec env in
  scheduleEvent env tBase 0 (Some w) ws bk td q ev =
  match loopClamp true (Some w) bt (default 0.25 (ev_d ev)) with
  | None => q
  | Some d' =>
      schedule t
        (PlayNoteAction (Some (se_handle env))
           {| p_toneId := tid; p_v := Some (default (Fin 1) (ev_v ev));
              p_t0 := Some t;
              p_dSec := Some (Fin (Rmax 0.001 (d' * se_beatSec env)));
              p_busKey := Some (orFalsy (ev_busKey ev) bk) |}) q
  end.
Proof.
  intros Hc Hin Ht w bt t. unfold scheduleEvent. cbv zeta. fold bt.
  unfold outsideWindow. cbn [w_start w_end w].
  destruct (Rlt_dec bt ws); [unfold bt in *; lra|].
  destruct (Rge_dec bt wend); [unfold bt in *; lra|].
  rewrite Hc. fold w.
  destruct (loopClamp true (Some w) bt (default 0.25 (ev_d ev))); [|reflexivity].
  rewrite Ht. reflexivity.
Qed.

(** C6 as the code has it.  In a pass over the window [ws .. wend) with the
    clamp on and a positive beat length, an event inside the window that
    has a tone is either dropped (its clipped length would not be
    positive) or queued at its beat with a length in beats [d'] such that:
    [d'] is the event's own length when the note ends at least
    [eps = 1e-9] beats before the window end, otherwise
    [d' = wend - bt - eps]; in both cases the beat interval ends at or
    before [wend - eps].  The note is queued at [t] with the length
    [dSec = max(0.001, d' * beatSec)] seconds: when [d' * beatSec] is at
    least 1 ms the note ends [eps] beats or more before the window end in
    seconds too, and otherwise it lasts 1 ms and ends less than 1 ms after
    the window end. *)
Theorem loop_clamp_ends_before_window_end env tBase ws wend bk td q ev tid :
  se_loopClamp env = true ->
  0 < se_beatSec env ->
  ws <= default 0 (ev_t ev) < wend ->
  truthy (orNull (ev_toneId ev) td) = Some tid ->
  let w := {| w_start := ws; w_end := Some wend |} in
  let bt := default 0 (ev_t ev) in
  let d := default 0.25 (ev_d ev) in
  let t := tBase + (bt - ws + 0) * se_beatSec env in
  let tEnd := tBase + (wend - ws) * se_beatSec env in
  match loopClamp true (Some w) bt d with
  | None =>
      bt + d > wend - eps /\ wend - bt - eps <= 0 /\
      scheduleEvent env tBase 0 (Some w) ws bk td q ev = q
  | Some d' =>
      let dSec := Rmax 0.001 (d' * se_beatSec env) in
      ((bt + d <= wend - eps /\ d' = d) \/
       (bt + d > wend - eps /\ d' = wend - bt - eps /\ 0 < d')) /\
      bt + d' <= wend - eps /\
      scheduleEvent env tBase 0 (Some w) ws bk td q ev =
      schedule t
        (PlayNoteAction (Some (se_handle env))
           {| p_toneId := tid; p_v := Some (default (Fin 1) (ev_v ev));
              p_t0 := Some t;
              p_dSec := Some (Fin dSec);
              p_busKey := Some (orFalsy (ev_busKey ev) bk) |}) q /\
      (0.001 <= d' * se_beatSec env ->
       dSec = d' * se_beatSec env /\ t + dSec <= tEnd - eps * se_beatSec env) /\
      (d' * se_beatSec env < 0.001 -> dSec = 0.001 /\ t + dSec < tEnd + 0.001)
  end.
Proof.
  intros Hc Hbeat Hin Ht w bt d t tEnd.
  assert (Hs : forall o, loopClamp true (Some w) bt d = o ->
               scheduleEvent env tBase 0 (Some w) ws bk td q ev =
               match o with
               | None => q
               | Some d' =>
                   schedule t
                     (PlayNoteAction (Some (se_handle env))
                        {| p_toneId := tid; p_v := Some (default (Fin 1) (ev_v ev));
                           p_t0 := Some t;
                           p_dSec := Some (Fin (Rmax 0.001 (d' * se_beatSec env)));
                           p_busKey := Some (orFalsy (ev_busKey ev) bk) |}) q
               end).
  { intros o Ho.
    pose proof (scheduleEvent_in_window env tBase ws wend bk td q ev tid Hc Hin Ht) as E.
    cbv zeta in E. fold w bt d t in E. rewrite E, Ho. reflexivity. }
  assert (Hsec : forall d', bt + d' <= wend - eps ->
            (0.001 <= d' * se_beatSec env ->
             Rmax 0.001 (d' * se_beatSec env) = d' * se_beatSec env /\
             t + Rmax 0.001 (d' * se_beatSec env) <= tEnd - eps * se_beatSec env) /\
            (d' * se_beatSec env < 0.001 ->
             Rmax 0.001 (d' * se_beatSec env) = 0.001 /\
             t + Rmax 0.001 (d' * se_beatSec env) < tEnd + 0.001)).
  { intros d' Hd'. unfold t, tEnd. split; intros Hsz.
    - rewrite Rmax_right by lra. split; [reflexivity|]. nra.
    - rewrite Rmax_left by lra. split; [reflexivity|].
      assert (bt < wend) by (unfold bt; lra). nra. }
  pose proof eps_pos as He.
  unfold w in *. rewrite loopClamp_cases in *.
  destruct (Rgt_dec (bt + d) (wend - eps)) as [Hx|Hx].
  - destruct (Rle_dec (wend - bt - eps) 0) as [Hle|Hgt].
    + split; [lra|]. split; [lra|]. apply (Hs None). reflexivity.
    + cbv zeta. split; [right; repeat split; lra|]. split; [lra|].
      split; [apply (Hs (Some (wend - bt - eps))); reflexivity|].
      apply Hsec. lra.
  - cbv zeta. split; [left; split; [lra|reflexivity]|]. split; [lra|].
    split; [apply (Hs (Some d)); reflexivity|].
    apply Hsec. lra.
Qed.

Lemma demoSongEnv_beat : 0 < se_beatSec demoSongEnv.
Proof. cbn [se_beatSec demoSongEnv]. lra. Defined.

(** The theorem at the window [0 .. 4) and the event [{t:3, d:1}], at
    half a second per beat from time 10: the note is clipped to
    [1 - eps] beats and ends [eps] beats before the window end at 12 s. *)
Lemma loop_clamp_witness :
  match loopClamp true (Some {| w_start := 0; w_end := Some 4 |}) 3 1 with
  | None =>
      3 + 1 > 4 - eps /\ 4 - 3 - eps <= 0 /\
      scheduleEvent demoSongEnv 10 0 (Some {| w_start := 0; w_end := Some 4 |}) 0
        "master" None [] lastBeat = []
  | Some d' =>
      ((3 + 1 <= 4 - eps /\ d' = 1) \/ (3 + 1 > 4 - eps /\ d' = 4 - 3 - eps /\ 0 < d')) /\
      3 + d' <= 4 - eps /\
      scheduleEvent demoSongEnv 10 0 (Some {| w_start := 0; w_end := Some 4 |}) 0
        "master" None [] lastBeat =
      schedule (10 + (3 - 0 + 0) * 0.5)
        (PlayNoteAction (Some 7%nat)
           {| p_toneId := "lead"; p_v := Some (Fin 1);
              p_t0 := Some (10 + (3 - 0 + 0) * 0.5);
              p_dSec := Some (Fin (Rmax 0.001 (d' * 0.5)));
              p_busKey := Some "master" |}) [] /\
      (0.001 <= d' * 0.5 ->
       Rmax 0.001 (d' * 0.5) = d' * 0.5 /\
       10 + (3 - 0 + 0) * 0.5 + Rmax 0.001 (d' * 0.5) <= 10 + (4 - 0) * 0.5 - eps * 0.5) /\
      (d' * 0.5 < 0.001 ->
       Rmax 0.001 (d' * 0.5) = 0.001 /\
       10 + (3 - 0 + 0) * 0.5 + Rmax 0.001 (d' * 0.5) < 10 + (4 - 0) * 0.5 + 0.001)
  end.
Proof.
  apply (loop_clamp_ends_before_window_end demoSongEnv 10 0 4 "master" None [] lastBeat "lead").
  - reflexivity.
  - exact demoSongEnv_beat.
  - cbn. lra.
  - reflexivity.
Defined.

(** The claim as stated fails twice.  On the last beat of a four-beat
    window the event [{t:3, d:1}] lies inside [0 .. 4) and does not cross
    its end, yet it is queued with the length [1 - eps], not 1, and so ends
    before the boundary, not on it.  And the event [{t:3.999, d:1}] is
    clipped to less than a thousandth of a beat, which at half a second per
    beat is below the 1 ms floor: queued from time 10 it starts at
    11.9995 s, lasts 1 ms and ends at 12.0005 s, after the window end at
    12 s. *)
Lemma loop_clamp_shortens_note_ending_on_boundary :
  (loopClamp true (Some {| w_start := 0; w_end := Some 4 |}) 3 1 = Some (4 - 3 - eps)
   /\ 4 - 3 - eps < 1
   /\ 3 + (4 - 3 - eps) < 4) /\
  (scheduleEvent demoSongEnv 10 0 (Some {| w_start := 0; w_end := Some 4 |}) 0
     "master" None [] lateBeat =
   [(11.9995,
     PlayNoteAction (Some 7%nat)
       {| p_toneId := "lead"; p_v := Some (Fin 1); p_t0 := Some 11.9995;
          p_dSec := Some (Fin 0.001); p_busKey := Some "master" |})]
   /\ 10 + (4 - 0) * se_beatSec demoSongEnv = 12
   /\ 11.9995 + 0.001 > 12).
Proof.
  pose proof eps_pos as He. split.
  - rewrite loopClamp_cases.
    destruct (Rgt_dec (3 + 1) (4 - eps)); [|lra].
    destruct (Rle_dec (4 - 3 - eps) 0) as [Hle|Hgt].
    + unfold eps in Hle. lra.
    + split; [reflexivity|]. lra.
  - split; [|split; [cbn [se_beatSec demoSongEnv]; lra|lra]].
    assert (Hin : 0 <= default 0 (ev_t lateBeat) < 4).
    { change (default 0 (ev_t lateBeat)) with 3.999. lra. }
    rewrite (scheduleEvent_in_window demoSongEnv 10 0 4 "master" None [] lateBeat "lead"
               eq_refl Hin eq_refl).
    cbv zeta.
    change (default 0 (ev_t lateBeat)) with 3.999.
    change (default 0.25 (ev_d lateBeat)) with 1.
    rewrite loopClamp_cases.
    destruct (Rgt_dec (3.999 + 1) (4 - eps)); [|lra].
    destruct (Rle_dec (4 - 3.999 - eps) 0) as [Hle|Hgt]; [unfold eps in Hle; lra|].
    cbn [se_beatSec demoSongEnv se_handle ev_v ev_busKey lateBeat].
    rewrite (Rmax_left 0.001) by (unfold eps; lra).
    unfold schedule. cbn [length insertIndex take drop app].
    replace (10 + (3.999 - 0 + 0) * 0.5) with 11.9995 by lra. reflexivity.
Qed.

(** ** C2: loop windows are placed by an integer index *)



Lemma nextLoopT_mono ls i j :
  0 < loopLenSec ls -> (i <= j)%nat -> nextLoopT ls i <= nextLoopT ls j.
Proof.
  intros HL Hij. unfold nextLoopT. apply le_INR in Hij. nra.
Qed.

Lemma loopWhile_S fuel env ls tMax i q :
  loopWhile (S fuel) env ls tMax i q =
  if Rle_dec (nextLoopT ls i) tMax
  then loopWhile fuel env ls tMax (S i) (scheduleWindow env ls q i)
  else Some (i, q).
Proof. reflexivity. Qed.

(** The [while] of [pumpLoop] with enough fuel: it stops at the first index
    [j] whose start is past [tMax], having queued the windows [i .. j-1] in
    order, each at [nextLoopT]. *)
Lemma loopWhile_run env ls tMax n :
  forall i q,
    nextLoopT ls (i + n) > tMax ->
    exists j,
      loopWhile (S n) env ls tMax i q =
        Some (j, foldl (scheduleWindow env ls) q (seq i (j - i))) /\
      (i <= j)%nat /\
      (forall k, (i <= k < j)%nat -> nextLoopT ls k <= tMax) /\
      nextLoopT ls j > tMax.
Proof.
  induction n as [|n IH]; intros i q Hn.
  - exists i. rewrite loopWhile_S. rewrite Nat.add_0_r in Hn.
    destruct (Rle_dec (nextLoopT ls i) tMax); [lra|].
    rewrite Nat.sub_diag. cbn. repeat split; [lia| |lra].
    intros k Hk. lia.
  - rewrite loopWhile_S. destruct (Rle_dec (nextLoopT ls i) tMax) as [Hle|Hgt].
    + replace (i + S n)%nat with (S i + n)%nat in Hn by lia.
      destruct (IH (S i) (scheduleWindow env ls q i) Hn) as (j & Hrun & Hij & Hk & Hj).
      exists j. rewrite Hrun. replace (j - i)%nat with (S (j - S i)) by lia.
      cbn [seq foldl]. repeat split; [lia| |exact Hj].
      intros k Hik. destruct (Nat.eq_dec k i) as [->|Hne]; [exact Hle|apply Hk; lia].
    + exists i. rewrite Nat.sub_diag. cbn. repeat split; [lia| |lra].
      intros k Hk. lia.
Qed.

(** [loopFuel] is enough for a loop of positive length. *)
Lemma loopFuel_enough ls tMax i :
  0 < loopLenSec ls ->
  nextLoopT ls (i + Z.to_nat (up ((tMax - loopBaseT ls) / loopLenSec ls))) > tMax.
Proof.
  intros HL. set (x := (tMax - loopBaseT ls) / loopLenSec ls).
  destruct (archimed x) as [Hup _].
  assert (Hn : IZR (up x) <= INR (Z.to_nat (up x))).
  { destruct (Z_lt_le_dec (up x) 0) as [Hneg|Hpos].
    - replace (Z.to_nat (up x)) with 0%nat by lia. cbn [INR]. apply IZR_lt in Hneg. lra.
    - rewrite INR_IZR_INZ, Z2Nat.id by lia. lra. }
  unfold nextLoopT. rewrite plus_INR.
  assert (Hi : 0 <= INR i) by apply pos_INR.
  assert (Hx : x * loopLenSec ls = tMax - loopBaseT ls).
  { unfold x. field. lra. }
  nra.
Qed.


Lemma beatSec_pos tempo : 0 < 60 / Rmax 1 tempo.
Proof.
  pose proof (Rmax_l 1 tempo). apply Rdiv_lt_0_compat; lra.
Qed.

Lemma initialLoop_len_pos st song opts lstart lend :
  lend > lstart -> 0 < loopLenSec (initialLoop st song opts lstart lend).
Proof.
  intros H. cbn [initialLoop loopLenSec].
  pose proof (beatSec_pos (songTempo song opts)). nra.
Qed.


(** *** The window starts in binary64 *)










Lemma demo_fresh_handle : 7%nat ∉ stoppedSongs demoEngine.
Proof. cbn [stoppedSongs demoEngine]. apply not_elem_of_empty. Defined.




(** ** C7, hardline side: [makeNoiseBuffer] *)

Section HoldLoop.
Context {A : Type} (random : nat -> A).

(** Sample [k] of the hold loop started at index [i]: the held value if no
    index of [i .. i+k] is a multiple of [step], else the last draw made. *)
Lemma holdLoop_lookup (step : Z) :
  (0 < step)%Z ->
  forall (n : nat) (i : Z) (draws : nat) (v : A) (k : nat),
    (k < n)%nat ->
    holdLoop random n step i draws v !! k =
    Some (let c := ((i + Z.of_nat k) / step - (i - 1) / step)%Z in
          if (c =? 0)%Z then v else random (Z.to_nat (Z.of_nat draws + c - 1))).
Proof.
  intros Hs. induction n as [|n IH]; intros i draws v k Hk; [lia|].
  cbn [holdLoop]. cbv zeta.
  pose proof (div_step_indicator step i Hs) as Hi.
  destruct k as [|k].
  - replace (i + Z.of_nat 0)%Z with i by lia. rewrite Hi.
    destruct (i mod step =? 0)%Z; cbn [lookup list_lookup Z.eqb].
    + f_equal. f_equal. lia.
    + reflexivity.
  - assert (Hmono : ((i + 1 - 1) / step <= (i + 1 + Z.of_nat k) / step)%Z)
      by (apply Z.div_le_mono; lia).
    replace (i + 1 - 1)%Z with i in Hmono by lia.
    destruct (i mod step =? 0)%Z; cbn [lookup list_lookup];
      rewrite (IH (i + 1)%Z _ _ k) by lia; cbv zeta;
      replace (i + 1 - 1)%Z with i by lia;
      replace (i + Z.of_nat (S k))%Z with (i + 1 + Z.of_nat k)%Z by lia;
      set (c' := ((i + 1 + Z.of_nat k) / step - i / step)%Z);
      assert (0 <= c')%Z by (unfold c'; lia).
    + replace ((i + 1 + Z.of_nat k) / step - (i - 1) / step)%Z with (c' + 1)%Z
        by (unfold c'; lia).
      destruct (c' =? 0)%Z eqn:E1; destruct (c' + 1 =? 0)%Z eqn:E2; try lia.
      * apply Z.eqb_eq in E1. f_equal. f_equal. lia.
      * f_equal. f_equal. lia.
    + replace ((i + 1 + Z.of_nat k) / step - (i - 1) / step)%Z with c'
        by (unfold c'; lia).
      reflexivity.
Qed.

Lemma holdLoop_length (step : Z) :
  forall (n : nat) (i : Z) (draws : nat) (v : A),
    length (holdLoop random n step i draws v) = n.
Proof.
  induction n as [|n IH]; intros i draws v; [reflexivity|].
  cbn [holdLoop]. destruct (i mod step =? 0)%Z; cbn [length]; rewrite IH; reflexivity.
Qed.

(** The sample-and-hold branch of [makeNoiseBuffer]: the buffer has
    [max(1, 2*sr)] samples and sample [k] holds draw number [1 + k / step]. *)
Lemma makeNoiseBuffer_hold (sampleRate : Z) (r : Q) :
  Qle_bool r 0 = false ->
  let sr := toInt32 sampleRate in
  let len := Z.max 1 (2 * sr) in
  let step := Z.max 1 (Qfloor (inject_Z sr / Qmax 1 r)) in
  length (makeNoiseBuffer random sampleRate (Some r)) = Z.to_nat len /\
  forall k : Z, (0 <= k < len)%Z ->
    makeNoiseBuffer random sampleRate (Some r) !! Z.to_nat k =
    Some (random (Z.to_nat (1 + k / step))).
Proof.
  intros Hr sr len step. unfold makeNoiseBuffer. cbv zeta. rewrite Hr.
  fold sr. fold len. fold step. split; [apply holdLoop_length|].
  intros k Hk. rewrite (holdLoop_lookup step ltac:(lia)) by lia. cbv zeta.
  rewrite Z2Nat.id by lia.
  replace ((0 - 1) / step)%Z with (-1)%Z.
  2:{ apply (Z.div_unique (0 - 1) step (-1) (step - 1)); lia. }
  assert (0 <= k / step)%Z by (apply Z.div_pos; lia).
  replace (0 + k)%Z with k by lia.
  destruct (k / step - -1 =? 0)%Z eqn:E; [lia|].
  f_equal. f_equal. lia.
Qed.

End HoldLoop.

(** The claim as stated fails at the end of the buffer.  At 44100 Hz with
    [rateHz = 1000] the hold length is [floor(44100/1000) = 44] and the
    buffer has 88200 samples; labelling each sample with the number of the
    draw it holds, draw 2004 ends at index 88175 and draw 2005 runs from
    88176 to the last index 88199: the final value is held for 24 samples. *)
Lemma noise_final_run_is_cut :
  let buf := makeNoiseBuffer (fun k : nat => k) 44100 (Some 1000%Q) in
  Qfloor (44100 / 1000) = 44%Z /\
  length buf = Z.to_nat 88200 /\
  buf !! Z.to_nat 88175 = Some 2004%nat /\
  buf !! Z.to_nat 88176 = Some 2005%nat /\
  buf !! Z.to_nat 88199 = Some 2005%nat /\
  (88199 - 88176 + 1 = 24)%Z.
Proof.
  intros buf. unfold buf.
  destruct (makeNoiseBuffer_hold (fun k : nat => k) 44100 1000%Q eq_refl) as [Hlen Hk].
  change (toInt32 44100) with 44100%Z in Hlen, Hk.
  change (Z.max 1 (2 * 44100)) with 88200%Z in Hlen, Hk.
  change (Z.max 1 (Qfloor (inject_Z 44100 / Qmax 1 1000))) with 44%Z in Hk.
  split; [reflexivity|]. split; [exact Hlen|].
  split; [rewrite (Hk 88175%Z) by lia; reflexivity|].
  split; [rewrite (Hk 88176%Z) by lia; reflexivity|].
  split; [rewrite (Hk 88199%Z) by lia; reflexivity|].
  reflexivity.
Qed.

(** ** C4, hardline side: [makePulseWave] *)

(** The tables of [makePulseWave]: 65 entries, zero at index 0, and for
    [1 <= k <= 64] the Fourier coefficients of a pulse that starts at phase
    0: the angle is [2*pi*k*d]. *)
Lemma makePulseWave_coeffs duty :
  let d := clamp (Some (orHalf (Number duty))) 0.01 0.99 in
  let w := makePulseWave duty in
  length (real w) = 65%nat /\ length (imag w) = 65%nat /\
  real w !! 0%nat = Some 0 /\ imag w !! 0%nat = Some 0 /\
  forall k : nat, (1 <= k <= 64)%nat ->
    real w !! k = Some (2 * sin (2 * PI * INR k * d) / (PI * INR k)) /\
    imag w !! k = Some (2 * (1 - cos (2 * PI * INR k * d)) / (PI * INR k)).
Proof.
  intros d w. unfold w, makePulseWave. cbv zeta. fold d.
  cbn [real imag]. repeat split.
  - destruct k as [|k]; [lia|].
    match goal with |- (_ :: ?l) !! S k = _ => change (l !! k = Some (2 * sin (2 * PI * INR (S k) * d) / (PI * INR (S k)))) end.
    rewrite lookup_map_seq by lia. reflexivity.
  - destruct k as [|k]; [lia|].
    match goal with |- (_ :: ?l) !! S k = _ => change (l !! k = Some (2 * (1 - cos (2 * PI * INR (S k) * d)) / (PI * INR (S k)))) end.
    rewrite lookup_map_seq by lia. reflexivity.
Qed.

Lemma hardlineDuty_quarter : clamp (Some (orHalf (Number (Some (Fin 0.25))))) 0.01 0.99 = 0.25.
Proof.
  unfold clamp, orHalf, Number.
  destruct (Req_dec_T 0.25 0); [lra|]. rminmax. reflexivity.
Qed.

(** At duty 0.25 the second harmonic of [makePulseWave] has real part 0,
    where [2*sin(k*pi*d)/(k*pi)] is [1/pi]. *)
Lemma makePulseWave_quarter_second_harmonic :
  real (makePulseWave (Some (Fin 0.25))) !! 2%nat = Some 0 /\
  2 * sin (INR 2 * PI * 0.25) / (INR 2 * PI) = 1 / PI /\
  0 < 1 / PI.
Proof.
  pose proof PI_RGT_0 as Hpi.
  destruct (makePulseWave_coeffs (Some (Fin 0.25))) as (_ & _ & _ & _ & Hk).
  destruct (Hk 2%nat ltac:(lia)) as [Hre _]. cbv zeta in Hre. rewrite hardlineDuty_quarter in Hre.
  split.
  - rewrite Hre. f_equal.
    replace (2 * PI * INR 2 * 0.25) with PI by (cbn [INR]; lra).
    rewrite sin_PI. unfold Rdiv. lra.
  - split.
    + replace (INR 2 * PI * 0.25) with (PI / 2) by (cbn [INR]; lra).
      rewrite sin_PI2. cbn [INR]. field. lra.
    + apply Rdiv_lt_0_compat; lra.
Qed.

End HardlineFacts.

(** * Properties of the one-voice core *)
Section CoreCurve.
Import JS Core.
Local Open Scope Q_scope.

(** ** C5: the bit-depth curve *)

Lemma Qfloor_eq (x : Q) (z : Z) :
  inject_Z z <= x -> x < inject_Z (z + 1) -> Qfloor x = z.
Proof.
  intros Hlo Hhi.
  pose proof (Qfloor_le x) as H1. pose proof (Qlt_floor x) as H2.
  assert (Ha : inject_Z z < inject_Z (Qfloor x + 1)) by lra.
  assert (Hb : inject_Z (Qfloor x) < inject_Z (z + 1)) by lra.
  rewrite <- Zlt_Qlt in Ha, Hb. lia.
Qed.

(** [Math.round] fixes the integers. *)
Lemma round_integer (m : Z) : round (inject_Z m) = m.
Proof.
  unfold round. apply Qfloor_eq.
  - lra.
  - rewrite inject_Z_plus. change (inject_Z 1) with 1. lra.
Qed.

Lemma round_mono (x y : Q) : x <= y -> (round x <= round y)%Z.
Proof. intros H. unfold round. apply Qfloor_resp_le. lra. Qed.

Lemma levels_pos (b : Z) : (2 <= b)%Z -> 0 < inject_Z (2 ^ b - 1).
Proof.
  intros Hb. change 0 with (inject_Z 0). rewrite <- Zlt_Qlt.
  assert (2 ^ 2 <= 2 ^ b)%Z by (apply Z.pow_le_mono_r; lia). lia.
Qed.

Lemma quantize_mono (b : Z) (x y : Q) :
  (2 <= b)%Z -> x <= y -> quantize (2 ^ b) x <= quantize (2 ^ b) y.
Proof.
  intros Hb Hxy. unfold quantize. cbv zeta.
  pose proof (levels_pos b Hb) as HL.
  set (L := inject_Z (2 ^ b - 1)) in *.
  assert (Hr : (round ((x * 0.5 + 0.5) * L) <= round ((y * 0.5 + 0.5) * L))%Z).
  { apply round_mono. nra. }
  rewrite Zle_Qle in Hr.
  set (rx := inject_Z (round ((x * 0.5 + 0.5) * L))) in *.
  set (ry := inject_Z (round ((y * 0.5 + 0.5) * L))) in *.
  assert (rx / L <= ry / L).
  { unfold Qdiv. apply Qmult_le_compat_r; [exact Hr|]. apply Qlt_le_weak, Qinv_lt_0_compat, HL. }
  lra.
Qed.

(** Quantizing a quantized value changes nothing. *)
Lemma quantize_idempotent (b : Z) (x : Q) :
  (2 <= b)%Z -> quantize (2 ^ b) (quantize (2 ^ b) x) == quantize (2 ^ b) x.
Proof.
  intros Hb. pose proof (levels_pos b Hb) as HL.
  unfold quantize at 1. cbv zeta.
  set (y := quantize (2 ^ b) x).
  assert (Hy : (y * 0.5 + 0.5) * inject_Z (2 ^ b - 1) ==
               inject_Z (round ((x * 0.5 + 0.5) * inject_Z (2 ^ b - 1)))).
  { unfold y, quantize. cbv zeta. field. lra. }
  unfold round at 1. rewrite Hy. fold (round (inject_Z (round ((x * 0.5 + 0.5) * inject_Z (2 ^ b - 1))))).
  rewrite round_integer. reflexivity.
Qed.

Lemma gridX_mono (i j : Z) : (i <= j)%Z -> gridX 2048 i <= gridX 2048 j.
Proof.
  intros H. unfold gridX. rewrite Zle_Qle in H.
  change (inject_Z (2048 - 1)) with 2047.
  assert (inject_Z i / 2047 <= inject_Z j / 2047).
  { unfold Qdiv. apply Qmult_le_compat_r; [exact H|]. discriminate. }
  lra.
Qed.

Lemma buildCurve_lookup (b : Z) (i : nat) :
  (i < 2048)%nat ->
  buildCurve b !! i = Some (quantize (2 ^ b) (gridX 2048 (Z.of_nat i))).
Proof.
  intros Hi. unfold buildCurve. cbv zeta.
  change (Z.to_nat 2048) with 2048%nat.
  rewrite lookup_map_seq by exact Hi. reflexivity.
Qed.

Lemma buildCurve_length (b : Z) : length (buildCurve b) = 2048%nat.
Proof. unfold buildCurve. cbv zeta. apply length_map_seq. Qed.

Lemma buildCurve_nondecreasing (b : Z) : (2 <= b)%Z -> nondecreasing (buildCurve b).
Proof.
  intros Hb i j x y Hij Hx Hy.
  assert (Hj : (j < 2048)%nat).
  { apply lookup_lt_Some in Hy. rewrite buildCurve_length in Hy. exact Hy. }
  rewrite buildCurve_lookup in Hx by lia. rewrite buildCurve_lookup in Hy by lia.
  injection Hx as <-. injection Hy as <-.
  apply quantize_mono; [exact Hb|]. apply gridX_mono. lia.
Qed.

Lemma nondecreasing_tail (x : Q) (l : list Q) : nondecreasing (x :: l) -> nondecreasing l.
Proof.
  intros H i j a c Hij Ha Hc. apply (H (S i) (S j) a c); [lia|exact Ha|exact Hc].
Qed.

Lemma nondecreasing_head (x : Q) (l : list Q) (z : Q) :
  nondecreasing (x :: l) -> In z l -> x <= z.
Proof.
  intros H Hz. apply list_elem_of_In in Hz. apply list_elem_of_lookup in Hz as [j Hj].
  apply (H 0%nat (S j) x z); [lia|reflexivity|exact Hj].
Qed.

(** In a non-decreasing table the distinct values are one more than the
    upward steps between neighbours. *)
Lemma levelCount_sorted (l : list Q) :
  nondecreasing l -> l <> [] -> levelCount l = S (risingSteps l).
Proof.
  induction l as [|x l IH]; intros Hs Hne; [congruence|].
  destruct l as [|y rest]; [reflexivity|].
  specialize (IH (nondecreasing_tail _ _ Hs) ltac:(discriminate)).
  unfold levelCount in *. cbn [map] in *.
  change (remove_dups (Qred x :: Qred y :: map Qred rest)) with
    (if decide_rel elem_of (Qred x) (Qred y :: map Qred rest)
     then remove_dups (Qred y :: map Qred rest)
     else Qred x :: remove_dups (Qred y :: map Qred rest)).
  cbn [risingSteps]. fold (risingSteps (y :: rest)).
  destruct (Qeq_bool x y) eqn:E.
  - apply Qeq_bool_eq in E. apply Qred_complete in E.
    destruct (decide_rel elem_of (Qred x) (Qred y :: map Qred rest)) as [Hin|Hnin].
    + rewrite IH. reflexivity.
    + exfalso. apply Hnin. rewrite E. apply list_elem_of_here.
  - apply Qeq_bool_neq in E.
    destruct (decide_rel elem_of (Qred x) (Qred y :: map Qred rest)) as [Hin|Hnin].
    + exfalso. change (Qred y :: map Qred rest) with (map Qred (y :: rest)) in Hin.
      apply list_elem_of_In, in_map_iff in Hin as (z & Hz & Hzin).
      assert (Hxz : x == z).
      { rewrite <- (Qred_correct x), <- (Qred_correct z), Hz. reflexivity. }
      pose proof (nondecreasing_head x (y :: rest) y Hs ltac:(left; reflexivity)) as Hxy.
      pose proof (nondecreasing_head y rest z (nondecreasing_tail _ _ Hs)) as Hyz.
      destruct Hzin as [->|Hzin]; [apply E; exact Hxz|].
      specialize (Hyz Hzin). apply E. lra.
    + cbn [length]. rewrite IH. reflexivity.
Qed.

Lemma risingSteps_all_depths :
  forallb (fun b => Nat.eqb (S (risingSteps (buildCurve b))) (Z.to_nat (Z.min (2 ^ b) 2048)))
          depths = true.
Proof. vm_compute. reflexivity. Qed.

(** The curve for depth [b] takes [2^b] distinct values up to [b = 11] and
    2048, one per table point, from [b = 11] on. *)
Lemma buildCurve_levelCount (b : Z) :
  (2 <= b <= 16)%Z -> levelCount (buildCurve b) = Z.to_nat (Z.min (2 ^ b) 2048).
Proof.
  intros Hb.
  rewrite levelCount_sorted.
  - pose proof risingSteps_all_depths as H. rewrite forallb_forall in H.
    apply Nat.eqb_eq, H. unfold depths.
    assert (Hc : (b = 2 \/ b = 3 \/ b = 4 \/ b = 5 \/ b = 6 \/ b = 7 \/ b = 8 \/ b = 9 \/
                 b = 10 \/ b = 11 \/ b = 12 \/ b = 13 \/ b = 14 \/ b = 15 \/ b = 16)%Z) by lia.
    cbn [In]. intuition auto.
  - apply buildCurve_nondecreasing. lia.
  - intros H. apply (f_equal (@length Q)) in H. rewrite buildCurve_length in H. discriminate.
Qed.

Lemma clampBits_range (bits : Z) : (2 <= clampBits bits <= 16)%Z.
Proof. unfold clampBits. lia. Qed.

(** [_getBitDepthCurve] on a well-formed cache: hit or miss, the curve is
    the one built for the clamped depth, and the cache stays well-formed. *)
Lemma getBitDepthCurve_ok cache bits :
  curveCacheOk cache ->
  fst (_getBitDepthCurve cache bits) = buildCurve (clampBits (default 12%Z bits)) /\
  curveCacheOk (snd (_getBitDepthCurve cache bits)).
Proof.
  intros Hok. unfold _getBitDepthCurve. cbv zeta.
  destruct (cache !! clampBits (default 12%Z bits)) as [c|] eqn:E; cbn [fst snd].
  - split; [apply Hok; exact E|exact Hok].
  - split; [reflexivity|].
    intros k c Hk. destruct (decide (k = clampBits (default 12%Z bits))) as [->|Hne].
    + rewrite lookup_insert_eq in Hk. congruence.
    + rewrite lookup_insert_ne in Hk by congruence. apply Hok. exact Hk.
Qed.

Lemma empty_cache_ok : curveCacheOk ∅.
Proof. intros k c H. rewrite lookup_empty in H. discriminate. Defined.

(** *** The curve as a transfer function *)

Lemma gridX_range (i : Z) : (0 <= i <= 2047)%Z -> -1 <= gridX 2048 i <= 1.
Proof.
  intros Hi.
  pose proof (gridX_mono 0 i ltac:(lia)) as H0.
  pose proof (gridX_mono i 2047 ltac:(lia)) as H1.
  assert (E0 : gridX 2048 0 == -1) by reflexivity.
  assert (E1 : gridX 2048 2047 == 1) by reflexivity.
  rewrite E0 in H0. rewrite E1 in H1. split; assumption.
Qed.

Lemma nth_buildCurve (b : Z) (i : nat) :
  (i < 2048)%nat ->
  List.nth i (buildCurve b) 0 = quantize (2 ^ b) (gridX 2048 (Z.of_nat i)).
Proof.
  intros Hi. rewrite nth_lookup, buildCurve_lookup by exact Hi. reflexivity.
Qed.

(** The level index [Math.round((x*0.5+0.5)*(levels-1))] decides the
    output. *)
Lemma quantize_level (levels : Z) (x x' : Q) :
  round ((x * 0.5 + 0.5) * inject_Z (levels - 1)) =
  round ((x' * 0.5 + 0.5) * inject_Z (levels - 1)) ->
  quantize levels x = quantize levels x'.
Proof. intros H. unfold quantize. cbv zeta. rewrite H. reflexivity. Qed.

(** The level index of the [k]-th table point, in integers. *)
Lemma grid_level (M k r : Z) :
  (4094 * r <= 2 * (k * M) + 2047 < 4094 * (r + 1))%Z ->
  round ((gridX 2048 k * 0.5 + 0.5) * inject_Z M) = r.
Proof.
  intros [Hlo Hhi]. unfold round.
  assert (E : (gridX 2048 k * 0.5 + 0.5) * inject_Z M + 0.5 ==
              (2 * (inject_Z k * inject_Z M) + 2047) / 4094).
  { unfold gridX. change (inject_Z (2048 - 1)) with 2047. field. }
  rewrite Zle_Qle in Hlo. rewrite Zlt_Qlt in Hhi.
  rewrite !inject_Z_plus, !inject_Z_mult in Hlo.
  rewrite !inject_Z_mult, !inject_Z_plus, !inject_Z_mult in Hhi.
  change (inject_Z 4094) with 4094 in *. change (inject_Z 2) with 2 in *.
  change (inject_Z 2047) with 2047 in *. change (inject_Z 1) with 1 in *.
  apply Qfloor_eq; rewrite E; [|rewrite inject_Z_plus; change (inject_Z 1) with 1].
  - apply Qle_shift_div_l; [reflexivity|]. lra.
  - apply Qlt_shift_div_r; [reflexivity|]. lra.
Qed.
Lemma levels_range (b : Z) : (2 <= b <= 11)%Z -> (3 <= 2 ^ b - 1 <= 2047)%Z.
Proof.
  intros Hb.
  assert (2 ^ 2 <= 2 ^ b)%Z by (apply Z.pow_le_mono_r; lia).
  assert (2 ^ b <= 2 ^ 11)%Z by (apply Z.pow_le_mono_r; lia). lia.
Qed.

Lemma levels_small (b : Z) : (2 <= b <= 10)%Z -> (2 ^ b - 1 <= 1023)%Z.
Proof.
  intros Hb. assert (2 ^ b <= 2 ^ 10)%Z by (apply Z.pow_le_mono_r; lia). lia.
Qed.

Lemma level_index_range (M : Z) (x : Q) :
  (0 < M)%Z -> -1 <= x <= 1 ->
  (0 <= round ((x * 0.5 + 0.5) * inject_Z M) <= M)%Z.
Proof.
  intros HM Hx. rewrite Zlt_Qlt in HM. change (inject_Z 0) with 0 in HM.
  split.
  - rewrite <- (round_integer 0) at 1. apply round_mono. change (inject_Z 0) with 0. nra.
  - rewrite <- (round_integer M) at 2. apply round_mono. nra.
Qed.

(** A table value goes through the shaper unchanged, up to depth 11: below
    depth 11 the two table points around it hold that very value, and at
    depth 11 it sits on a table point. *)
Lemma shape_fixes_level (b : Z) (x : Q) :
  (2 <= b <= 11)%Z -> -1 <= x <= 1 ->
  shape (buildCurve b) (quantize (2 ^ b) x) == quantize (2 ^ b) x.
Proof.
  intros Hb Hx. pose proof (levels_range b Hb) as HM.
  set (M := (2 ^ b - 1)%Z) in *.
  pose proof (level_index_range M x ltac:(lia) Hx) as Hr.
  set (r := round ((x * 0.5 + 0.5) * inject_Z M)) in *.
  assert (HL : 0 < inject_Z M).
  { change 0 with (inject_Z 0). rewrite <- Zlt_Qlt. lia. }
  assert (Hlevel : forall k : Z, (0 <= k < 2048)%Z ->
            (4094 * r <= 2 * (k * M) + 2047 < 4094 * (r + 1))%Z ->
            List.nth (Z.to_nat k) (buildCurve b) 0 = quantize (2 ^ b) x).
  { intros k Hk Hkr. rewrite nth_buildCurve by lia. rewrite Z2Nat.id by lia.
    apply quantize_level. fold M. rewrite (grid_level M k r Hkr). reflexivity. }
  unfold shape. cbv zeta. rewrite buildCurve_length.
  change (Z.of_nat 2048 - 1)%Z with 2047%Z. change (inject_Z 2047) with 2047.
  set (v := 2047 / 2 * (quantize (2 ^ b) x + 1)).
  assert (Hv : v * inject_Z M == 2047 * inject_Z r).
  { unfold v, quantize. cbv zeta. fold M. fold r. field. lra. }
  destruct (Qle_bool v 0) eqn:E0.
  - apply Qle_bool_iff in E0.
    assert (Hr0 : r = 0%Z).
    { assert (H : inject_Z r <= 0) by nra.
      change 0 with (inject_Z 0) in H. rewrite <- Zle_Qle in H. lia. }
    pose proof (Hlevel 0%Z ltac:(lia) ltac:(lia)) as H0.
    change (Z.to_nat 0) with 0%nat in H0. rewrite H0. reflexivity.
  - assert (Hv0 : 0 < v).
    { apply Qnot_le_lt. intros H. apply Qle_bool_iff in H. congruence. }
    destruct (Qle_bool 2047 v) eqn:E1.
    + apply Qle_bool_iff in E1.
      assert (HrM : r = M).
      { assert (H : inject_Z M <= inject_Z r) by nra.
        rewrite <- Zle_Qle in H. lia. }
      rewrite (Hlevel 2047%Z) by lia. reflexivity.
    + assert (Hv1 : v < 2047).
      { apply Qnot_le_lt. intros H. apply Qle_bool_iff in H. congruence. }
      pose proof (Qfloor_le v) as Hk1. pose proof (Qlt_floor v) as Hk2.
      set (k := Qfloor v) in *. rewrite inject_Z_plus in Hk2. change (inject_Z 1) with 1 in Hk2.
      assert (Hk : (0 <= k <= 2046)%Z).
      { assert (H1 : inject_Z (-1) < inject_Z k) by (change (inject_Z (-1)) with (-1); lra).
        assert (H2 : inject_Z k < inject_Z 2047) by (change (inject_Z 2047) with 2047; lra).
        rewrite <- Zlt_Qlt in H1, H2. lia. }
      assert (HkM : (k * M <= 2047 * r < (k + 1) * M)%Z).
      { split.
        - rewrite Zle_Qle, !inject_Z_mult. change (inject_Z 2047) with 2047. nra.
        - rewrite Zlt_Qlt, !inject_Z_mult, inject_Z_plus.
          change (inject_Z 2047) with 2047. change (inject_Z 1) with 1. nra. }
      destruct (Z_le_gt_dec b 10) as [Hsmall|Hbig].
      * pose proof (levels_small b ltac:(lia)) as HM'. fold M in HM'.
        rewrite (Hlevel k) by lia. rewrite (Hlevel (k + 1)%Z) by lia.
        generalize (quantize (2 ^ b) x). generalize (v - inject_Z k). intros f q. ring.
      * assert (Hb11 : b = 11%Z) by lia.
        assert (HM11 : M = 2047%Z) by (unfold M; rewrite Hb11; reflexivity).
        assert (Hkr : k = r) by lia.
        rewrite (Hlevel k) by lia.
        assert (Hf : v - inject_Z k == 0).
        { rewrite HM11 in Hv. change (inject_Z 2047) with 2047 in Hv. rewrite Hkr. lra. }
        rewrite Hf. generalize (List.nth (Z.to_nat (k + 1)) (buildCurve b) 0).
        generalize (quantize (2 ^ b) x). intros q q'. ring.
Qed.

(** On the sampled inputs the shaper answers with the table. *)
Lemma shape_on_grid (b : Z) (i : nat) :
  (i < 2048)%nat ->
  shape (buildCurve b) (gridX 2048 (Z.of_nat i)) == List.nth i (buildCurve b) 0.
Proof.
  intros Hi. unfold shape. cbv zeta. rewrite buildCurve_length.
  change (Z.of_nat 2048 - 1)%Z with 2047%Z. change (inject_Z 2047) with 2047.
  set (v := 2047 / 2 * (gridX 2048 (Z.of_nat i) + 1)).
  assert (Hv : v == inject_Z (Z.of_nat i)).
  { unfold v, gridX. change (inject_Z (2048 - 1)) with 2047. field. }
  assert (Hi0 : 0 <= inject_Z (Z.of_nat i)).
  { change 0 with (inject_Z 0). rewrite <- Zle_Qle. lia. }
  destruct (Qle_bool v 0) eqn:E0.
  - apply Qle_bool_iff in E0.
    assert (H : inject_Z (Z.of_nat i) <= inject_Z 0) by (change (inject_Z 0) with 0; lra).
    rewrite <- Zle_Qle in H. replace i with 0%nat by lia. reflexivity.
  - destruct (Qle_bool 2047 v) eqn:E1.
    + apply Qle_bool_iff in E1.
      assert (H : inject_Z 2047 <= inject_Z (Z.of_nat i)) by (change (inject_Z 2047) with 2047; lra).
      rewrite <- Zle_Qle in H. replace i with 2047%nat by lia. reflexivity.
    + assert (Hk : Qfloor v = Z.of_nat i).
      { apply Qfloor_eq; [lra|]. rewrite inject_Z_plus. change (inject_Z 1) with 1. lra. }
      rewrite Hk, Nat2Z.id.
      assert (Hf : v - inject_Z (Z.of_nat i) == 0) by lra.
      rewrite Hf. generalize (List.nth i (buildCurve b) 0).
      generalize (List.nth (Z.to_nat (Z.of_nat i + 1)) (buildCurve b) 0). intros q q'. ring.
Qed.

(** The shaper does not tell equal rationals apart. *)
Lemma shape_comp (c : list Q) (x x' : Q) : x == x' -> shape c x == shape c x'.
Proof.
  intros Hx. unfold shape. cbv zeta.
  set (n := inject_Z (Z.of_nat (length c) - 1)).
  assert (Hv : n / 2 * (x + 1) == n / 2 * (x' + 1)) by (rewrite Hx; reflexivity).
  rewrite <- !(Qleb_comp _ _ Hv 0 0 (Qeq_refl 0)).
  rewrite <- !(Qleb_comp n n (Qeq_refl n) _ _ Hv).
  destruct (Qle_bool (n / 2 * (x + 1)) 0); [reflexivity|].
  destruct (Qle_bool n (n / 2 * (x + 1))); [reflexivity|].
  rewrite <- (Qfloor_comp _ _ Hv). rewrite <- Hv. reflexivity.
Qed.

Lemma two_bit_curve_between_points :
  shape (buildCurve 2) (-1364 # 2047) == -2 # 3 /\
  shape (buildCurve 2) (shape (buildCurve 2) (-1364 # 2047)) == -8 # 9.
Proof. split; vm_compute; reflexivity. Qed.

Lemma twelve_bit_curve_moves_a_table_value :
  exists y, buildCurve 12 !! 1%nat = Some y /\ shape (buildCurve 12) y < y.
Proof.
  eexists. split; [rewrite buildCurve_lookup by lia; reflexivity|].
  vm_compute. reflexivity.
Qed.

(** C5 as the code has it.  For any requested depth, with [b] the depth
    clamped to [2..16]: the curve returned has 2048 points, is
    non-decreasing, each point is the quantization of its grid input and
    lies on the grid of [2^b] levels, and it takes [min(2^b, 2048)]
    distinct values.  Applied as the shaper's transfer function, it answers
    each of the 2048 sampled inputs with its table value; and up to depth
    11 every table value is a fixed point, so applying the curve twice to a
    sampled input gives the same as applying it once. *)
Theorem bit_depth_curve_properties cache bits :
  curveCacheOk cache ->
  let b := clampBits (default 12%Z bits) in
  let curve := fst (_getBitDepthCurve cache bits) in
  (2 <= b <= 16)%Z /\
  length curve = 2048%nat /\
  nondecreasing curve /\
  (forall (i : nat) (y : Q),
      curve !! i = Some y -> y = quantize (2 ^ b) (gridX 2048 (Z.of_nat i))) /\
  (forall y : Q, In y curve -> quantize (2 ^ b) y == y) /\
  levelCount curve = Z.to_nat (Z.min (2 ^ b) 2048) /\
  (forall (i : nat) (y : Q),
      curve !! i = Some y -> shape curve (gridX 2048 (Z.of_nat i)) == y) /\
  ((b <= 11)%Z -> forall y : Q, In y curve -> shape curve y == y) /\
  ((b <= 11)%Z -> forall i : nat, (i < 2048)%nat ->
      shape curve (shape curve (gridX 2048 (Z.of_nat i)))
      == shape curve (gridX 2048 (Z.of_nat i))) /\
  curveCacheOk (snd (_getBitDepthCurve cache bits)).
Proof.
  intros Hok b curve.
  destruct (getBitDepthCurve_ok cache bits Hok) as [Hc Hok'].
  fold b in Hc. fold curve in Hc.
  pose proof (clampBits_range (default 12%Z bits)) as Hb. fold b in Hb.
  assert (Hpt : forall (i : nat) (y : Q),
             curve !! i = Some y -> y = quantize (2 ^ b) (gridX 2048 (Z.of_nat i))).
  { intros i y Hy. rewrite Hc in Hy.
    assert (Hi : (i < 2048)%nat).
    { apply lookup_lt_Some in Hy. rewrite buildCurve_length in Hy. exact Hy. }
    rewrite buildCurve_lookup in Hy by exact Hi. congruence. }
  assert (Hgrid : forall (i : nat) (y : Q),
             curve !! i = Some y -> shape curve (gridX 2048 (Z.of_nat i)) == y).
  { intros i y Hy.
    assert (Hi : (i < 2048)%nat).
    { apply lookup_lt_Some in Hy. rewrite Hc, buildCurve_length in Hy. exact Hy. }
    rewrite Hc, (shape_on_grid b i Hi), nth_lookup, <- Hc, Hy. reflexivity. }
  assert (Hfix : (b <= 11)%Z -> forall y : Q, In y curve -> shape curve y == y).
  { intros Hb11 y Hy. apply list_elem_of_In, list_elem_of_lookup in Hy as [i Hi].
    assert (Hlt : (i < 2048)%nat).
    { apply lookup_lt_Some in Hi. rewrite Hc, buildCurve_length in Hi. exact Hi. }
    rewrite (Hpt i y Hi), Hc. apply shape_fixes_level; [lia|].
    apply gridX_range. lia. }
  split; [exact Hb|].
  split; [rewrite Hc; apply buildCurve_length|].
  split; [rewrite Hc; apply buildCurve_nondecreasing; lia|].
  split; [exact Hpt|].
  split.
  { intros y Hy. apply list_elem_of_In, list_elem_of_lookup in Hy as [i Hi].
    rewrite (Hpt i y Hi). apply quantize_idempotent. lia. }
  split; [rewrite Hc; apply buildCurve_levelCount; exact Hb|].
  split; [exact Hgrid|]. split; [exact Hfix|]. split; [|exact Hok'].
  intros Hb11 i Hi.
  assert (Hy : curve !! i = Some (List.nth i curve 0)).
  { rewrite nth_lookup. destruct (curve !! i) eqn:E; [reflexivity|].
    apply lookup_ge_None in E. rewrite Hc, buildCurve_length in E. lia. }
  rewrite (shape_comp curve _ _ (Hgrid i _ Hy)). rewrite (Hgrid i _ Hy).
  apply Hfix; [exact Hb11|]. apply list_elem_of_In, list_elem_of_lookup. eauto.
Qed.

(** The theorem on a fresh core asked for depth 8. *)
Lemma bit_depth_curve_witness :
  let b := clampBits (default 12%Z (Some 8%Z)) in
  let curve := fst (_getBitDepthCurve ∅ (Some 8%Z)) in
  (2 <= b <= 16)%Z /\
  length curve = 2048%nat /\
  nondecreasing curve /\
  (forall y : Q, In y curve -> quantize (2 ^ b) y == y) /\
  levelCount curve = Z.to_nat (Z.min (2 ^ b) 2048) /\
  (forall y : Q, In y curve -> shape curve y == y) /\
  (forall i : nat, (i < 2048)%nat ->
      shape curve (shape curve (gridX 2048 (Z.of_nat i)))
      == shape curve (gridX 2048 (Z.of_nat i))).
Proof.
  intros b curve.
  destruct (bit_depth_curve_properties ∅ (Some 8%Z) empty_cache_ok)
    as (H1 & H2 & H3 & _ & H5 & H6 & _ & H8 & H9 & _).
  assert (Hb : (b <= 11)%Z) by (apply Z.leb_le; reflexivity).
  split; [exact H1|]. split; [exact H2|]. split; [exact H3|]. split; [exact H5|].
  split; [exact H6|]. split; [exact (H8 Hb)|exact (H9 Hb)].
Defined.

(** From depth 12 on the table cannot take [2^b] values: the default depth
    12 asks for [2^12 = 4096] levels and the 2048-point table takes 2048. *)
Lemma twelve_bit_curve_has_2048_levels :
  clampBits 12 = 12%Z /\
  levelCount (fst (_getBitDepthCurve ∅ (Some 12%Z))) = 2048%nat /\
  (2 ^ 12 = 4096)%Z.
Proof.
  split; [reflexivity|]. split; [|reflexivity].
  destruct (getBitDepthCurve_ok ∅ (Some 12%Z) empty_cache_ok) as [Hc _].
  rewrite Hc. change (clampBits (default 12%Z (Some 12%Z))) with 12%Z.
  rewrite buildCurve_levelCount by lia. reflexivity.
Qed.

(** The claim as stated fails in three ways.  From depth 12 on the table
    has fewer than [2^b] levels (2048 at the default depth 12).  At any
    depth the shaper interpolates between two table points that straddle a
    step: at depth 2 the input [-1364/2047], halfway between the points
    341 and 342, comes out as [-2/3], and [-2/3] comes out as [-8/9].  And
    from depth 12 on even table values move: at depth 12 the value of
    point 1 comes out lower than it went in. *)
Lemma bit_depth_curve_is_not_idempotent :
  (clampBits 12 = 12%Z /\
   levelCount (fst (_getBitDepthCurve ∅ (Some 12%Z))) = 2048%nat /\
   (2 ^ 12 = 4096)%Z) /\
  (-1 <= -1364 # 2047 <= 1 /\
   shape (fst (_getBitDepthCurve ∅ (Some 2%Z))) (-1364 # 2047) == -2 # 3 /\
   shape (fst (_getBitDepthCurve ∅ (Some 2%Z)))
     (shape (fst (_getBitDepthCurve ∅ (Some 2%Z))) (-1364 # 2047)) == -8 # 9) /\
  (exists y,
      fst (_getBitDepthCurve ∅ (Some 12%Z)) !! 1%nat = Some y /\
      shape (fst (_getBitDepthCurve ∅ (Some 12%Z))) y < y).
Proof.
  split; [exact twelve_bit_curve_has_2048_levels|].
  destruct (getBitDepthCurve_ok ∅ (Some 2%Z) empty_cache_ok) as [Hc2 _].
  destruct (getBitDepthCurve_ok ∅ (Some 12%Z) empty_cache_ok) as [Hc12 _].
  rewrite Hc2, Hc12.
  change (clampBits (default 12%Z (Some 2%Z))) with 2%Z.
  change (clampBits (default 12%Z (Some 12%Z))) with 12%Z.
  split.
  - split; [split; discriminate|]. exact two_bit_curve_between_points.
  - exact twelve_bit_curve_moves_a_table_value.
Qed.
End CoreCurve.

Section CoreWaves.
Import JS Core.
Local Open Scope R_scope.

(** ** C4, core side: [_getPulseWave] *)

(** The duty [_getPulseWave] computes with. *)
Lemma coreDuty_in_range (d : R) :
  0.05 <= d <= 0.95 -> Rmax 0.05 (Rmin 0.95 d) = d.
Proof. intros H. rminmax. reflexivity. Qed.

(** On a cache miss the tables have 64 entries, are zero at index 0, the
    imaginary part is zero throughout, and for [1 <= k <= 63] the real part
    is [2*sin(k*pi*D)/(k*pi)] at the clamped duty [D]. *)
Lemma getPulseWave_miss cache (d : R) :
  let D := Rmax 0.05 (Rmin 0.95 d) in
  cache !! dutyKey D = None ->
  let w := fst (_getPulseWave cache (Some (Fin d))) in
  length (real w) = 64%nat /\ length (imag w) = 64%nat /\
  real w !! 0%nat = Some 0 /\
  (forall k : nat, (k < 64)%nat -> imag w !! k = Some 0) /\
  forall k : nat, (1 <= k <= 63)%nat ->
    real w !! k = Some (2 * sin (INR k * PI * D) / (INR k * PI)).
Proof.
  intros D Hmiss w. unfold w, _getPulseWave. cbv zeta.
  change (default (Fin 0.5) (Some (Fin d))) with (Fin d). cbv iota.
  fold D. rewrite Hmiss. cbn [fst real imag].
  change (64 - 1)%nat with 63%nat.
  split; [reflexivity|]. split; [reflexivity|]. split; [reflexivity|]. split.
  - intros k Hk. destruct k as [|k]; [reflexivity|].
    match goal with |- (_ :: ?l) !! S k = _ => change (l !! k = Some 0) end.
    rewrite lookup_map_seq by lia. reflexivity.
  - intros k Hk. destruct k as [|k]; [lia|].
    match goal with |- (_ :: ?l) !! S k = ?r => change (l !! k = r) end.
    rewrite lookup_map_seq by lia. f_equal. change (1 + k)%nat with (S k).
    pose proof PI_RGT_0. assert (0 < INR (S k)) by (apply lt_0_INR; lia).
    field. split; lra.
Qed.

(** At duty 0.01 the core computes with the clamped duty 0.05: the first
    harmonic is [2*sin(pi*0.05)/pi], above the [2*sin(pi*0.01)/pi] of the
    closed form at the requested duty. *)
Lemma getPulseWave_small_duty_is_clamped :
  real (fst (_getPulseWave ∅ (Some (Fin 0.01)))) !! 1%nat
    = Some (2 * sin (INR 1 * PI * 0.05) / (INR 1 * PI)) /\
  2 * sin (INR 1 * PI * 0.01) / (INR 1 * PI) < 2 * sin (INR 1 * PI * 0.05) / (INR 1 * PI).
Proof.
  pose proof PI_RGT_0 as Hpi.
  destruct (getPulseWave_miss ∅ 0.01 (lookup_empty _)) as (_ & _ & _ & _ & Hk).
  split.
  - rewrite (Hk 1%nat) by lia. rewrite (Rmax_left 0.05 (Rmin 0.95 0.01)) by (rminmax; lra).
    reflexivity.
  - cbn [INR].
    assert (Hs : sin (1 * PI * 0.01) < sin (1 * PI * 0.05)).
    { apply sin_increasing_1; lra. }
    apply Rmult_lt_compat_r; [apply Rinv_0_lt_compat; lra|]. lra.
Qed.

End CoreWaves.

(** ** C7, core side: [_getNoiseBuffer] *)
Section CoreNoise.
Import JS Core.
Context {A : Type} (random : nat -> A).

(** Sample [k] of the hold loop over the raw samples [random i ..] with [c]
    samples left of the current hold: the held value while the hold lasts,
    then the raw sample at the start of the block [k] falls in. *)
Lemma shLoop_lookup (step : Z) :
  (0 < step)%Z ->
  forall (n i : nat) (c : Z) (last : A) (k : nat),
    (0 <= c)%Z -> (k < n)%nat ->
    shLoop (map random (seq i n)) step c last !! k =
    Some (if (Z.of_nat k <? c)%Z then last
          else random (i + Z.to_nat (c + step * ((Z.of_nat k - c) / step)))%nat).
Proof.
  intros Hs. induction n as [|n IH]; intros i c last k Hc Hk; [lia|].
  cbn [seq map shLoop]. cbv zeta.
  destruct k as [|k].
  - change ((?x :: _) !! 0%nat) with (Some x).
    destruct (c =? 0)%Z eqn:E.
    + apply Z.eqb_eq in E. subst c. cbn. rewrite Z.mul_0_r. cbn. rewrite Nat.add_0_r.
      reflexivity.
    + apply Z.eqb_neq in E. destruct (Z.of_nat 0 <? c)%Z eqn:E2; [reflexivity|].
      apply Z.ltb_ge in E2. lia.
  - match goal with |- (_ :: ?l) !! S k = ?r => change (l !! k = r) end.
    destruct (c =? 0)%Z eqn:E.
    + apply Z.eqb_eq in E. subst c.
      rewrite (IH (S i) (step - 1)%Z (random i) k) by lia.
      destruct (Z.of_nat (S k) <? 0)%Z eqn:E0; [apply Z.ltb_lt in E0; lia|].
      destruct (Z.of_nat k <? step - 1)%Z eqn:E1.
      * apply Z.ltb_lt in E1. f_equal. f_equal.
        rewrite Z.sub_0_r, Z.div_small by lia. lia.
      * apply Z.ltb_ge in E1. f_equal. f_equal.
        rewrite Z.sub_0_r.
        replace (Z.of_nat (S k)) with ((Z.of_nat k - (step - 1)) + 1 * step)%Z by lia.
        rewrite Z.div_add by lia.
        assert (0 <= (Z.of_nat k - (step - 1)) / step)%Z by (apply Z.div_pos; lia).
        nia.
    + apply Z.eqb_neq in E.
      rewrite (IH (S i) (c - 1)%Z last k) by lia.
      destruct (Z.of_nat k <? c - 1)%Z eqn:E1; destruct (Z.of_nat (S k) <? c)%Z eqn:E2;
        try (apply Z.ltb_lt in E1); try (apply Z.ltb_ge in E1);
        try (apply Z.ltb_lt in E2); try (apply Z.ltb_ge in E2); try lia; try reflexivity.
      f_equal. f_equal.
      replace (Z.of_nat k - (c - 1))%Z with (Z.of_nat (S k) - c)%Z by lia.
      assert (0 <= (Z.of_nat (S k) - c) / step)%Z by (apply Z.div_pos; lia).
      nia.
Qed.

Lemma shLoop_length (step : Z) (raw : list A) :
  forall (c : Z) (last : A), length (shLoop raw step c last) = length raw.
Proof.
  induction raw as [|x raw IH]; intros c last; [reflexivity|].
  cbn [shLoop length]. cbv zeta. rewrite IH. reflexivity.
Qed.

(** On a cache miss [_getNoiseBuffer] returns one second of samples, and
    sample [k] is the raw sample at the start of its block of [step]. *)
Lemma getNoiseBuffer_miss (sampleRate : Z) cache (rateHz : option Q) :
  let key := Z.max 20 (Qfloor (default 600%Q rateHz)) in
  let step := Z.max 1 (sampleRate / Z.max 20 key) in
  cache !! key = None ->
  let buf := fst (_getNoiseBuffer random sampleRate cache rateHz) in
  length buf = Z.to_nat sampleRate /\
  forall k : Z, (0 <= k < sampleRate)%Z ->
    buf !! Z.to_nat k = Some (random (Z.to_nat (step * (k / step)))).
Proof.
  intros key step Hmiss buf. unfold buf, _getNoiseBuffer. cbv zeta.
  fold key. rewrite Hmiss. cbn [fst]. fold step. split.
  - rewrite shLoop_length. apply length_map_seq.
  - intros k Hk. rewrite (shLoop_lookup step ltac:(lia)) by lia.
    rewrite Z2Nat.id by lia.
    destruct (k <? 0)%Z eqn:E; [apply Z.ltb_lt in E; lia|].
    f_equal. f_equal. rewrite Z.sub_0_r. reflexivity.
Qed.

End CoreNoise.

(** ** C8: shared buses are built once *)
Section CoreBuses.
Import JS Core.
Local Open Scope Q_scope.

(** A request for a key that has a bus returns it and changes nothing. *)
Lemma getOrCreateBus_hit st busKey f g bus :
  busCache st !! busKeyOf busKey = Some bus ->
  _getOrCreateBus st busKey f g = (bus, st).
Proof. intros H. unfold _getOrCreateBus. cbv zeta. rewrite H. reflexivity. Qed.

(** A request for a key without a bus builds one from the request's
    parameters, gives it a fresh id and caches it. *)
Lemma getOrCreateBus_miss st busKey f g :
  busCache st !! busKeyOf busKey = None ->
  let bus := fst (_getOrCreateBus st busKey f g) in
  let st' := snd (_getOrCreateBus st busKey f g) in
  busId bus = nextId st /\
  hpf_frequency bus = default 20 (hpf_hz f) /\
  lpf_frequency bus = default 12000 (lpf_hz f) /\
  shaper_curve bus = fst (_getBitDepthCurve (bitCurveCache st) (Some (default 12%Z (bit_depth f)))) /\
  srNode bus = crushNodeFor st f /\
  outGain_value bus = default 1 g /\
  filterSnapshot bus = f /\
  busCache st' = <[ busKeyOf busKey := bus ]> (busCache st) /\
  nextId st' = S (nextId st).
Proof.
  intros H. unfold _getOrCreateBus. cbv zeta. rewrite H.
  destruct (_getBitDepthCurve (bitCurveCache st) (Some (default 12%Z (bit_depth f))))
    as [curve cache]. cbn. repeat split.
Qed.

(** After any request the key's bus is the one the request returned. *)
Lemma getOrCreateBus_cached st busKey f g :
  busCache (snd (_getOrCreateBus st busKey f g)) !! busKeyOf busKey
  = Some (fst (_getOrCreateBus st busKey f g)).
Proof.
  destruct (busCache st !! busKeyOf busKey) as [bus|] eqn:E.
  - rewrite (getOrCreateBus_hit st busKey f g bus E). exact E.
  - destruct (getOrCreateBus_miss st busKey f g E) as (_ & _ & _ & _ & _ & _ & _ & Hc & _).
    rewrite Hc. apply lookup_insert_eq.
Qed.

Lemma getOrCreateBus_keeps st busKey f g key bus :
  busCache st !! key = Some bus ->
  busCache (snd (_getOrCreateBus st busKey f g)) !! key = Some bus.
Proof.
  intros Hk. destruct (busCache st !! busKeyOf busKey) as [b|] eqn:E.
  - rewrite (getOrCreateBus_hit st busKey f g b E). exact Hk.
  - destruct (getOrCreateBus_miss st busKey f g E) as (_ & _ & _ & _ & _ & _ & _ & Hc & _).
    rewrite Hc. rewrite lookup_insert_ne; [exact Hk|]. congruence.
Qed.

Lemma stealToneBus_busCache trackId monoCutMs st :
  busCache (stealToneBus trackId monoCutMs st) = busCache st.
Proof.
  unfold stealToneBus. destruct trackId as [tid|]; [|reflexivity].
  destruct (activeTracks st !! tid); reflexivity.
Qed.

Lemma stealTone_busCache trackId st : busCache (stealTone trackId st) = busCache st.
Proof.
  unfold stealTone. destruct trackId as [tid|]; [|reflexivity].
  destruct (activeTracks st !! tid); reflexivity.
Qed.

Lemma playToneBus_busCache st tone whenSec busKey trackId monoCutMs :
  busCache (snd (playToneBus st tone whenSec busKey trackId monoCutMs)) =
  busCache (snd (_getOrCreateBus (stealToneBus trackId monoCutMs st)
                   (Some (default "bgm"%string busKey))
                   (default emptyFilter (tone_filter tone)) (Some 1))).
Proof.
  unfold playToneBus. cbv zeta.
  destruct (_getOrCreateBus _ _ _ _) as [bus st1]. destruct trackId; reflexivity.
Qed.

Lemma playTone_busCache st tone whenSec trackId :
  busCache (snd (playTone st tone whenSec trackId)) = busCache st.
Proof.
  unfold playTone. cbv zeta.
  destruct (_getBitDepthCurve _ _) as [c cache].
  destruct trackId;
    cbn [snd busCache set_onended set_activeTracks set_nextId set_bitCurveCache];
    apply stealTone_busCache.
Qed.

Lemma fireEnded_busCache entry st : busCache (fireEnded entry st) = busCache st.
Proof.
  unfold fireEnded. destruct (onended st !! entry) as [tid|]; [|reflexivity].
  unfold onendedHandler. cbn [activeTracks set_onended].
  destruct (activeTracks st !! tid) as [cur|]; [|reflexivity].
  destruct (decide (entryId cur = entry)); reflexivity.
Qed.

(** No operation replaces or removes a cached bus. *)
Lemma step_keeps_bus st o key bus :
  busCache st !! key = Some bus -> busCache (step st o) !! key = Some bus.
Proof.
  intros H. destruct o; cbn [step].
  - apply getOrCreateBus_keeps. exact H.
  - rewrite playToneBus_busCache. apply getOrCreateBus_keeps.
    rewrite stealToneBus_busCache. exact H.
  - rewrite playTone_busCache. exact H.
  - rewrite fireEnded_busCache. exact H.
  - exact H.
Qed.

Lemma run_keeps_bus ops : forall st key bus,
  busCache st !! key = Some bus -> busCache (run ops st) !! key = Some bus.
Proof.
  unfold run. induction ops as [|o ops IH]; intros st key bus H; [exact H|].
  cbn [foldl]. apply IH. apply step_keeps_bus. exact H.
Qed.

(** C8.  Take the first request for a bus key (no bus cached under it):
    the bus it builds carries that request's filter, curve and gain; after
    any further operations of the core -- other requests under any key and
    with any filter, notes through [playToneBus] or [playTone], [ended]
    events, time passing -- a request under the same key, whatever filter
    and gain it passes, returns that very bus and leaves the core as it was
    (nothing is built, nothing is written). *)
Theorem bus_is_built_once_and_frozen st busKey f g ops f' g' :
  busCache st !! busKeyOf busKey = None ->
  let bus := fst (_getOrCreateBus st busKey f g) in
  let st1 := snd (_getOrCreateBus st busKey f g) in
  let st2 := run ops st1 in
  (busId bus = nextId st /\
   hpf_frequency bus = default 20 (hpf_hz f) /\
   lpf_frequency bus = default 12000 (lpf_hz f) /\
   shaper_curve bus = fst (_getBitDepthCurve (bitCurveCache st) (Some (default 12%Z (bit_depth f)))) /\
   srNode bus = crushNodeFor st f /\
   outGain_value bus = default 1 g /\
   filterSnapshot bus = f) /\
  busCache st2 !! busKeyOf busKey = Some bus /\
  _getOrCreateBus st2 busKey f' g' = (bus, st2).
Proof.
  intros Hmiss bus st1 st2.
  destruct (getOrCreateBus_miss st busKey f g Hmiss) as (H1 & H2 & H3 & H4 & H5 & H6 & H7 & _ & _).
  split; [repeat split; assumption|].
  assert (Hc : busCache st2 !! busKeyOf busKey = Some bus).
  { apply run_keeps_bus. apply getOrCreateBus_cached. }
  split; [exact Hc|]. apply getOrCreateBus_hit. exact Hc.
Qed.

Lemma fresh_core_has_no_bus : busCache freshCore !! busKeyOf (Some "bgm"%string) = None.
Proof. apply lookup_empty. Defined.

(** The theorem on a fresh core: the bus ["bgm"] is first requested with an
    8 kHz low-pass, two notes with a 500 Hz low-pass are then routed to it,
    and a later request asking for 500 Hz gets the 8 kHz bus back. *)
Lemma bus_is_built_once_witness :
  let f := {| hpf_hz := None; lpf_hz := Some 8000; bit_depth := Some 8%Z; sr_crush_hz := None |} in
  let f' := {| hpf_hz := None; lpf_hz := Some 500; bit_depth := Some 4%Z; sr_crush_hz := None |} in
  let ops := [OpPlayToneBus dullTone 0 (Some "bgm"%string) None None;
              OpClock 1;
              OpPlayToneBus dullTone 0 (Some "bgm"%string) (Some "t1"%string) None] in
  let bus := fst (_getOrCreateBus freshCore (Some "bgm"%string) f (Some 1)) in
  let st1 := snd (_getOrCreateBus freshCore (Some "bgm"%string) f (Some 1)) in
  let st2 := run ops st1 in
  (busId bus = nextId freshCore /\
   hpf_frequency bus = default 20 (hpf_hz f) /\
   lpf_frequency bus = default 12000 (lpf_hz f) /\
   shaper_curve bus = fst (_getBitDepthCurve (bitCurveCache freshCore) (Some (default 12%Z (bit_depth f)))) /\
   srNode bus = crushNodeFor freshCore f /\
   outGain_value bus = default 1 (Some 1) /\
   filterSnapshot bus = f) /\
  busCache st2 !! busKeyOf (Some "bgm"%string) = Some bus /\
  _getOrCreateBus st2 (Some "bgm"%string) f' None = (bus, st2).
Proof.
  intros f f' ops.
  exact (bus_is_built_once_and_frozen freshCore (Some "bgm"%string) f (Some 1) ops f' None
           fresh_core_has_no_bus).
Defined.

End CoreBuses.

(** ** C3, core side: the [_activeTracks] registry *)
Section CoreRegistry.
Import JS Core.
Local Open Scope Q_scope.

Lemma stealTone_activeTracks tid st :
  activeTracks (stealTone (Some tid) st) = delete tid (activeTracks st).
Proof.
  unfold stealTone. destruct (activeTracks st !! tid) eqn:E; [reflexivity|].
  symmetry. apply delete_id. exact E.
Qed.

Lemma stealTone_ids trackId st :
  nextId (stealTone trackId st) = nextId st /\ onended (stealTone trackId st) = onended st.
Proof.
  unfold stealTone. destruct trackId as [tid|]; [|split; reflexivity].
  destruct (activeTracks st !! tid); split; reflexivity.
Qed.

Lemma stealToneBus_activeTracks tid monoCutMs st :
  activeTracks (stealToneBus (Some tid) monoCutMs st) = delete tid (activeTracks st).
Proof.
  unfold stealToneBus. destruct (activeTracks st !! tid) eqn:E; [reflexivity|].
  symmetry. apply delete_id. exact E.
Qed.

Lemma stealToneBus_ids trackId monoCutMs st :
  nextId (stealToneBus trackId monoCutMs st) = nextId st /\
  onended (stealToneBus trackId monoCutMs st) = onended st.
Proof.
  unfold stealToneBus. destruct trackId as [tid|]; [|split; reflexivity].
  destruct (activeTracks st !! tid); split; reflexivity.
Qed.

(** A trigger of [playTone] on track [k] leaves a fresh entry in the slot
    of [k], whatever was there, and installs its [onended] handler. *)
Lemma playTone_registers st tone whenSec k :
  let st' := snd (playTone st tone whenSec (Some k)) in
  let entry := {| entryId := nextId st;
                  endTime := envelopeEnd tone (currentTime st + Qmax 0 whenSec);
                  releaseSec := None |} in
  activeTracks st' = <[ k := entry ]> (activeTracks st) /\
  onended st' = <[ nextId st := k ]> (onended st) /\
  nextId st' = S (nextId st).
Proof.
  unfold playTone. cbv zeta. destruct (_getBitDepthCurve _ _) as [c cache].
  cbn [snd activeTracks onended nextId set_onended set_activeTracks set_nextId
       set_bitCurveCache entryId].
  destruct (stealTone_ids (Some k) st) as [Hn Ho].
  rewrite stealTone_activeTracks, Hn, Ho, insert_delete_eq. repeat split.
Qed.

Lemma playTone_untracked st tone whenSec :
  let st' := snd (playTone st tone whenSec None) in
  activeTracks st' = activeTracks st /\ onended st' = onended st /\ nextId st' = nextId st.
Proof.
  unfold playTone. cbv zeta. destruct (_getBitDepthCurve _ _) as [c cache].
  repeat split.
Qed.

Lemma getOrCreateBus_registry st busKey f g :
  let st' := snd (_getOrCreateBus st busKey f g) in
  activeTracks st' = activeTracks st /\ onended st' = onended st /\
  (nextId st <= nextId st')%nat.
Proof.
  unfold _getOrCreateBus. cbv zeta.
  destruct (busCache st !! busKeyOf busKey); [cbn [snd]; repeat split; lia|].
  destruct (_getBitDepthCurve _ _) as [c cache].
  cbn [snd activeTracks onended nextId set_busCache set_nextId set_bitCurveCache].
  repeat split. lia.
Qed.

(** A trigger of [playToneBus] on track [k] leaves a fresh entry in the
    slot of [k]; it installs no handler. *)
Lemma playToneBus_registers st tone whenSec busKey k monoCutMs :
  let st' := snd (playToneBus st tone whenSec busKey (Some k) monoCutMs) in
  exists entry,
    activeTracks st' = <[ k := entry ]> (activeTracks st) /\
    (nextId st <= entryId entry < nextId st')%nat /\
    onended st' = onended st.
Proof.
  unfold playToneBus. cbv zeta.
  pose proof (getOrCreateBus_registry (stealToneBus (Some k) monoCutMs st)
                (Some (default "bgm"%string busKey))
                (default emptyFilter (tone_filter tone)) (Some 1)) as Hb.
  destruct (_getOrCreateBus _ _ _ _) as [bus st1]. cbn [snd] in Hb.
  destruct Hb as (Ha & Ho & Hn).
  destruct (stealToneBus_ids (Some k) monoCutMs st) as [Hn0 Ho0].
  rewrite stealToneBus_activeTracks in Ha. rewrite Hn0 in Hn. rewrite Ho0 in Ho.
  eexists. cbn [snd activeTracks onended nextId set_activeTracks set_nextId].
  rewrite Ha, insert_delete_eq. split; [reflexivity|]. cbn [entryId]. split; [lia|exact Ho].
Qed.

Lemma playToneBus_untracked st tone whenSec busKey monoCutMs :
  let st' := snd (playToneBus st tone whenSec busKey None monoCutMs) in
  activeTracks st' = activeTracks st /\ onended st' = onended st /\
  (nextId st <= nextId st')%nat.
Proof.
  unfold playToneBus. cbv zeta.
  pose proof (getOrCreateBus_registry (stealToneBus None monoCutMs st)
                (Some (default "bgm"%string busKey))
                (default emptyFilter (tone_filter tone)) (Some 1)) as Hb.
  destruct (_getOrCreateBus _ _ _ _) as [bus st1]. exact Hb.
Qed.

(** The [ended] event of the current occupant: the slot is cleared and the
    handler is gone, so a second event does nothing. *)
Lemma fireEnded_current st id k e :
  onended st !! id = Some k -> activeTracks st !! k = Some e -> entryId e = id ->
  activeTracks (fireEnded id st) = delete k (activeTracks st) /\
  onended (fireEnded id st) = delete id (onended st) /\
  fireEnded id (fireEnded id st) = fireEnded id st.
Proof.
  intros Ho Ha He.
  assert (Hf : fireEnded id st = set_activeTracks (delete k) (set_onended (delete id) st)).
  { unfold fireEnded. rewrite Ho. unfold onendedHandler. cbn [activeTracks set_onended].
    rewrite Ha. destruct (decide (entryId e = id)) as [_|Hne]; [reflexivity|congruence]. }
  rewrite Hf. split; [reflexivity|]. split; [reflexivity|].
  unfold fireEnded. cbn [onended set_activeTracks set_onended].
  rewrite lookup_delete_eq. reflexivity.
Qed.

(** The [ended] event of a voice that is not the occupant of its slot
    leaves the registry as it is. *)
Lemma fireEnded_superseded st id :
  (forall k e, onended st !! id = Some k -> activeTracks st !! k = Some e -> entryId e <> id) ->
  activeTracks (fireEnded id st) = activeTracks st.
Proof.
  intros H. unfold fireEnded. destruct (onended st !! id) as [k|] eqn:Ho; [|reflexivity].
  unfold onendedHandler. cbn [activeTracks set_onended].
  destruct (activeTracks st !! k) as [e|] eqn:Ha; [|reflexivity].
  destruct (decide (entryId e = id)) as [Heq|_]; [|reflexivity].
  exfalso. exact (H k e eq_refl Ha Heq).
Qed.

Lemma fireEnded_other st id k e :
  activeTracks st !! k = Some e -> entryId e <> id ->
  activeTracks (fireEnded id st) !! k = Some e.
Proof.
  intros Ha Hne. unfold fireEnded. destruct (onended st !! id) as [k'|]; [|exact Ha].
  unfold onendedHandler. cbn [activeTracks set_onended].
  destruct (activeTracks st !! k') as [e'|] eqn:Ha'; [|exact Ha].
  destruct (decide (entryId e' = id)) as [Heq|_]; [|exact Ha].
  cbn [activeTracks set_activeTracks].
  destruct (decide (k' = k)) as [->|Hk]; [congruence|].
  rewrite lookup_delete_ne by exact Hk. exact Ha.
Qed.

(** An entry stays in its slot through every operation other than a new
    trigger on its track and its own [ended] event. *)
Lemma step_keeps_entry st o k e :
  activeTracks st !! k = Some e ->
  ~ retriggers k o -> o <> OpEnded (entryId e) ->
  activeTracks (step st o) !! k = Some e.
Proof.
  intros Ha Hr He. destruct o as [bk f g|tone w bk tid cut|tone w tid|id|t]; cbn [step].
  - destruct (getOrCreateBus_registry st bk f g) as (H & _ & _). rewrite H. exact Ha.
  - destruct tid as [k'|].
    + destruct (playToneBus_registers st tone w bk k' cut) as (entry & H & _).
      rewrite H. rewrite lookup_insert_ne; [exact Ha|]. exact Hr.
    + destruct (playToneBus_untracked st tone w bk cut) as (H & _ & _). rewrite H. exact Ha.
  - destruct tid as [k'|].
    + destruct (playTone_registers st tone w k') as (H & _ & _).
      rewrite H. rewrite lookup_insert_ne; [exact Ha|]. exact Hr.
    + destruct (playTone_untracked st tone w) as (H & _ & _). rewrite H. exact Ha.
  - apply fireEnded_other; [exact Ha|]. congruence.
  - exact Ha.
Qed.

Lemma run_keeps_entry ops : forall st k e,
  activeTracks st !! k = Some e ->
  Forall (fun o => ~ retriggers k o /\ o <> OpEnded (entryId e)) ops ->
  activeTracks (run ops st) !! k = Some e.
Proof.
  unfold run. induction ops as [|o ops IH]; intros st k e Ha Hall; [exact Ha|].
  apply Forall_cons in Hall as [[Hr He] Hall]. cbn [foldl].
  apply IH; [|exact Hall]. apply step_keeps_entry; assumption.
Qed.

End CoreRegistry.

(** * Claims that span both sources *)
Section BothSources.
Import JS.

(** ** C3 *)

(** C3 as the code has it.  The registry of [playTone] does what the claim
    says: a trigger on track [k] leaves a fresh entry in the one slot of
    [k] together with its [onended] handler; the [ended] event of the
    occupant clears the slot, once; the [ended] event of a voice that is no
    longer the occupant changes nothing; and an entry leaves its slot only
    through a new trigger on its track or its own [ended] event.  The
    hardline [playNote] keeps one slot per tone id too, replaced by every
    non-poly trigger, but completion there is the queued clean-up, which
    removes the voice id from [_voices] and leaves the slot as it is;
    [stopAllVoices] clears the whole table. *)
Theorem mono_registry_entries_leave_only_by_their_own_voice :
  (forall st tone whenSec k,
      let st' := snd (Core.playTone st tone whenSec (Some k)) in
      exists entry,
        Core.entryId entry = Core.nextId st /\
        Core.nextId st' = S (Core.nextId st) /\
        Core.activeTracks st' = <[ k := entry ]> (Core.activeTracks st) /\
        Core.onended st' !! Core.nextId st = Some k) /\
  (forall st id k e,
      Core.onended st !! id = Some k -> Core.activeTracks st !! k = Some e ->
      Core.entryId e = id ->
      Core.activeTracks (Core.fireEnded id st) = delete k (Core.activeTracks st) /\
      Core.fireEnded id (Core.fireEnded id st) = Core.fireEnded id st) /\
  (forall st id,
      (forall k e, Core.onended st !! id = Some k -> Core.activeTracks st !! k = Some e ->
                   Core.entryId e <> id) ->
      Core.activeTracks (Core.fireEnded id st) = Core.activeTracks st) /\
  (forall ops st k e,
      Core.activeTracks st !! k = Some e ->
      Forall (fun o => ~ Core.retriggers k o /\ o <> Core.OpEnded (Core.entryId e)) ops ->
      Core.activeTracks (Core.run ops st) !! k = Some e) /\
  (forall st p tone bk,
      default Hardline.poly (Hardline.tone_mono tone) <> Hardline.poly ->
      Hardline.activeMono (snd (Hardline.startVoice st p tone bk)) =
      <[ Hardline.p_toneId p :=
           {| Hardline.stopAt :=
                Hardline.tm_tR (Hardline.noteTiming (Hardline.currentTime st) tone p);
              Hardline.stopper := Hardline.voiceSerial st |} ]> (Hardline.activeMono st)) /\
  (forall st vid,
      exists st',
        Hardline.runAction st (Hardline.CleanupAction vid) = Ok st' /\
        Hardline.voices st' = Hardline.voices st ∖ {[ vid ]} /\
        Hardline.activeMono st' = Hardline.activeMono st) /\
  (forall tStop st, Hardline.activeMono (Hardline.stopAllVoices tStop st) = ∅).
Proof.
  split.
  { intros st tone whenSec k st'. subst st'.
    destruct (playTone_registers st tone whenSec k) as (Ha & Ho & Hn).
    eexists. split; [|split; [exact Hn|split; [exact Ha|]]]; [reflexivity|].
    rewrite Ho. apply lookup_insert_eq. }
  split.
  { intros st id k e Ho Ha He.
    destruct (fireEnded_current st id k e Ho Ha He) as (H1 & _ & H3). split; assumption. }
  split; [exact fireEnded_superseded|].
  split; [exact run_keeps_entry|].
  split; [exact startVoice_mono_slot|].
  split.
  { intros st vid. destruct (cleanup_only_voices st vid) as (st' & H1 & H2 & H3 & _).
    exists st'. repeat split; assumption. }
  intros tStop st. apply stopAllVoices_clears.
Qed.

(** The theorem on a fresh core: a voice A is triggered on track ["t"],
    then a voice B; when A's [ended] event arrives, B is still registered. *)
Lemma mono_registry_witness :
  let st1 := snd (Core.playTone Core.freshCore Core.beepTone 0 (Some "t"%string)) in
  let st2 := snd (Core.playTone st1 Core.beepTone 0 (Some "t"%string)) in
  exists eB,
    Core.entryId eB = 1%nat /\
    Core.activeTracks st2 !! "t"%string = Some eB /\
    Core.activeTracks (Core.run [Core.OpEnded 0] st2) !! "t"%string = Some eB.
Proof.
  intros st1 st2.
  destruct mono_registry_entries_leave_only_by_their_own_voice as (Hreg & _ & _ & Hkeep & _).
  destruct (Hreg Core.freshCore Core.beepTone 0%Q "t"%string) as (eA & _ & Hn1 & _ & _).
  destruct (Hreg st1 Core.beepTone 0%Q "t"%string) as (eB & HidB & _ & HaB & _).
  fold st1 in Hn1. fold st2 in HaB.
  assert (Hid : Core.entryId eB = 1%nat) by (rewrite HidB, Hn1; reflexivity).
  assert (Hin : Core.activeTracks st2 !! "t"%string = Some eB)
    by (rewrite HaB; apply lookup_insert_eq).
  exists eB. split; [exact Hid|]. split; [exact Hin|].
  apply Hkeep; [exact Hin|].
  constructor; [|constructor].
  split; [intros []|rewrite Hid; discriminate].
Defined.


(** ** C4 *)

Local Open Scope R_scope.

(** C4 as the code has it.  For a duty [d] in (0,1).  The core's
    [_getPulseWave], when it builds the wave, clamps the duty to
    [D = max(0.05, min(0.95, d))] and fills 64 entries: zero at index 0 in
    both arrays, and real part [2*sin(k*pi*D)/(k*pi)] for [1 <= k <= 63];
    [D] is [d] when [d] lies in [0.05, 0.95].  The hardline [makePulseWave]
    clamps to [D' = max(0.01, min(0.99, d))] and fills 65 entries: zero at
    index 0 in both arrays, and real part [2*sin(2*pi*k*D')/(pi*k)] for
    [1 <= k <= 64]. *)
Theorem pulse_wave_tables (d : R) :
  0 < d < 1 ->
  (forall cache,
      let D := Rmax 0.05 (Rmin 0.95 d) in
      cache !! Core.dutyKey D = None ->
      let w := fst (Core._getPulseWave cache (Some (Fin d))) in
      length (real w) = 64%nat /\ length (imag w) = 64%nat /\
      real w !! 0%nat = Some 0 /\ imag w !! 0%nat = Some 0 /\
      (forall k : nat, (1 <= k <= 63)%nat ->
          real w !! k = Some (2 * sin (INR k * PI * D) / (INR k * PI))) /\
      (0.05 <= d <= 0.95 -> D = d)) /\
  (let D' := Rmax 0.01 (Rmin 0.99 d) in
   let w' := Hardline.makePulseWave (Some (Fin d)) in
   length (real w') = 65%nat /\ length (imag w') = 65%nat /\
   real w' !! 0%nat = Some 0 /\ imag w' !! 0%nat = Some 0 /\
   forall k : nat, (1 <= k <= 64)%nat ->
     real w' !! k = Some (2 * sin (2 * PI * INR k * D') / (PI * INR k))).
Proof.
  intros Hd. split.
  - intros cache D Hmiss w.
    destruct (getPulseWave_miss cache d Hmiss) as (H1 & H2 & H3 & H4 & H5).
    split; [exact H1|]. split; [exact H2|]. split; [exact H3|].
    split; [apply H4; lia|]. split; [exact H5|].
    intros Hr. apply coreDuty_in_range. exact Hr.
  - intros D' w'.
    destruct (makePulseWave_coeffs (Some (Fin d))) as (H1 & H2 & H3 & H4 & H5).
    assert (HD : clamp (Some (Hardline.orHalf (Number (Some (Fin d))))) 0.01 0.99 = D').
    { unfold clamp, Hardline.orHalf, Number. destruct (Req_dec_T d 0); [lra|]. reflexivity. }
    cbv zeta in H5. rewrite HD in H5.
    split; [exact H1|]. split; [exact H2|]. split; [exact H3|]. split; [exact H4|].
    intros k Hk. apply (H5 k Hk).
Qed.

Lemma quarter_in_unit : 0 < 0.25 < 1.
Proof. lra. Defined.

(** The theorem at duty 0.25: first harmonics of the two tables. *)
Lemma pulse_wave_tables_witness :
  real (fst (Core._getPulseWave ∅ (Some (Fin 0.25)))) !! 1%nat
    = Some (2 * sin (INR 1 * PI * Rmax 0.05 (Rmin 0.95 0.25)) / (INR 1 * PI)) /\
  real (Hardline.makePulseWave (Some (Fin 0.25))) !! 1%nat
    = Some (2 * sin (2 * PI * INR 1 * Rmax 0.01 (Rmin 0.99 0.25)) / (PI * INR 1)).
Proof.
  destruct (pulse_wave_tables 0.25 quarter_in_unit) as [Hcore Hhard].
  split.
  - destruct (Hcore ∅ (lookup_empty _)) as (_ & _ & _ & _ & Hk & _).
    apply Hk. split; [apply le_n|apply Nat.leb_le; reflexivity].
  - destruct Hhard as (_ & _ & _ & _ & Hk).
    apply Hk. split; [apply le_n|apply Nat.leb_le; reflexivity].
Defined.

(** The claim as stated fails in both sources.  The hardline table uses the
    angle [2*pi*k*d]: at duty 0.25 its second harmonic is 0 where the
    claimed form gives [1/pi].  The core clamps the duty: at duty 0.01 its
    first harmonic is that of duty 0.05, above the claimed value. *)
Lemma pulse_wave_closed_form_fails :
  (real (Hardline.makePulseWave (Some (Fin 0.25))) !! 2%nat = Some 0 /\
   2 * sin (INR 2 * PI * 0.25) / (INR 2 * PI) = 1 / PI /\
   0 < 1 / PI) /\
  (real (fst (Core._getPulseWave ∅ (Some (Fin 0.01)))) !! 1%nat
     = Some (2 * sin (INR 1 * PI * 0.05) / (INR 1 * PI)) /\
   2 * sin (INR 1 * PI * 0.01) / (INR 1 * PI) < 2 * sin (INR 1 * PI * 0.05) / (INR 1 * PI)).
Proof.
  split; [exact makePulseWave_quarter_second_harmonic|exact getPulseWave_small_duty_is_clamped].
Qed.

Local Close Scope R_scope.

(** ** C7 *)

Lemma div_in_block (step m k : Z) :
  (0 < step)%Z -> (m * step <= k < (m + 1) * step)%Z -> (k / step = m)%Z.
Proof.
  intros Hs Hk. symmetry. apply (Z.div_unique k step m (k - step * m)); lia.
Qed.

(** C7 as the code has it.  For a finite rate [r > 0] and any source of
    random values.  The hardline [makeNoiseBuffer] fills [max(1, 2*sr)]
    samples in blocks of [step = max(1, floor(sr / max(1, r)))], which is
    [max(1, floor(sr / r))] when [r >= 1]: every sample of block [m] that
    lies in the buffer holds draw [1 + m].  The core's [_getNoiseBuffer],
    when it builds the buffer, fills [sr] samples in blocks of
    [step = max(1, floor(sr / max(20, floor(r))))]: every sample of block
    [m] that lies in the buffer holds the raw sample at the block's start.
    A block cut by the end of the buffer is shorter than [step]. *)
Theorem noise_buffer_hold_blocks {A : Type} (random : nat -> A) (sampleRate : Z) (r : Q) :
  (0 < r)%Q ->
  (let sr := toInt32 sampleRate in
   let len := Z.max 1 (2 * sr) in
   let step := Z.max 1 (Qfloor (inject_Z sr / Qmax 1 r)) in
   let buf := Hardline.makeNoiseBuffer random sampleRate (Some r) in
   length buf = Z.to_nat len /\
   ((1 <= r)%Q -> step = Z.max 1 (Qfloor (inject_Z sr / r))) /\
   forall m k : Z,
     (0 <= m)%Z -> (m * step <= k < (m + 1) * step)%Z -> (k < len)%Z ->
     buf !! Z.to_nat k = Some (random (Z.to_nat (1 + m)))) /\
  (forall cache,
      let key := Z.max 20 (Qfloor r) in
      let step := Z.max 1 (sampleRate / Z.max 20 key) in
      cache !! key = None ->
      let buf := fst (Core._getNoiseBuffer random sampleRate cache (Some r)) in
      length buf = Z.to_nat sampleRate /\
      forall m k : Z,
        (0 <= m)%Z -> (m * step <= k < (m + 1) * step)%Z -> (k < sampleRate)%Z ->
        buf !! Z.to_nat k = Some (random (Z.to_nat (m * step)))).
Proof.
  intros Hr. split.
  - intros sr len step buf.
    assert (Hrb : Qle_bool r 0 = false).
    { destruct (Qle_bool r 0) eqn:E; [|reflexivity]. apply Qle_bool_iff in E. lra. }
    destruct (makeNoiseBuffer_hold random sampleRate r Hrb) as [Hlen Hk].
    split; [exact Hlen|]. split.
    + intros H1. unfold step. f_equal. apply Qfloor_comp.
      rewrite (Q.max_r 1 r) by exact H1. reflexivity.
    + intros m k Hm Hblock Hlt.
      assert (0 < step)%Z by (unfold step; lia).
      unfold buf. rewrite (Hk k) by nia. fold sr. fold step.
      rewrite (div_in_block step m k) by assumption. reflexivity.
  - intros cache key step Hmiss buf.
    destruct (getNoiseBuffer_miss random sampleRate cache (Some r) Hmiss) as [Hlen Hk].
    split; [exact Hlen|].
    intros m k Hm Hblock Hlt.
    assert (0 < step)%Z by (unfold step; lia).
    unfold buf. rewrite (Hk k) by nia.
    change (Z.max 20 (Qfloor (default 600%Q (Some r)))) with key. fold step.
    rewrite (div_in_block step m k) by assumption.
    f_equal. f_equal. f_equal. lia.
Qed.

Lemma thousand_pos : (0 < 1000)%Q.
Proof. reflexivity. Defined.

(** The theorem at 44100 Hz and [rateHz = 1000], samples labelled by draw
    number: the first block is the indices 0..43, the second starts at 44. *)
Lemma noise_buffer_hold_blocks_witness :
  let buf := Hardline.makeNoiseBuffer (fun k : nat => k) 44100 (Some 1000%Q) in
  length buf = Z.to_nat 88200 /\
  buf !! Z.to_nat 0 = Some 1%nat /\
  buf !! Z.to_nat 43 = Some 1%nat /\
  buf !! Z.to_nat 44 = Some 2%nat.
Proof.
  intros buf.
  destruct (noise_buffer_hold_blocks (fun k : nat => k) 44100 1000%Q thousand_pos)
    as [(Hlen & _ & Hrun) _].
  split; [exact Hlen|].
  split; [exact (Hrun 0%Z 0%Z ltac:(discriminate) ltac:(split; [discriminate|reflexivity]) ltac:(reflexivity))|].
  split; [exact (Hrun 0%Z 43%Z ltac:(discriminate) ltac:(split; [discriminate|reflexivity]) ltac:(reflexivity))|].
  exact (Hrun 1%Z 44%Z ltac:(discriminate) ltac:(split; [discriminate|reflexivity]) ltac:(reflexivity)).
Defined.

End BothSources.

(** * Further properties of the hardline engine *)

(** ** The scheduler queue *)
Section SchedulerFacts.
Import JS Hardline Transport.
Local Open Scope R_scope.

Lemma inTimeOrder_lookup (q : list (R * action)) (i j : nat) x y :
  inTimeOrder q -> (i <= j)%nat -> q !! i = Some x -> q !! j = Some y -> fst x <= fst y.
Proof.
  intros Hs. revert i j. induction Hs as [|a l Hs IH Hall]; intros i j Hij Hi Hj.
  - discriminate.
  - destruct i as [|i], j as [|j]; try lia.
    + cbn in Hi, Hj. injection Hi as <-. injection Hj as <-. lra.
    + cbn in Hi. injection Hi as <-.
      change ((a :: l) !! S j) with (l !! j) in Hj.
      apply (proj1 (Forall_forall _ _) Hall).
      eapply list_elem_of_lookup_2. exact Hj.
    + change ((a :: l) !! S i) with (l !! i) in Hi.
      change ((a :: l) !! S j) with (l !! j) in Hj.
      apply (IH i j); [lia|assumption|assumption].
Qed.

(** The backward scan stops at the first index, from the end, whose item is
    not later than [audioTime]. *)
Lemma insertIndex_scan (q : list (R * action)) (t : R) (n : nat) :
  (n <= length q)%nat ->
  (insertIndex q t n <= n)%nat /\
  (forall j x, (insertIndex q t n <= j < n)%nat -> q !! j = Some x -> t < fst x) /\
  (insertIndex q t n = 0%nat \/
   exists x, q !! (insertIndex q t n - 1)%nat = Some x /\ fst x <= t).
Proof.
  induction n as [|n IH]; intros Hn.
  - cbn [insertIndex]. split; [lia|]. split; [intros; lia|]. left. reflexivity.
  - cbn [insertIndex].
    destruct (lookup_lt_is_Some_2 q n ltac:(lia)) as [it Hit]. rewrite Hit.
    destruct (Rgt_dec (fst it) t) as [Hgt|Hle].
    + destruct (IH ltac:(lia)) as (H1 & H2 & H3).
      split; [lia|]. split; [|exact H3].
      intros j x Hj Hx. destruct (decide (j = n)) as [->|Hne].
      * rewrite Hit in Hx. injection Hx as <-. lra.
      * apply (H2 j x); [lia|exact Hx].
    + split; [lia|]. split; [intros; lia|]. right. exists it.
      replace (S n - 1)%nat with n by lia. split; [exact Hit|lra].
Qed.

(** Where [schedule] puts the new item. *)
Lemma schedule_split (t : R) (fn : action) (q : list (R * action)) :
  exists l1 l2,
    q = l1 ++ l2 /\
    schedule t fn q = l1 ++ (t, fn) :: l2 /\
    Forall (fun x => t < fst x) l2 /\
    (l1 = [] \/ exists l x, l1 = l ++ [x] /\ fst x <= t).
Proof.
  unfold schedule. cbv zeta. set (k := insertIndex q t (length q)).
  destruct (insertIndex_scan q t (length q) ltac:(lia)) as (Hk & Hlater & Hprev).
  fold k in Hk, Hlater, Hprev.
  exists (take k q), (drop k q).
  split; [symmetry; apply take_drop|]. split; [reflexivity|]. split.
  - apply Forall_forall. intros x Hx.
    apply list_elem_of_lookup_1 in Hx as [j Hj].
    rewrite lookup_drop in Hj.
    apply (Hlater (k + j)%nat x); [|exact Hj].
    apply lookup_lt_Some in Hj. lia.
  - destruct Hprev as [H0|(x & Hx & Hle)].
    + left. rewrite H0. reflexivity.
    + right. destruct k as [|k]; [exfalso|].
      * cbn in Hx. destruct q as [|a q]; [discriminate|]. cbn in Hk.
        (* k = 0 and an item at index 0 - 1 = 0: the scan would have passed it *)
        cbn in Hx. injection Hx as ->.
        assert (Hlt : t < fst x) by (apply (Hlater 0%nat x); [cbn; lia|reflexivity]). lra.
      * replace (S k - 1)%nat with k in Hx by lia.
        exists (take k q), x. split; [|exact Hle].
        apply take_S_r. exact Hx.
Qed.

Lemma schedule_inTimeOrder (t : R) (fn : action) (q : list (R * action)) :
  inTimeOrder q -> inTimeOrder (schedule t fn q).
Proof.
  intros Hs.
  destruct (schedule_split t fn q) as (l1 & l2 & Hq & -> & Hl2 & Hl1).
  subst q. unfold inTimeOrder in *.
  pose proof (StronglySorted_app_1_l _ _ _ Hs) as S1.
  pose proof (StronglySorted_app_1_r _ _ _ Hs) as S2.
  apply StronglySorted_app_2; [|exact S1|].
  - intros x1 x2 H1 H2.
    assert (Hx1 : fst x1 <= t).
    { destruct Hl1 as [->|(l & x & -> & Hx)]; [inversion H1|].
      apply elem_of_app in H1 as [H1|H1].
      - pose proof (StronglySorted_app_1_elem_of _ _ _ x1 x S1 H1
                      ltac:(apply list_elem_of_singleton; reflexivity)) as Hb.
        unfold byTime in Hb. lra.
      - apply list_elem_of_singleton in H1 as ->. exact Hx. }
    apply elem_of_cons in H2 as [->|H2].
    + unfold byTime. cbn [fst]. exact Hx1.
    + pose proof (proj1 (Forall_forall _ _) Hl2 x2 H2) as Hx2.
      unfold byTime. cbn beta in Hx2. lra.
  - constructor; [exact S2|].
    eapply Forall_impl; [exact Hl2|]. intros x Hx. unfold byTime. cbn [fst]. lra.
Qed.

Lemma schedule_Permutation (t : R) (fn : action) (q : list (R * action)) :
  schedule t fn q ≡ₚ (t, fn) :: q.
Proof.
  destruct (schedule_split t fn q) as (l1 & l2 & -> & -> & _).
  symmetry. apply Permutation_middle.
Qed.

(** X1: [schedule] keeps a queue in time order and adds the new item to it,
    nothing else: the new queue is the old one with the item inserted. *)
Theorem schedule_keeps_time_order (t : R) (fn : action) (q : list (R * action)) :
  inTimeOrder q ->
  inTimeOrder (schedule t fn q) /\
  schedule t fn q ≡ₚ (t, fn) :: q /\
  length (schedule t fn q) = S (length q).
Proof.
  intros Hs. split; [apply schedule_inTimeOrder; exact Hs|].
  split; [apply schedule_Permutation|].
  rewrite (Permutation_length (schedule_Permutation t fn q)). reflexivity.
Qed.

Lemma two_item_queue_in_order :
  inTimeOrder [(1, CleanupAction 1); (2, CleanupAction 2)].
Proof.
  repeat constructor; unfold byTime; cbn [fst]; lra.
Defined.

(** The theorem on the queue [1, 2] with a new item at time 1. *)
Lemma schedule_keeps_time_order_witness :
  inTimeOrder [(1, CleanupAction 1); (2, CleanupAction 2)] /\
  inTimeOrder (schedule 1 (CleanupAction 3) [(1, CleanupAction 1); (2, CleanupAction 2)]) /\
  schedule 1 (CleanupAction 3) [(1, CleanupAction 1); (2, CleanupAction 2)]
    ≡ₚ (1, CleanupAction 3) :: [(1, CleanupAction 1); (2, CleanupAction 2)] /\
  length (schedule 1 (CleanupAction 3) [(1, CleanupAction 1); (2, CleanupAction 2)]) = 3%nat.
Proof.
  split; [exact two_item_queue_in_order|].
  exact (schedule_keeps_time_order 1 (CleanupAction 3) _ two_item_queue_in_order).
Defined.

(** X2: the new item goes behind the last queued item that is not later than
    it, so items with equal times run in the order they were scheduled;
    the items already queued keep their order, and everything behind the
    new item is strictly later. *)
Theorem schedule_is_first_in_first_out (t : R) (fn : action) (q : list (R * action)) :
  exists l1 l2,
    q = l1 ++ l2 /\
    schedule t fn q = l1 ++ (t, fn) :: l2 /\
    Forall (fun x => t < fst x) l2 /\
    (l1 = [] \/ exists l x, l1 = l ++ [x] /\ fst x <= t).
Proof. apply schedule_split. Qed.

End SchedulerFacts.

(** ** The pump *)
Section PumpFacts.
Import JS Hardline Transport.
Local Open Scope R_scope.


Lemma playNote_queue st p info st' :
  playNote st p = Ok (info, st') ->
  exists t fn, queue st' = schedule t fn (queue st).
Proof.
  intros Hp.
  destruct (playNote_inv _ _ _ _ Hp) as (tones & tone & bus & _ & _ & _ & Hsv).
  pose proof (startVoice_queue st p tone (orFalsy (p_busKey p) "master")) as Hq.
  rewrite <- Hsv in Hq. cbn [snd] in Hq. eauto.
Qed.

(** What running one queued closure does to the queue: nothing, or one
    [schedule]. *)
Lemma runAction_queue st fn st' :
  runAction st fn = Ok st' ->
  queue st' = queue st \/ exists t fn', queue st' = schedule t fn' (queue st).
Proof.
  destruct fn as [h p|vid]; cbn [runAction].
  - destruct (match h with Some hid => bool_decide (hid ∈ stoppedSongs st) | None => false end).
    + intros [= <-]. left. reflexivity.
    + destruct (playNote st p) as [[info st1]|msg] eqn:Hp; [|discriminate].
      intros [= <-]. right. apply (playNote_queue st p info st1 Hp).
  - intros [= <-]. left. reflexivity.
Qed.


Lemma pumpWhile_keeps_later fuel tMax st x :
  x ∈ queue st -> tMax < fst x -> x ∈ queue (pumpWhile fuel tMax st).
Proof.
  revert st. induction fuel as [|fuel IH]; intros st Hx Hlater; [exact Hx|].
  cbn [pumpWhile]. destruct (queue st) as [|[t fn] rest] eqn:Hq.
  - rewrite Hq. exact Hx.
  - destruct (Rle_dec t tMax) as [Hle|Hgt]; [|rewrite Hq; exact Hx].
    cbv zeta. apply IH; [|exact Hlater].
    assert (Hrest : x ∈ rest).
    { apply elem_of_cons in Hx as [->|Hx]; [cbn [fst] in Hlater; lra|exact Hx]. }
    destruct (runAction (set_queue (fun _ => rest) st) fn) as [st'|msg] eqn:Hr.
    + destruct (runAction_queue _ _ _ Hr) as [->|(t' & fn' & ->)].
      * exact Hrest.
      * rewrite (schedule_Permutation t' fn' _). apply elem_of_cons. right. exact Hrest.
    + cbn [queue consoleError]. rewrite abandoned_queue. exact Hrest.
Qed.


(** *** What the pump runs *)



Lemma abandonedVoice_refs st p : sameRefs st (abandonedVoice st p).
Proof. repeat split. Qed.



























(** X4: the pump never drops or runs an item that is not yet due: an item
    later than [currentTime + lookaheadSec] is still queued afterwards; and
    a stopped scheduler's pump does nothing at all. *)
Theorem pump_keeps_what_is_not_due (st : engine) :
  (forall x, x ∈ queue st -> currentTime st + lookaheadSec st < fst x ->
             x ∈ queue (_pump st)) /\
  (running st = false -> _pump st = st).
Proof.
  split.
  - intros x Hx Hlater. unfold _pump. destruct (running st); [|exact Hx].
    cbv zeta. apply pumpWhile_keeps_later; assumption.
  - intros Hr. unfold _pump. rewrite Hr. reflexivity.
Qed.

End PumpFacts.

(** ** Transport stop *)
Section TransportFacts.
Import JS Hardline Transport.
Local Open Scope R_scope.

(** The loop of [stopAllVoices] only adds [stop] calls. *)
Lemma stopLoop_fields (t : R) (vids : list nat) (st : engine) :
  let st' := foldl (fun st vid => stopSource vid t st) st vids in
  queue st' = queue st /\ voices st' = voices st /\ activeMono st' = activeMono st /\
  running st' = running st /\ stoppedSongs st' = stoppedSongs st /\
  currentTime st' = currentTime st /\ voiceSerial st' = voiceSerial st /\
  lookaheadSec st' = lookaheadSec st /\
  (forall v, v ∈ vids -> (v, t) ∈ sourceStops st') /\
  (forall c, c ∈ sourceStops st -> c ∈ sourceStops st').
Proof.
  revert st. induction vids as [|v vids IH]; intros st; cbn [foldl].
  - repeat split; try reflexivity; [intros v Hv; inversion Hv|auto].
  - destruct (IH (stopSource v t st)) as (H1 & H2 & H3 & H4 & H5 & H6 & H7 & H8 & H9 & H10).
    cbv zeta. repeat split; try assumption.
    + intros w Hw. apply elem_of_cons in Hw as [->|Hw]; [|apply H9; exact Hw].
      apply H10. cbn [sourceStops stopSource]. apply elem_of_cons. left. reflexivity.
    + intros c Hc. apply H10. cbn [sourceStops stopSource]. apply elem_of_cons. right. exact Hc.
Qed.

(** What [stopAllVoices(t)] leaves of the engine. *)
Lemma stopAllVoices_fields_aux (t : R) (st : engine) :
  let st' := stopAllVoices (Some t) st in
  queue st' = queue st /\ voices st' = ∅ /\ activeMono st' = ∅ /\
  running st' = running st /\ stoppedSongs st' = stoppedSongs st /\
  (forall v, v ∈ voices st -> (v, t) ∈ sourceStops st').
Proof.
  intros st'. subst st'. unfold stopAllVoices. cbv zeta. cbn [default].
  destruct (stopLoop_fields t (elements (voices st)) st)
    as (H1 & _ & _ & H4 & H5 & _ & _ & _ & H9 & _).
  cbv zeta in H1, H4, H5, H9.
  cbn [queue voices activeMono running stoppedSongs sourceStops set_activeMono set_voices].
  repeat split; try assumption.
  intros v Hv. apply H9. apply elem_of_elements. exact Hv.
Qed.

(** X5: [stopAllVoices] stops the source of every tracked voice at the given
    time (10 ms from now when none is given) and empties the voice table
    and the mono slots; it leaves the scheduler queue as it is, so triggers
    that are already queued will still start their notes. *)
Theorem stopAllVoices_stops_tracked_voices_only (tStop : option R) (st : engine) :
  let t := default (currentTime st + 0.01) tStop in
  let st' := stopAllVoices tStop st in
  (forall v, v ∈ voices st -> (v, t) ∈ sourceStops st') /\
  voices st' = ∅ /\
  activeMono st' = ∅ /\
  queue st' = queue st /\
  running st' = running st.
Proof.
  intros t st'. subst st'. unfold stopAllVoices. cbv zeta. fold t.
  destruct (stopLoop_fields t (elements (voices st)) st)
    as (H1 & _ & _ & H4 & _ & _ & _ & _ & H9 & _).
  cbv zeta in H1, H4, H9.
  split.
  - intros v Hv. cbn [sourceStops set_activeMono set_voices]. apply H9.
    apply elem_of_elements. exact Hv.
  - split; [reflexivity|]. split; [reflexivity|].
    cbn [queue running set_activeMono set_voices]. split; assumption.
Qed.

(** X6: after [handle.stop()] the song is marked stopped, the scheduler queue
    is empty (every queued closure is flushed, those of other songs and
    phrases and the voice clean-ups included), every tracked voice has been
    told to stop 10 ms from now, no voice or mono slot is registered, the
    scheduler runs again exactly when the engine state is ['running'], and
    a later [pumpLoop] of the stopped song schedules nothing. *)
Theorem handle_stop_flushes_everything (h : SongHandle) (stateRunning : bool) (st : engine) :
  let hid := se_handle (h_env h) in
  let st' := handle_stop hid stateRunning st in
  hid ∈ stoppedSongs st' /\
  queue st' = [] /\
  voices st' = ∅ /\
  activeMono st' = ∅ /\
  running st' = stateRunning /\
  (forall v, v ∈ voices st -> (v, currentTime st + 0.01) ∈ sourceStops st') /\
  pumpLoop h st' = Some (h, st') /\
  _pump st' = st'.
Proof.
  intros hid st'. subst st'. unfold handle_stop. cbv zeta.
  set (st1 := if stateRunning
              then sched_start (sched_stop (set_stoppedSongs (union {[hid]}) st))
              else sched_stop (set_stoppedSongs (union {[hid]}) st)).
  assert (Hf : queue st1 = [] /\ voices st1 = voices st /\
               stoppedSongs st1 = {[hid]} ∪ stoppedSongs st /\
               running st1 = stateRunning /\ currentTime st1 = currentTime st).
  { unfold st1, sched_start, sched_stop. destruct stateRunning; repeat split. }
  destruct Hf as (Hq & Hv & Hs & Hr & Hc).
  destruct (stopAllVoices_fields_aux (currentTime st1 + 0.01) st1) as (G1 & G2 & G3 & G4 & G5 & G6).
  rewrite Hc in *.
  assert (Hin : hid ∈ stoppedSongs (stopAllVoices (Some (currentTime st + 0.01)) st1)).
  { rewrite G5, Hs. apply elem_of_union. left. apply elem_of_singleton. reflexivity. }
  split; [exact Hin|].
  split; [rewrite G1; exact Hq|].
  split; [exact G2|]. split; [exact G3|].
  split; [rewrite G4; exact Hr|].
  split; [intros v Hv'; apply G6; rewrite Hv; exact Hv'|].
  split.
  - unfold pumpLoop. destruct (h_loop h); [|reflexivity].
    fold hid. rewrite bool_decide_eq_true_2 by exact Hin. reflexivity.
  - unfold _pump. rewrite G1, Hq. destruct (running (stopAllVoices _ _)); reflexivity.
Qed.

End TransportFacts.

(** ** [clamp], and what [playNote] derives with it *)
Section NoteFacts.
Import JS AudioParam Hardline Transport.
Local Open Scope R_scope.

Lemma clamp_bounds (x : option num) (a b : R) : a <= b -> a <= clamp x a b <= b.
Proof.
  intros Hab. unfold clamp. destruct (Number x) as [| | |n]; try lra.
  unfold Rmax, Rmin. rdec.
Qed.

(** X7: [clamp(x, a, b)] with [a <= b] always answers inside [a, b]: a
    finite [x] inside the range is returned as it is, a finite [x] outside
    goes to the nearer bound, and [NaN], an infinity or a missing value
    give the lower bound [a]; clamping twice changes nothing. *)
Theorem clamp_stays_in_range (x : option num) (a b : R) :
  a <= b ->
  a <= clamp x a b <= b /\
  (forall n, x = Some (Fin n) -> a <= n <= b -> clamp x a b = n) /\
  (forall n, x = Some (Fin n) -> n < a -> clamp x a b = a) /\
  (forall n, x = Some (Fin n) -> b < n -> clamp x a b = b) /\
  (isFinite (Number x) = false -> clamp x a b = a) /\
  clamp (Some (Fin (clamp x a b))) a b = clamp x a b.
Proof.
  intros Hab. split; [apply clamp_bounds; exact Hab|].
  split; [intros n -> Hn; unfold clamp; cbn [Number]; unfold Rmin; destruct (Rle_dec b n); unfold Rmax; destruct (Rle_dec _ _); lra|].
  split; [intros n -> Hn; unfold clamp; cbn [Number]; unfold Rmin; destruct (Rle_dec b n); unfold Rmax; destruct (Rle_dec _ _); lra|].
  split; [intros n -> Hn; unfold clamp; cbn [Number]; unfold Rmin; destruct (Rle_dec b n); unfold Rmax; destruct (Rle_dec _ _); lra|].
  split.
  - intros Hf. unfold clamp. destruct (Number x); [reflexivity..|discriminate].
  - pose proof (clamp_bounds x a b Hab) as Hc.
    unfold clamp at 1. cbn [Number]. unfold Rmin. destruct (Rle_dec b _); unfold Rmax; destruct (Rle_dec _ _); lra.
Qed.

Lemma unit_interval : 0 <= 1.
Proof. lra. Defined.

(** The theorem for [clamp(NaN, 0, 1)]. *)
Lemma clamp_stays_in_range_witness :
  0 <= 1 /\
  0 <= clamp (Some NaN) 0 1 <= 1 /\
  (forall n, Some NaN = Some (Fin n) -> 0 <= n <= 1 -> clamp (Some NaN) 0 1 = n) /\
  (forall n, Some NaN = Some (Fin n) -> n < 0 -> clamp (Some NaN) 0 1 = 0) /\
  (forall n, Some NaN = Some (Fin n) -> 1 < n -> clamp (Some NaN) 0 1 = 1) /\
  (isFinite (Number (Some NaN)) = false -> clamp (Some NaN) 0 1 = 0) /\
  clamp (Some (Fin (clamp (Some NaN) 0 1))) 0 1 = clamp (Some NaN) 0 1.
Proof.
  split; [exact unit_interval|].
  exact (clamp_stays_in_range (Some NaN) 0 1 unit_interval).
Defined.

Lemma noteTiming_bounds (now : R) (tone : ToneDef) (p : NoteParams) :
  let tm := noteTiming now tone p in
  tm_t0 tm <= tm_tA tm <= tm_t0 tm + 4 /\
  tm_tA tm <= tm_tD tm <= tm_tA tm + 4 /\
  tm_t0 tm + 0.001 <= tm_tOff tm /\
  tm_tOff tm + 0.001 <= tm_tR tm <= tm_tOff tm + 6 /\
  0.0002 <= tm_susLevel tm <= tm_peak tm.
Proof.
  intros tm. subst tm. unfold noteTiming. cbv zeta.
  cbn [tm_t0 tm_tA tm_tD tm_tOff tm_tR tm_susLevel tm_peak].
  set (attack := numOr (nullish (env_attack _) (env_a _)) 0.005).
  set (decay := numOr (nullish (env_decay _) (env_d _)) 0.03).
  set (sustain := numOr (nullish (env_sustain _) (env_s _)) 0.7).
  set (release := numOr (nullish (env_release _) (env_r _)) 0.06).
  set (v := clamp (Some (Fin (numOr (p_v p) 1))) 0 1).
  pose proof (clamp_bounds (Some (Fin attack)) 0 4 ltac:(lra)) as Ha.
  pose proof (clamp_bounds (Some (Fin decay)) 0 4 ltac:(lra)) as Hd.
  pose proof (clamp_bounds (Some (Fin sustain)) 0 1 ltac:(lra)) as Hs.
  pose proof (clamp_bounds (Some (Fin release)) 0.001 6 ltac:(lra)) as Hr.
  pose proof (noteDSec_lower p) as Hlen.
  set (peak := Rmax 0.0002 (numOr (tone_gain tone) 0.8 * v)).
  assert (Hp : 0.0002 <= peak) by apply Rmax_l.
  repeat split; try lra.
  - apply Rmax_l.
  - apply Rmax_lub; [exact Hp|]. nra.
Qed.

(** X8: whatever the tone and the parameters hold (missing, [NaN],
    infinite or out-of-range numbers included), the times and levels
    [playNote] derives are in order: attack and decay last between 0 and
    4 s each, the release between 1 ms and 6 s, the note-off is at least
    1 ms after the onset, and [0.0002 <= susLevel <= peak]. *)
Theorem playNote_timing_is_ordered (now : R) (tone : ToneDef) (p : NoteParams) :
  let tm := noteTiming now tone p in
  tm_t0 tm <= tm_tA tm <= tm_t0 tm + 4 /\
  tm_tA tm <= tm_tD tm <= tm_tA tm + 4 /\
  tm_t0 tm + 0.001 <= tm_tOff tm /\
  tm_tOff tm + 0.001 <= tm_tR tm <= tm_tOff tm + 6 /\
  0.0002 <= tm_susLevel tm <= tm_peak tm.
Proof. apply noteTiming_bounds. Qed.

(** *** The gain automation never reaches zero *)

Lemma insertEvent_Forall (P : event -> Prop) (e : event) (evs : list event) :
  P e -> Forall P evs -> Forall P (insertEvent e evs).
Proof.
  intros He Hall. induction Hall as [|x l Hx Hl IH]; cbn [insertEvent].
  - constructor; [exact He|constructor].
  - destruct (Rlt_dec (time e) (time x)); [repeat constructor; assumption|].
    destruct (Req_dec_T (time e) (time x)).
    + destruct (sameKind e x); constructor; assumption.
    + constructor; assumption.
Qed.

Lemma cancelScheduledValues_Forall (P : event -> Prop) (tc : R) (evs : list event) :
  Forall P evs -> Forall P (cancelScheduledValues tc evs).
Proof.
  intros Hall. induction Hall as [|x l Hx Hl IH]; cbn [cancelScheduledValues].
  - constructor.
  - destruct (Rlt_dec (time x) tc); [constructor|]; assumption.
Qed.

Lemma scheduleADSR_Forall (P : event -> Prop) canCancel peak sus t0 tA tD tOff tR :
  P (SetValue 0.0001 t0) -> P (ExpRamp peak tA) -> P (ExpRamp sus tD) ->
  (forall level, P (SetValue (Rmax g0 level) tOff)) -> P (SetValue sus tOff) ->
  P (ExpRamp g0 tR) ->
  Forall P (scheduleADSR canCancel peak sus t0 tA tD tOff tR).
Proof.
  intros H1 H2 H3 H4 H5 H6.
  unfold scheduleADSR, setValueAtTime, exponentialRampToValueAtTime. cbv zeta.
  assert (Hbase : Forall P (insertEvent (ExpRamp sus tD)
                   (insertEvent (ExpRamp peak tA) (insertEvent (SetValue 0.0001 t0) [])))).
  { repeat apply insertEvent_Forall; try assumption. constructor. }
  destruct (Rle_dec tOff tD).
  - apply insertEvent_Forall; [exact H6|].
    apply insertEvent_Forall; [apply H4|].
    destruct canCancel; [apply cancelScheduledValues_Forall|]; exact Hbase.
  - apply insertEvent_Forall; [exact H6|].
    apply insertEvent_Forall; [exact H5|]. exact Hbase.
Qed.

(** X9: every value a successful [playNote] schedules on the voice's gain
    is at least the floor 0.0001, so no exponential ramp is ever given a
    zero or negative target, and no event is scheduled before the note's
    start time. *)
Theorem playNote_gain_stays_positive (st : engine) (p : NoteParams) info st' :
  playNote st p = Ok (info, st') ->
  exists G,
    gainTimeline st' !! voiceId info = Some G /\
    Forall (fun e => 0.0001 <= value e /\ t0 info <= time e) G.
Proof.
  intros Hp. destruct (playNote_inv st p info st' Hp) as (tones & tone & bus & _ & _ & _ & Hsv).
  pose proof (startVoice_info st p tone (orFalsy (p_busKey p) "master")) as Hi.
  pose proof (startVoice_gain st p tone (orFalsy (p_busKey p) "master")) as Hg.
  rewrite <- Hsv in Hi, Hg. cbn [fst snd] in Hi, Hg. cbv zeta in Hi, Hg.
  eexists. split.
  - rewrite Hi. cbn [voiceId]. exact Hg.
  - rewrite Hi. cbn [t0].
    destruct (noteTiming_bounds (currentTime st) tone p) as (B1 & B2 & B3 & B4 & B5).
    cbv zeta in B1, B2, B3, B4, B5.
    apply scheduleADSR_Forall; cbn [value time]; unfold g0; try lra.
    intros level. split; [apply Rmax_l|lra].
Qed.

(** The theorem at the early note-off on the demo engine. *)
Lemma playNote_gain_stays_positive_witness :
  exists info st',
    playNote demoEngine earlyOff = Ok (info, st') /\
    exists G,
      gainTimeline st' !! voiceId info = Some G /\
      Forall (fun e => 0.0001 <= value e /\ t0 info <= time e) G.
Proof.
  exists (fst (startVoice demoEngine earlyOff leadTone "master")),
         (snd (startVoice demoEngine earlyOff leadTone "master")).
  assert (H : playNote demoEngine earlyOff =
              Ok (fst (startVoice demoEngine earlyOff leadTone "master"),
                  snd (startVoice demoEngine earlyOff leadTone "master"))).
  { rewrite (playNote_lead earlyOff eq_refl eq_refl).
    destruct (startVoice demoEngine earlyOff leadTone "master"); reflexivity. }
  split; [exact H|].
  exact (playNote_gain_stays_positive demoEngine earlyOff _ _ H).
Defined.

End NoteFacts.

(** ** Voice bookkeeping of [playNote] *)
Section VoiceFacts.
Import JS AudioParam Hardline Transport.
Local Open Scope R_scope.

(** The [stop] calls of one trigger: the hard stop of the new voice, and
    before it the stop of the voice that held the mono slot. *)
Lemma startVoice_sourceStops st p tone bk :
  let tm := noteTiming (currentTime st) tone p in
  sourceStops (snd (startVoice st p tone bk)) =
  ((voiceSerial st, tm_tR tm + 0.02) ::
   (match default poly (tone_mono tone), activeMono st !! p_toneId p with
    | poly, _ | _, None => sourceStops st
    | _, Some prev =>
        (stopper prev, tm_t0 tm + default 12 (tone_monoCutMs tone) / 1000) :: sourceStops st
    end)).
Proof.
  intros tm. unfold startVoice, monoSteal. fold tm. cbv zeta.
  destruct (default poly (tone_mono tone)); try reflexivity;
    destruct (activeMono st !! p_toneId p); reflexivity.
Qed.

(** A trigger keeps the ids in use below the serial. *)
Lemma startVoice_allocated st p tone bk :
  voicesAllocated st -> voicesAllocated (snd (startVoice st p tone bk)).
Proof.
  intros [Hv Hm].
  pose proof (startVoice_voices st p tone bk) as Hvs.
  pose proof (startVoice_voiceSerial st p tone bk) as Hser.
  split.
  - intros v Hin. rewrite Hvs in Hin. rewrite Hser.
    apply elem_of_union in Hin as [Hin|Hin].
    + apply elem_of_singleton in Hin. lia.
    + apply Hv in Hin. lia.
  - intros k slot Hk. rewrite Hser.
    assert (Hslot : activeMono (snd (startVoice st p tone bk)) = activeMono st \/
                    activeMono (snd (startVoice st p tone bk)) =
                    <[ p_toneId p :=
                         {| stopAt := tm_tR (noteTiming (currentTime st) tone p);
                            stopper := voiceSerial st |} ]> (activeMono st)).
    { destruct (default poly (tone_mono tone)) eqn:Hmode.
      - left. exact (startVoice_poly_slot st p tone bk Hmode).
      - right. apply startVoice_mono_slot. rewrite Hmode. discriminate.
      - right. apply startVoice_mono_slot. rewrite Hmode. discriminate. }
    destruct Hslot as [Ha|Ha]; rewrite Ha in Hk.
    + apply Hm in Hk. lia.
    + destruct (decide (k = p_toneId p)) as [->|Hne].
      * rewrite lookup_insert_eq in Hk. injection Hk as <-. cbn [stopper]. lia.
      * rewrite lookup_insert_ne in Hk by congruence. apply Hm in Hk. lia.
Qed.

(** X10: a [playNote] that returns allocates the next voice id, which no
    tracked voice has; it adds that id to the voice table, queues exactly
    one closure, the clean-up of that id at [tR + 0.10], and orders the
    hard stop of the new source at [tR + 0.02].  When the queued clean-up
    later runs, the voice table is as it was before the note. *)
Theorem playNote_allocates_a_fresh_voice (st : engine) (p : NoteParams) info st' :
  voicesAllocated st ->
  playNote st p = Ok (info, st') ->
  voiceId info = voiceSerial st /\
  (voiceId info ∉ voices st) /\
  voiceSerial st' = S (voiceSerial st) /\
  voices st' = {[ voiceId info ]} ∪ voices st /\
  queue st' = schedule (tR info + 0.10) (CleanupAction (voiceId info)) (queue st) /\
  (voiceId info, tR info + 0.02) ∈ sourceStops st' /\
  voicesAllocated st' /\
  exists st'',
    runAction st' (CleanupAction (voiceId info)) = Ok st'' /\
    voices st'' = voices st.
Proof.
  intros [Hv Hm] Hp.
  destruct (playNote_inv st p info st' Hp) as (tones & tone & bus & _ & _ & _ & Hsv).
  set (bk := orFalsy (p_busKey p) "master") in *.
  pose proof (startVoice_info st p tone bk) as Hi.
  pose proof (startVoice_voices st p tone bk) as Hvs.
  pose proof (startVoice_queue st p tone bk) as Hq.
  pose proof (startVoice_voiceSerial st p tone bk) as Hser.
  pose proof (startVoice_sourceStops st p tone bk) as Hstop.
  rewrite <- Hsv in Hi, Hvs, Hq, Hser, Hstop.
  cbn [fst snd] in Hi, Hvs, Hq, Hser, Hstop. cbv zeta in Hi, Hstop.
  assert (Hid : voiceId info = voiceSerial st) by (rewrite Hi; reflexivity).
  assert (HtR : tR info = tm_tR (noteTiming (currentTime st) tone p)) by (rewrite Hi; reflexivity).
  assert (Hfresh : voiceId info ∉ voices st).
  { intros Hin. apply Hv in Hin. lia. }
  split; [exact Hid|]. split; [exact Hfresh|]. split; [exact Hser|].
  split; [rewrite Hid; exact Hvs|].
  split; [rewrite Hid, HtR; exact Hq|].
  split; [rewrite Hstop, Hid, HtR; apply elem_of_cons; left; reflexivity|].
  split.
  - pose proof (startVoice_allocated st p tone bk (conj Hv Hm)) as Hal.
    rewrite <- Hsv in Hal. exact Hal.
  - eexists. split; [reflexivity|].
    cbn [voices set_voices]. rewrite Hvs, Hid.
    apply set_eq. intros v. rewrite elem_of_difference, elem_of_union, elem_of_singleton.
    split.
    + intros [[->|Hin] Hne]; [congruence|exact Hin].
    + intros Hin. split; [right; exact Hin|].
      intros ->. apply Hv in Hin. lia.
Qed.

Lemma demoEngine_allocated : voicesAllocated demoEngine.
Proof.
  split.
  - intros v Hv. cbn [voices demoEngine] in Hv. apply elem_of_empty in Hv. destruct Hv.
  - intros k slot Hk. cbn [activeMono demoEngine] in Hk. rewrite lookup_empty in Hk.
    discriminate.
Defined.

Lemma playNote_demo_bass :
  playNote demoEngine bassNote =
  Ok (fst (startVoice demoEngine bassNote bassTone "master"),
      snd (startVoice demoEngine bassNote bassTone "master")).
Proof.
  rewrite (playNote_bass bassNote eq_refl eq_refl).
  destruct (startVoice demoEngine bassNote bassTone "master"); reflexivity.
Defined.

(** The theorem at a bass note on the demo engine. *)
Lemma playNote_allocates_a_fresh_voice_witness :
  voicesAllocated demoEngine /\
  exists info st',
    playNote demoEngine bassNote = Ok (info, st') /\
    voiceId info = voiceSerial demoEngine /\
    (voiceId info ∉ voices demoEngine) /\
    voiceSerial st' = S (voiceSerial demoEngine) /\
    voices st' = {[ voiceId info ]} ∪ voices demoEngine /\
    queue st' = schedule (tR info + 0.10) (CleanupAction (voiceId info)) (queue demoEngine) /\
    (voiceId info, tR info + 0.02) ∈ sourceStops st' /\
    voicesAllocated st' /\
    exists st'',
      runAction st' (CleanupAction (voiceId info)) = Ok st'' /\
      voices st'' = voices demoEngine.
Proof.
  split; [exact demoEngine_allocated|].
  eexists _, _. split; [exact playNote_demo_bass|].
  exact (playNote_allocates_a_fresh_voice demoEngine bassNote _ _
           demoEngine_allocated playNote_demo_bass).
Defined.

(** X11: mono stealing.  A trigger of a tone whose mode is not ['poly'], while
    a voice holds the tone's slot, stops that voice [monoCutMs] (12 when
    absent) milliseconds after the new note's start; besides that and the
    hard stop of its own voice, [playNote] stops nothing.  A ['poly'] tone
    never stops another voice. *)
Theorem playNote_steals_only_its_own_slot (st : engine) (p : NoteParams) info st' :
  playNote st p = Ok (info, st') ->
  exists tones tone,
    toneBank st = Some tones /\ tones !! p_toneId p = Some tone /\
    sourceStops st' =
    ((voiceId info, tR info + 0.02) ::
     (match default poly (tone_mono tone), activeMono st !! p_toneId p with
      | poly, _ | _, None => sourceStops st
      | _, Some prev =>
          (stopper prev, t0 info + default 12 (tone_monoCutMs tone) / 1000) :: sourceStops st
      end)).
Proof.
  intros Hp.
  destruct (playNote_inv st p info st' Hp) as (tones & tone & bus & Hb & Ht & _ & Hsv).
  exists tones, tone. split; [exact Hb|]. split; [exact Ht|].
  pose proof (startVoice_info st p tone (orFalsy (p_busKey p) "master")) as Hi.
  pose proof (startVoice_sourceStops st p tone (orFalsy (p_busKey p) "master")) as Hstop.
  rewrite <- Hsv in Hi, Hstop. cbn [fst snd] in Hi, Hstop. cbv zeta in Hi, Hstop.
  rewrite Hstop, Hi. reflexivity.
Qed.

(** The theorem at the second of two bass notes on the demo engine: the
    first voice (id 1) is stopped 12 ms after the second note's start. *)
Lemma playNote_steals_only_its_own_slot_witness :
  let st1 := snd (startVoice demoEngine bassNote bassTone "master") in
  exists info st2,
    playNote st1 bassNote = Ok (info, st2) /\
    sourceStops st2 =
      (voiceId info, tR info + 0.02) :: (1%nat, t0 info + 12 / 1000) :: sourceStops st1.
Proof.
  intros st1.
  assert (Hbank : toneBank st1 = toneBank demoEngine /\ buses st1 = buses demoEngine).
  { unfold st1, startVoice, monoSteal. cbn. split; reflexivity. }
  destruct Hbank as [Hbank Hbus].
  assert (Hp : playNote st1 bassNote =
               Ok (fst (startVoice st1 bassNote bassTone "master"),
                   snd (startVoice st1 bassNote bassTone "master"))).
  { unfold playNote. cbv zeta. rewrite Hbank, Hbus. cbn [toneBank buses demoEngine p_toneId bassNote].
    rewrite (tonesGet_own _ _ bassTone)
      by (rewrite lookup_insert_ne by discriminate; apply lookup_insert_eq).
    cbn [orFalsy p_busKey bassNote]. rewrite lookup_insert_eq.
    destruct (startVoice st1 bassNote bassTone "master"); reflexivity. }
  eexists _, _. split; [exact Hp|].
  destruct (playNote_steals_only_its_own_slot st1 bassNote _ _ Hp)
    as (tones & tone & Hb & Ht & Hstop).
  assert (Htone : tone = bassTone).
  { rewrite Hbank in Hb. cbn [toneBank demoEngine] in Hb. injection Hb as <-.
    cbn [p_toneId bassNote] in Ht.
    rewrite lookup_insert_ne in Ht by discriminate. rewrite lookup_insert_eq in Ht.
    congruence. }
  subst tone. rewrite Hstop.
  assert (Hslot : activeMono st1 !! p_toneId bassNote =
                  Some {| stopAt := tm_tR (noteTiming (currentTime demoEngine) bassTone bassNote);
                          stopper := 1 |}).
  { unfold st1. rewrite startVoice_mono_slot by discriminate.
    apply lookup_insert_eq. }
  rewrite Hslot. reflexivity.
Defined.

End VoiceFacts.

(** ** Voice ids across a pump; phrases *)
Section PhraseFacts.
Import JS AudioParam Hardline Transport.
Local Open Scope R_scope.

Lemma runAction_allocated st fn st' :
  voicesAllocated st -> runAction st fn = Ok st' ->
  voicesAllocated st' /\ (voiceSerial st <= voiceSerial st')%nat.
Proof.
  intros Hal. destruct fn as [h p|vid]; cbn [runAction].
  - destruct (match h with Some hid => bool_decide (hid ∈ stoppedSongs st) | None => false end).
    + intros [= <-]. split; [exact Hal|lia].
    + destruct (playNote st p) as [[info st1]|msg] eqn:Hp; [|discriminate].
      intros [= <-].
      destruct (playNote_inv st p info st1 Hp) as (tones & tone & bus & _ & _ & _ & Hsv).
      pose proof (startVoice_allocated st p tone (orFalsy (p_busKey p) "master") Hal) as H1.
      pose proof (startVoice_voiceSerial st p tone (orFalsy (p_busKey p) "master")) as H2.
      rewrite <- Hsv in H1, H2. cbn [snd] in H1, H2. split; [exact H1|lia].
  - intros [= <-]. split; [|cbn [voiceSerial set_voices]; lia].
    destruct Hal as [Hv Hm]. split.
    + intros v Hin. cbn [voices voiceSerial set_voices] in *.
      apply elem_of_difference in Hin as [Hin _]. apply Hv. exact Hin.
    + exact Hm.
Qed.

Lemma abandoned_allocated st fn :
  voicesAllocated st -> voicesAllocated (abandoned st fn).
Proof.
  intros [Hv Hm]. pose proof (abandoned_voiceSerial st fn) as Hs. split.
  - intros v Hin. rewrite abandoned_voices in Hin. specialize (Hv v Hin). lia.
  - intros k slot Hk. rewrite abandoned_activeMono in Hk. specialize (Hm k slot Hk). lia.
Qed.

Lemma pumpWhile_allocated fuel tMax st :
  voicesAllocated st ->
  voicesAllocated (pumpWhile fuel tMax st) /\
  (voiceSerial st <= voiceSerial (pumpWhile fuel tMax st))%nat.
Proof.
  revert st. induction fuel as [|fuel IH]; intros st Hal; [split; [exact Hal|cbn; lia]|].
  cbn [pumpWhile]. destruct (queue st) as [|[t fn] rest] eqn:Hq; [split; [exact Hal|lia]|].
  destruct (Rle_dec t tMax); [|split; [exact Hal|lia]].
  cbv zeta.
  assert (Hal1 : voicesAllocated (set_queue (fun _ => rest) st)) by exact Hal.
  destruct (runAction (set_queue (fun _ => rest) st) fn) as [st'|msg] eqn:Hr.
  - destruct (runAction_allocated _ _ _ Hal1 Hr) as [H1 H2].
    destruct (IH st' H1) as [H3 H4]. split; [exact H3|].
    cbn [voiceSerial set_queue] in H2. lia.
  - pose proof (abandoned_allocated _ fn Hal1) as Hal2.
    pose proof (abandoned_voiceSerial (set_queue (fun _ => rest) st) fn) as Hs.
    destruct (IH (consoleError ("[SQAE] scheduled fn error: " +:+ msg)
                    (abandoned (set_queue (fun _ => rest) st) fn)) Hal2) as [H3 H4].
    split; [exact H3|]. cbn [voiceSerial consoleError set_queue] in H4, Hs. lia.
Qed.

(** X12: voice ids are never reused.  If every id in use (tracked voices,
    stoppers of the mono slots) is below [_voiceSerial], that is still so
    after a pump, however many notes and clean-ups it ran, and the serial
    has not gone down. *)
Theorem pump_never_reuses_voice_ids (st : engine) :
  voicesAllocated st ->
  voicesAllocated (_pump st) /\ (voiceSerial st <= voiceSerial (_pump st))%nat.
Proof.
  intros Hal. unfold _pump. destruct (running st); [|split; [exact Hal|lia]].
  cbv zeta. apply pumpWhile_allocated. exact Hal.
Qed.

Lemma queuedEngine_allocated : voicesAllocated queuedEngine.
Proof.
  split.
  - intros v Hv. cbn in Hv. apply elem_of_empty in Hv. destruct Hv.
  - intros k slot Hk. cbn in Hk. rewrite lookup_empty in Hk. discriminate.
Defined.

(** The theorem on the demo engine with one queued trigger. *)
Lemma pump_never_reuses_voice_ids_witness :
  voicesAllocated queuedEngine /\
  voicesAllocated (_pump queuedEngine) /\
  (voiceSerial queuedEngine <= voiceSerial (_pump queuedEngine))%nat.
Proof.
  split; [exact queuedEngine_allocated|].
  exact (pump_never_reuses_voice_ids queuedEngine queuedEngine_allocated).
Defined.

(** *** [playPhrase] *)

(** What one event of a phrase adds to the queue. *)
Lemma phraseEvent_step tStart beatSec bkd tid q ev :
  (hasTone tid ev = false /\ phraseEvent tStart beatSec bkd tid q ev = q) \/
  (hasTone tid ev = true /\
   exists p d,
     phraseEvent tStart beatSec bkd tid q ev =
       schedule (tStart + default 0 (ev_t ev) * beatSec) (PlayNoteAction None p) q /\
     p_t0 p = Some (tStart + default 0 (ev_t ev) * beatSec) /\
     p_dSec p = Some (Fin d) /\ 0.001 <= d).
Proof.
  unfold phraseEvent, hasTone. cbv zeta.
  destruct (truthy (orNull (ev_toneId ev) tid)) as [toneId|]; [right|left; auto].
  split; [reflexivity|]. eexists _, _. split; [reflexivity|].
  cbn [p_t0 p_dSec]. split; [reflexivity|]. split; [reflexivity|]. apply Rmax_l.
Qed.

Lemma phraseEvents_fold tStart beatSec bkd tid (evs : list PhraseEvent) :
  forall q,
    let q' := foldl (phraseEvent tStart beatSec bkd tid) q evs in
    length q' = (length q + length (List.filter (hasTone tid) evs))%nat /\
    (inTimeOrder q -> inTimeOrder q') /\
    (forall x, x ∈ q' -> x ∈ q \/ phraseTrigger x) /\
    (forall x, x ∈ q -> x ∈ q').
Proof.
  induction evs as [|ev evs IH]; intros q; cbn [foldl List.filter].
  - cbv zeta. repeat split; auto; lia.
  - cbv zeta. destruct (IH (phraseEvent tStart beatSec bkd tid q ev)) as (H1 & H2 & H3 & H4).
    cbv zeta in H1, H2, H3, H4.
    destruct (phraseEvent_step tStart beatSec bkd tid q ev)
      as [[Hno Heq]|(Hyes & p & d & Heq & Ht & Hd & Hd1)]; rewrite Heq in *.
    + rewrite Hno. repeat split; assumption.
    + rewrite Hyes. cbn [length]. split.
      { rewrite H1. rewrite (Permutation_length (schedule_Permutation _ _ q)). cbn [length]. lia. }
      split; [intros Hs; apply H2, schedule_inTimeOrder, Hs|].
      split.
      * intros x Hx. destruct (H3 x Hx) as [Hin|Htr]; [|right; exact Htr].
        rewrite (schedule_Permutation _ _ q) in Hin.
        apply elem_of_cons in Hin as [->|Hin]; [right|left; exact Hin].
        exists p, d. cbn [fst snd]. auto.
      * intros x Hx. apply H4. rewrite (schedule_Permutation _ _ q).
        apply elem_of_cons. right. exact Hx.
Qed.

(** X13: [playPhrase] only queues.  It always returns; [count] is the number
    of events of the phrase, skipped ones included; the queue gains one
    trigger for every event that names a tone (itself or through
    [opts.toneId]) and loses nothing; each new trigger starts at its queue
    time and lasts at least 1 ms; a queue in time order stays so; and no
    voice is started, stopped or registered by the call itself. *)
Theorem playPhrase_only_queues (st : engine) (phrase : option Phrase) (opts : PhraseOpts) :
  exists info st',
    playPhrase st phrase opts = Ok (info, st') /\
    let events := ph_events (default {| ph_tempo := None; ph_events := [] |} phrase) in
    pi_count info = length events /\
    length (queue st') =
      (length (queue st) + length (List.filter (hasTone (po_toneId opts)) events))%nat /\
    (forall x, x ∈ queue st -> x ∈ queue st') /\
    (forall x, x ∈ queue st' -> x ∈ queue st \/ phraseTrigger x) /\
    (inTimeOrder (queue st) -> inTimeOrder (queue st')) /\
    voices st' = voices st /\ activeMono st' = activeMono st /\
    voiceSerial st' = voiceSerial st /\ sourceStops st' = sourceStops st /\
    gainTimeline st' = gainTimeline st /\ console st' = console st.
Proof.
  unfold playPhrase. cbv zeta. eexists _, _. split; [reflexivity|].
  cbn [pi_count queue set_queue voices activeMono voiceSerial sourceStops gainTimeline console].
  set (events := ph_events (default {| ph_tempo := None; ph_events := [] |} phrase)).
  match goal with
  | |- context [foldl (phraseEvent ?a ?b ?c ?d) (queue st) events] =>
      destruct (phraseEvents_fold a b c d events (queue st)) as (H1 & H2 & H3 & H4)
  end.
  cbv zeta in H1, H2, H3, H4.
  split; [reflexivity|]. split; [exact H1|]. split; [exact H4|]. split; [exact H3|].
  split; [exact H2|]. repeat split.
Qed.

End PhraseFacts.

(** ** Songs *)
Section SongFacts.
Import JS AudioParam Hardline Transport.
Local Open Scope R_scope.

(** X14: one [pumpLoop] of a live looping song fills the horizon
    [tMax = currentTime + lookaheadSec + loopLeadSec]: it returns with the
    counter at the first index [j] whose window starts after [tMax], every
    window it queued starts at or before [tMax], and a second [pumpLoop] at
    the same clock queues nothing, so no window is queued twice. *)
Theorem pumpLoop_fills_the_horizon (h : SongHandle) (st : engine) (ls : LoopState) :
  h_loop h = Some ls ->
  0 < loopLenSec ls ->
  se_handle (h_env h) ∉ stoppedSongs st ->
  let tMax := currentTime st + lookaheadSec st + loopLeadSec ls in
  exists j h' st',
    pumpLoop h st = Some (h', st') /\
    h_loop h' = Some (with_nextLoopI j ls) /\
    (nextLoopI ls <= j)%nat /\
    (forall k, (nextLoopI ls <= k < j)%nat -> nextLoopT ls k <= tMax) /\
    tMax < nextLoopT ls j /\
    pumpLoop h' st' = Some (h', st').
Proof.
  intros Hl HL Hs tMax. unfold pumpLoop at 1. rewrite Hl.
  rewrite bool_decide_eq_false_2 by exact Hs. cbv zeta. fold tMax. unfold loopFuel.
  destruct (loopWhile_run (h_env h) ls tMax _ (nextLoopI ls) (queue st)
              (loopFuel_enough ls tMax (nextLoopI ls) HL)) as (j & Hrun & Hij & Hk & Hj).
  rewrite Hrun. eexists j, _, _. split; [reflexivity|].
  cbn [h_loop]. split; [reflexivity|]. split; [exact Hij|]. split; [exact Hk|].
  split; [lra|].
  unfold pumpLoop. cbn [h_loop h_env stoppedSongs set_queue].
  rewrite bool_decide_eq_false_2 by exact Hs. cbv zeta.
  cbn [currentTime lookaheadSec loopLeadSec with_nextLoopI nextLoopI queue set_queue].
  fold tMax. unfold loopFuel. rewrite loopWhile_S.
  assert (Hn : nextLoopT (with_nextLoopI j ls) j = nextLoopT ls j) by reflexivity.
  rewrite Hn. destruct (Rle_dec (nextLoopT ls j) tMax); [lra|]. reflexivity.
Qed.

Lemma slowSong_len_pos :
  0 < loopLenSec (initialLoop demoEngine (Some slowSong) noSongOpts 0 4).
Proof. apply initialLoop_len_pos. lra. Defined.

(** The theorem for the first pump of the slow song on the demo engine. *)
Lemma pumpLoop_fills_the_horizon_witness :
  let ls := initialLoop demoEngine (Some slowSong) noSongOpts 0 4 in
  let h := {| h_env := songEnv 7 (Some slowSong) noSongOpts; h_loop := Some ls |} in
  let tMax := currentTime demoEngine + lookaheadSec demoEngine + loopLeadSec ls in
  exists j h' st',
    pumpLoop h demoEngine = Some (h', st') /\
    h_loop h' = Some (with_nextLoopI j ls) /\
    (nextLoopI ls <= j)%nat /\
    (forall k, (nextLoopI ls <= k < j)%nat -> nextLoopT ls k <= tMax) /\
    tMax < nextLoopT ls j /\
    pumpLoop h' st' = Some (h', st').
Proof.
  exact (pumpLoop_fills_the_horizon
           {| h_env := songEnv 7 (Some slowSong) noSongOpts;
              h_loop := Some (initialLoop demoEngine (Some slowSong) noSongOpts 0 4) |}
           demoEngine (initialLoop demoEngine (Some slowSong) noSongOpts 0 4)
           eq_refl slowSong_len_pos demo_fresh_handle).
Defined.

Lemma scheduleEvent_outside env tBase beatShift w base bk tid q ev :
  outsideWindow w (default 0 (ev_t ev)) = true ->
  scheduleEvent env tBase beatShift (Some w) base bk tid q ev = q.
Proof. intros Ho. unfold scheduleEvent. cbv zeta. rewrite Ho. reflexivity. Qed.

(** X15: the one-shot part of a looping song (end of the loop at beat
    [lend >= 0]) passes over the events twice, with the windows
    [0 .. lend) and [lend .. infinity): an event at a negative beat is
    queued by neither pass, so a looping song never plays it; an event in
    [0 .. lend) is not queued again by the second pass and an event at or
    after [lend] is not queued by the first.  Without a loop the same
    event, if it names a tone, is queued whatever its beat. *)
Theorem looping_song_drops_negative_beats (env : SongEnv) (tBase lend : R)
    (bk : string) (tid : option string) (ev : PhraseEvent) :
  0 <= lend ->
  let bt := default 0 (ev_t ev) in
  let first := fun q =>
    scheduleEvent env tBase 0 (Some {| w_start := 0; w_end := Some lend |}) 0 bk tid q ev in
  let second := fun q =>
    scheduleEvent env tBase 0 (Some {| w_start := lend; w_end := None |}) 0 bk tid q ev in
  (bt < 0 -> forall q, first q = q /\ second q = q) /\
  (0 <= bt < lend -> forall q, second q = q) /\
  (lend <= bt -> forall q, first q = q) /\
  (hasTone tid ev = true ->
   forall q, length (scheduleEvent env tBase 0 None 0 bk tid q ev) = S (length q)).
Proof.
  intros Hl bt first second. subst first second. cbv beta.
  split; [|split; [|split]].
  - intros Hb q. split; apply scheduleEvent_outside; fold bt;
      unfold outsideWindow; cbn [w_start w_end]; rdec; reflexivity.
  - intros Hb q. apply scheduleEvent_outside. fold bt.
    unfold outsideWindow; cbn [w_start w_end]; rdec; reflexivity.
  - intros Hb q. apply scheduleEvent_outside. fold bt.
    unfold outsideWindow; cbn [w_start w_end]; rdec; reflexivity.
  - intros Ht q. unfold hasTone in Ht. unfold scheduleEvent. cbv zeta.
    cbn [loopClamp].
    destruct (truthy (orNull (ev_toneId ev) tid)); [|discriminate].
    rewrite (Permutation_length (schedule_Permutation _ _ q)). reflexivity.
Qed.

Lemma zero_le_four : 0 <= 4.
Proof. lra. Defined.

Lemma minus_one_is_negative :
  default 0 (ev_t {| ev_t := Some (-1); ev_d := None; ev_v := None;
                     ev_toneId := Some "lead"; ev_busKey := None |}) < 0.
Proof. cbn. lra. Defined.

(** The theorem for an event at beat -1 and a loop that ends at beat 4. *)
Lemma looping_song_drops_negative_beats_witness :
  let ev := {| ev_t := Some (-1); ev_d := None; ev_v := None;
               ev_toneId := Some "lead"; ev_busKey := None |} in
  0 <= 4 /\
  (forall q,
     scheduleEvent demoSongEnv 0 0 (Some {| w_start := 0; w_end := Some 4 |}) 0
                   "master" None q ev = q /\
     scheduleEvent demoSongEnv 0 0 (Some {| w_start := 4; w_end := None |}) 0
                   "master" None q ev = q) /\
  (forall q, length (scheduleEvent demoSongEnv 0 0 None 0 "master" None q ev) = S (length q)).
Proof.
  intros ev. split; [exact zero_le_four|].
  destruct (looping_song_drops_negative_beats demoSongEnv 0 4 "master" None ev zero_le_four)
    as (H1 & _ & _ & H4).
  split; [exact (H1 minus_one_is_negative)|exact (H4 eq_refl)].
Defined.

End SongFacts.

(** ** Waves and pitch *)
Section PitchFacts.
Import JS Hardline Pitch.
Local Open Scope R_scope.

Lemma cos_nat_PI (k : nat) : cos (INR k * PI) = if Nat.even k then 1 else -1.
Proof.
  induction k as [|k IH].
  - cbn [INR Nat.even]. rewrite Rmult_0_l. apply cos_0.
  - rewrite S_INR. replace ((INR k + 1) * PI) with (INR k * PI + PI) by lra.
    rewrite neg_cos, IH. rewrite Nat.even_succ, <- Nat.negb_even.
    destruct (Nat.even k); cbn [negb]; lra.
Qed.

Lemma sin_nat_PI (k : nat) : sin (INR k * PI) = 0.
Proof.
  apply sin_eq_0_1. exists (Z.of_nat k). rewrite <- INR_IZR_INZ. reflexivity.
Qed.

(** X16: with the duty missing, [NaN], 0 or 0.5, [makePulseWave] builds the
    square wave: every cosine coefficient [real[k]] is zero, and the sine
    coefficient [imag[k]] is [4/(pi*k)] for odd [k] and zero for even [k],
    for [1 <= k <= 64]. *)
Theorem makePulseWave_half_duty_is_the_square_wave (duty : option num) :
  orHalf (Number duty) = Fin 0.5 ->
  let w := makePulseWave duty in
  forall k : nat, (1 <= k <= 64)%nat ->
    real w !! k = Some 0 /\
    imag w !! k = Some (if Nat.even k then 0 else 4 / (PI * INR k)).
Proof.
  intros Hd w k Hk.
  destruct (makePulseWave_coeffs duty) as (_ & _ & _ & _ & Hc).
  destruct (Hc k Hk) as [Hre Him]. cbv zeta in Hre, Him. fold w in Hre, Him.
  rewrite Hd in Hre, Him.
  assert (Hclamp : clamp (Some (Fin 0.5)) 0.01 0.99 = 0.5).
  { unfold clamp. cbn [Number]. rminmax. reflexivity. }
  rewrite Hclamp in Hre, Him.
  replace (2 * PI * INR k * 0.5) with (INR k * PI) in Hre, Him by lra.
  rewrite sin_nat_PI in Hre. rewrite cos_nat_PI in Him.
  assert (Hk0 : 0 < INR k) by (apply lt_0_INR; lia).
  pose proof PI_RGT_0 as Hpi.
  split.
  - rewrite Hre. f_equal. unfold Rdiv. lra.
  - rewrite Him. f_equal. destruct (Nat.even k).
    + unfold Rdiv. lra.
    + unfold Rdiv. lra.
Qed.

Lemma missing_duty_is_half : orHalf (Number None) = Fin 0.5.
Proof. reflexivity. Defined.

(** The theorem for [makePulseWave(ctx)] without a duty. *)
Lemma makePulseWave_half_duty_witness :
  orHalf (Number None) = Fin 0.5 /\
  forall k : nat, (1 <= k <= 64)%nat ->
    real (makePulseWave None) !! k = Some 0 /\
    imag (makePulseWave None) !! k = Some (if Nat.even k then 0 else 4 / (PI * INR k)).
Proof.
  split; [exact missing_duty_is_half|].
  exact (makePulseWave_half_duty_is_the_square_wave None missing_duty_is_half).
Defined.

(** *** [noteToHz] of the core *)

Lemma Int_part_IZR (n : Z) : Int_part (IZR n) = n.
Proof.
  unfold Int_part.
  assert (H : (n + 1)%Z = up (IZR n)).
  { apply up_tech; [lra|]. rewrite plus_IZR. lra. }
  lia.
Qed.

Lemma truncate_IZR (n : Z) : truncate (IZR n) = n.
Proof.
  unfold truncate. destruct (Rle_dec 0 (IZR n)).
  - apply Int_part_IZR.
  - rewrite <- opp_IZR, Int_part_IZR. lia.
Qed.

Lemma toInt32_small (n : Z) : (-2147483648 <= n < 2147483648)%Z -> toInt32 n = n.
Proof.
  intros Hn. unfold toInt32. rewrite Z.mod_small by lia. lia.
Qed.

Lemma toInt32_high (n : Z) :
  (2147483648 <= n < 4294967296)%Z -> toInt32 n = (n - 4294967296)%Z.
Proof.
  intros Hn. unfold toInt32.
  replace (n + 2147483648)%Z with ((n - 2147483648) + 1 * 4294967296)%Z by lia.
  rewrite Z.mod_add by lia. rewrite Z.mod_small by lia. lia.
Qed.

Lemma noteToHz_clamped (n : Z) :
  let nn := Z.min 127 (Z.max 0 n) in
  440 * Rpower 2 (-69 / 12) <= 440 * Rpower 2 (IZR (nn - 69) / 12) <= 440 * Rpower 2 (58 / 12).
Proof.
  intros nn.
  assert (Hnn : (0 <= nn <= 127)%Z) by (unfold nn; lia).
  assert (H1 : -69 / 12 <= IZR (nn - 69) / 12).
  { assert (IZR (-69) <= IZR (nn - 69)) by (apply IZR_le; lia). lra. }
  assert (H2 : IZR (nn - 69) / 12 <= 58 / 12).
  { assert (IZR (nn - 69) <= IZR 58) by (apply IZR_le; lia). lra. }
  split; apply Rmult_le_compat_l; try lra; apply Rle_Rpower; lra.
Qed.

(** X18: [noteToHz] answers between the pitches of notes 0 and 127 whatever
    it is given; an integer note in 0..127 gets [440 * 2^((n-69)/12)], so
    69 is 440 Hz; a missing or non-finite note counts as 69; and because the
    note goes through [| 0] before the clamp, a note number from [2^31] up
    to [2^32 - 1] wraps to a negative number and gets the lowest pitch, not
    the highest. *)
Theorem noteToHz_is_clamped_after_wrapping :
  (forall note,
      440 * Rpower 2 (-69 / 12) <= noteToHz note <= 440 * Rpower 2 (58 / 12)) /\
  (forall n : Z, (0 <= n <= 127)%Z ->
      noteToHz (Some (Fin (IZR n))) = 440 * Rpower 2 (IZR (n - 69) / 12)) /\
  noteToHz (Some (Fin 69)) = 440 /\
  (forall note, isFinite (Number note) = false -> noteToHz note = 440) /\
  (forall n : Z, (127 <= n < 2147483648)%Z ->
      noteToHz (Some (Fin (IZR n))) = 440 * Rpower 2 (58 / 12)) /\
  (forall n : Z, (2147483648 <= n < 4294967296)%Z ->
      noteToHz (Some (Fin (IZR n))) = 440 * Rpower 2 (-69 / 12)).
Proof.
  assert (Hint : forall n : Z, (0 <= n <= 127)%Z ->
            noteToHz (Some (Fin (IZR n))) = 440 * Rpower 2 (IZR (n - 69) / 12)).
  { intros n Hn. unfold noteToHz. cbn [Number]. cbv zeta.
    rewrite truncate_IZR, toInt32_small by lia.
    replace (Z.min 127 (Z.max 0 n)) with n by lia. reflexivity. }
  assert (H440 : 440 * Rpower 2 (IZR (69 - 69) / 12) = 440).
  { change (69 - 69)%Z with 0%Z. replace (0 / 12) with 0 by lra. rewrite Rpower_O by lra. lra. }
  split; [|split; [exact Hint|split; [|split; [|split]]]].
  - intros note. unfold noteToHz. cbv zeta. apply noteToHz_clamped.
  - rewrite (Hint 69%Z) by lia. exact H440.
  - intros note Hf. unfold noteToHz. cbv zeta.
    destruct (Number note); try discriminate;
      replace (Z.min 127 (Z.max 0 69)) with 69%Z by lia; exact H440.
  - intros n Hn. unfold noteToHz. cbn [Number]. cbv zeta.
    rewrite truncate_IZR, toInt32_small by lia.
    replace (Z.min 127 (Z.max 0 n)) with 127%Z by lia.
    reflexivity.
  - intros n Hn. unfold noteToHz. cbn [Number]. cbv zeta.
    rewrite truncate_IZR, toInt32_high by lia.
    replace (Z.min 127 (Z.max 0 (n - 4294967296))) with 0%Z by lia.
    reflexivity.
Qed.

End PitchFacts.

(** ** Banks and buses *)
Section BankFacts.
Import JS Banks.

Lemma validateTone_ok (id : string) (t : ToneJson) :
  validateTone id t = Ok tt <-> toneOk id t.
Proof.
  unfold validateTone, toneOk. split.
  - destruct (bool_decide (id = "")) eqn:Hid; [discriminate|].
    apply bool_decide_eq_false in Hid.
    destruct t as [|[osc|]]; try discriminate.
    destruct (okType (osc_type osc)) eqn:Hok; cbn [negb]; [|discriminate].
    destruct (bool_decide (osc_type osc = Some "wave")) eqn:Hw; cbn [andb].
    + destruct (noWaveId osc) eqn:Hn; [discriminate|]. intros _.
      split; [exact Hid|]. exists osc. auto.
    + intros _. split; [exact Hid|]. exists osc. split; [reflexivity|]. split; [exact Hok|].
      intros Hwave. apply bool_decide_eq_false in Hw. contradiction.
  - intros (Hid & osc & -> & Hok & Hw).
    rewrite bool_decide_eq_false_2 by exact Hid. rewrite Hok. cbn [negb].
    destruct (bool_decide (osc_type osc = Some "wave")) eqn:Hwave; cbn [andb]; [|reflexivity].
    apply bool_decide_eq_true in Hwave. rewrite (Hw Hwave). reflexivity.
Qed.

Lemma validateTone_result (id : string) (t : ToneJson) :
  validateTone id t = Ok tt \/ exists msg, validateTone id t = Throw msg.
Proof. destruct (validateTone id t) as [[]|msg]; eauto. Qed.

Lemma validateTones_ok (tones : list (string * ToneJson)) :
  validateTones tones = Ok tt <-> Forall (fun it => toneOk (fst it) (snd it)) tones.
Proof.
  induction tones as [|[id t] tones IH]; cbn [validateTones].
  - split; [constructor|reflexivity].
  - split.
    + destruct (validateTone id t) as [[]|msg] eqn:Hv; [|discriminate].
      intros Hrest. constructor; [apply validateTone_ok; exact Hv|apply IH; exact Hrest].
    + intros Hall. inversion Hall as [|? ? Hh Ht]; subst. cbn [fst snd] in Hh.
      apply validateTone_ok in Hh. rewrite Hh. apply IH. exact Ht.
Qed.

Lemma validateTones_first_error (good rest : list (string * ToneJson)) id t msg :
  Forall (fun it => toneOk (fst it) (snd it)) good ->
  validateTone id t = Throw msg ->
  validateTones (good ++ (id, t) :: rest) = Throw msg.
Proof.
  intros Hgood Hbad. induction Hgood as [|[i x] good Hx Hg IH]; cbn [app validateTones].
  - rewrite Hbad. reflexivity.
  - cbn [fst snd] in Hx. apply validateTone_ok in Hx. rewrite Hx. exact IH.
Qed.

(** X19: [_validateToneBank] accepts a bank exactly when it is an object
    whose [tones] is an object and every entry has a non-empty id and an
    [osc] object whose [type] is one of the six known names, with a
    [waveId] when the type is ['wave'].  Otherwise it throws, and the
    message is that of the first offending entry in entry order. *)
Theorem validateToneBank_accepts_exactly_wellformed_banks :
  (forall tb,
      _validateToneBank tb = Ok tt <->
      exists tones, tb = BankObject (Some tones) /\
                    Forall (fun it => toneOk (fst it) (snd it)) tones) /\
  (forall good id t rest msg,
      Forall (fun it => toneOk (fst it) (snd it)) good ->
      validateTone id t = Throw msg ->
      _validateToneBank (BankObject (Some (good ++ (id, t) :: rest))) = Throw msg) /\
  _validateToneBank BankNotObject = Throw "toneBank must be object" /\
  _validateToneBank (BankObject None) = Throw "toneBank.tones required".
Proof.
  split; [|split; [|split; reflexivity]].
  - intros tb. split.
    + destruct tb as [|[tones|]]; cbn [_validateToneBank]; try discriminate.
      intros Hv. exists tones. split; [reflexivity|]. apply validateTones_ok. exact Hv.
    + intros (tones & -> & Hall). cbn [_validateToneBank]. apply validateTones_ok. exact Hall.
  - intros good id t rest msg Hgood Hbad. cbn [_validateToneBank].
    apply validateTones_first_error; assumption.
Qed.

Section Waves.
Variable accepts : WaveJson -> bool.

Lemma buildWaves_cons (i : string) (x : WaveJson) (ws : list (string * WaveJson)) (b : banks) :
  buildWaves accepts ((i, x) :: ws) b =
  buildWaves accepts ws
    (if accepts x
     then {| toneBank := toneBank b; waveBank := waveBank b;
             _waves := <[ i := x ]> (_waves b); warnings := warnings b |}
     else {| toneBank := toneBank b; waveBank := waveBank b;
             _waves := _waves b; warnings := i :: warnings b |}).
Proof. reflexivity. Qed.

Lemma buildWaves_fields (ws : list (string * WaveJson)) (b : banks) :
  toneBank (buildWaves accepts ws b) = toneBank b /\
  waveBank (buildWaves accepts ws b) = waveBank b.
Proof.
  revert b. induction ws as [|[id w] ws IH]; intros b; [split; reflexivity|].
  rewrite buildWaves_cons.
  destruct (accepts w);
    match goal with |- context [buildWaves accepts ws ?b0] => destruct (IH b0) as [H1 H2] end;
    rewrite H1, H2; split; reflexivity.
Qed.

(** The table after the loop: a wave is there when the backend accepted it,
    or when it was there before and the loop saw no accepted wave of that
    id. *)
Lemma buildWaves_lookup (ws : list (string * WaveJson)) :
  NoDup (ws.*1) ->
  forall (b : banks) (id : string) (w : WaveJson),
    _waves (buildWaves accepts ws b) !! id = Some w <->
    ((id, w) ∈ ws /\ accepts w = true) \/
    ((forall w', (id, w') ∈ ws -> accepts w' = false) /\ _waves b !! id = Some w).
Proof.
  induction ws as [|[i x] ws IH]; intros Hnd b id w.
  - cbn. split.
    + intros H. right. split; [intros w' Hin; inversion Hin|exact H].
    + intros [[Hin _]|[_ H]]; [inversion Hin|exact H].
  - cbn [fmap list_fmap fst] in Hnd. apply NoDup_cons in Hnd as [Hni Hnd].
    assert (Hkey : forall w', (i, w') ∈ ws -> False).
    { intros w' Hin. apply Hni. apply list_elem_of_fmap.
      exists (i, w'). split; [reflexivity|exact Hin]. }
    rewrite buildWaves_cons, (IH Hnd). destruct (accepts x) eqn:Hacc; cbn [_waves].
    + split.
      * intros [[Hin Ha]|[Hno Hl]].
        -- left. split; [apply elem_of_cons; right; exact Hin|exact Ha].
        -- destruct (decide (id = i)) as [->|Hne].
           ++ rewrite lookup_insert_eq in Hl. injection Hl as <-.
              left. split; [apply elem_of_cons; left; reflexivity|exact Hacc].
           ++ rewrite lookup_insert_ne in Hl by congruence.
              right. split; [|exact Hl].
              intros w' Hin. apply elem_of_cons in Hin as [Heq|Hin]; [congruence|].
              apply Hno. exact Hin.
      * intros [[Hin Ha]|[Hno Hl]].
        -- apply elem_of_cons in Hin as [Heq|Hin].
           ++ injection Heq as -> ->. right.
              split; [intros w' Hin; exfalso; apply (Hkey w' Hin)|].
              apply lookup_insert_eq.
           ++ left. split; assumption.
        -- destruct (decide (id = i)) as [->|Hne].
           ++ pose proof (Hno x ltac:(apply elem_of_cons; left; reflexivity)). congruence.
           ++ right. split.
              ** intros w' Hin. apply Hno. apply elem_of_cons. right. exact Hin.
              ** rewrite lookup_insert_ne by congruence. exact Hl.
    + split.
      * intros [[Hin Ha]|[Hno Hl]].
        -- left. split; [apply elem_of_cons; right; exact Hin|exact Ha].
        -- right. split; [|exact Hl].
           intros w' Hin. apply elem_of_cons in Hin as [Heq|Hin].
           ++ injection Heq as -> ->. exact Hacc.
           ++ apply Hno. exact Hin.
      * intros [[Hin Ha]|[Hno Hl]].
        -- apply elem_of_cons in Hin as [Heq|Hin].
           ++ injection Heq as -> ->. congruence.
           ++ left. split; assumption.
        -- right. split; [|exact Hl].
           intros w' Hin. apply Hno. apply elem_of_cons. right. exact Hin.
Qed.

(** X20: a [loadBanks] that returns has validated every bank it was given and
    keeps the stored bank for each one it was not given.  When a wave bank
    is then in place, the wave table is rebuilt from it from scratch: it
    holds exactly the waves of the bank that the backend accepted, a
    rejected wave being skipped without stopping the others; when there is
    no wave bank the table is left alone. *)
Theorem loadBanks_rebuilds_the_wave_table (b : banks) (tb : option BankJson)
    (wb : option WaveBankJson) (b' : banks) :
  loadBanks accepts b tb wb = Ok b' ->
  toneBank b' = nullish tb (toneBank b) /\
  waveBank b' = nullish wb (waveBank b) /\
  (forall x, tb = Some x -> _validateToneBank x = Ok tt) /\
  (forall x, wb = Some x -> _validateWaveBank x = Ok tt) /\
  (waveBank b' = None -> _waves b' = _waves b) /\
  (forall ws, waveBank b' = Some (WaveBankObject (Some ws)) -> NoDup (ws.*1) ->
     forall id w, _waves b' !! id = Some w <-> (id, w) ∈ ws /\ accepts w = true).
Proof.
  unfold loadBanks.
  destruct (match tb with Some x => _validateToneBank x | None => Ok tt end)
    as [[]|msg] eqn:Htb; [|discriminate].
  destruct (match wb with Some x => _validateWaveBank x | None => Ok tt end)
    as [[]|msg] eqn:Hwb; [|discriminate].
  cbv zeta. cbn [waveBank toneBank _waves warnings].
  assert (Hvt : forall x, tb = Some x -> _validateToneBank x = Ok tt)
    by (intros x ->; exact Htb).
  assert (Hvw : forall x, wb = Some x -> _validateWaveBank x = Ok tt)
    by (intros x ->; exact Hwb).
  destruct (nullish wb (waveBank b)) as [wbank|] eqn:Hbank.
  - intros [= <-].
    match goal with
    | |- context [buildWaves accepts ?ws ?b0] =>
        destruct (buildWaves_fields ws b0) as [Ht Hw];
        pose proof (fun Hnd => buildWaves_lookup ws Hnd b0) as Hl
    end.
    cbn [toneBank waveBank _waves] in Ht, Hw, Hl.
    split; [exact Ht|]. split; [exact Hw|]. split; [exact Hvt|]. split; [exact Hvw|].
    split; [rewrite Hw; discriminate|].
    intros ws Hws Hnd id w. rewrite Hw in Hws. injection Hws as ->.
    rewrite (Hl Hnd). split.
    + intros [H|[_ H]]; [exact H|]. rewrite lookup_empty in H. discriminate.
    + intros H. left. exact H.
  - intros [= <-]. cbn [toneBank waveBank _waves].
    split; [reflexivity|]. split; [reflexivity|]. split; [exact Hvt|]. split; [exact Hvw|].
    split; [reflexivity|]. intros ws Hws. discriminate.
Qed.

End Waves.

(** Two waves, the second of which the backend rejects. *)
Lemma loadBanks_witness_run :
  let good := {| w_real := [0%R; 1%R]; w_imag := [0%R; 0%R] |} in
  let bad := {| w_real := [0%R]; w_imag := [0%R; 0%R] |} in
  let accepts := fun w => Nat.eqb (length (w_real w)) (length (w_imag w)) in
  loadBanks accepts
    {| toneBank := None; waveBank := None; _waves := ∅; warnings := [] |}
    None (Some (WaveBankObject (Some [("a", good); ("b", bad)]))) =
  Ok {| toneBank := None;
        waveBank := Some (WaveBankObject (Some [("a", good); ("b", bad)]));
        _waves := <[ "a" := good ]> ∅; warnings := ["b"] |}.
Proof. reflexivity. Defined.

(** The theorem on that run. *)
Lemma loadBanks_rebuilds_the_wave_table_witness :
  let good := {| w_real := [0%R; 1%R]; w_imag := [0%R; 0%R] |} in
  let bad := {| w_real := [0%R]; w_imag := [0%R; 0%R] |} in
  let accepts := fun w => Nat.eqb (length (w_real w)) (length (w_imag w)) in
  let b' := {| toneBank := None;
               waveBank := Some (WaveBankObject (Some [("a", good); ("b", bad)]));
               _waves := <[ "a" := good ]> ∅; warnings := ["b"] |} in
  toneBank b' = None /\
  (forall ws, waveBank b' = Some (WaveBankObject (Some ws)) -> NoDup (ws.*1) ->
     forall id w, _waves b' !! id = Some w <-> (id, w) ∈ ws /\ accepts w = true).
Proof.
  intros good bad accepts b'.
  destruct (loadBanks_rebuilds_the_wave_table accepts _ _ _ b' loadBanks_witness_run)
    as (H1 & _ & _ & _ & _ & H6).
  split; [exact H1|exact H6].
Defined.

End BankFacts.

Section BusFacts.
Import JS Buses.
Local Open Scope R_scope.

(** X21: [setBusGain] throws ['Unknown bus: <key>'] for a key without a bus
    and otherwise changes the gain of that one bus, keeping its pan and
    every other bus; a bus made by [createBus] can have its gain set, has
    gain 1 unless one is given, has a pan inside [-1, 1] when the context
    has panners, and replaces any bus that had the key; the constructor's
    map holds the bus ['master'] at gain 1. *)
Theorem setBusGain_touches_one_bus :
  (forall k v buses, buses !! k = None ->
      setBusGain k v buses = Throw ("Unknown bus: " +:+ k)) /\
  (forall k v buses b, buses !! k = Some b ->
      exists buses',
        setBusGain k v buses = Ok buses' /\
        buses' !! k = Some {| bus_gain := v; bus_pan := bus_pan b |} /\
        forall k', k' <> k -> buses' !! k' = buses !! k') /\
  (forall hasPanner k gain pan buses v,
      let buses1 := snd (createBus hasPanner k gain pan buses) in
      fst (createBus hasPanner k gain pan buses) = k /\
      (exists b, buses1 !! k = Some b /\ bus_gain b = default 1 gain /\
                 match bus_pan b with
                 | Some x => hasPanner = true /\ -1 <= x <= 1
                 | None => hasPanner = false
                 end) /\
      (forall k', k' <> k -> buses1 !! k' = buses !! k') /\
      exists buses2, setBusGain k v buses1 = Ok buses2) /\
  (forall hasPanner, exists b, initialBuses hasPanner !! "master" = Some b /\ bus_gain b = 1).
Proof.
  split; [|split; [|split]].
  - intros k v buses Hk. unfold setBusGain. rewrite Hk. reflexivity.
  - intros k v buses b Hk. unfold setBusGain. rewrite Hk. eexists. split; [reflexivity|].
    split; [apply lookup_insert_eq|]. intros k' Hne. apply lookup_insert_ne. congruence.
  - intros hasPanner k gain pan buses v buses1. subst buses1. unfold createBus. cbv zeta.
    cbn [fst snd]. split; [reflexivity|]. split; [|split].
    + eexists. split; [apply lookup_insert_eq|]. cbn [bus_gain bus_pan].
      split; [reflexivity|]. destruct hasPanner; [|reflexivity].
      split; [reflexivity|].
      unfold clamp. destruct (Number (Some (default (Fin 0) pan))); try lra.
      unfold Rmax, Rmin. rdec.
    + intros k' Hne. apply lookup_insert_ne. congruence.
    + unfold setBusGain. rewrite lookup_insert_eq. eexists. reflexivity.
  - intros hasPanner. unfold initialBuses, createBus. cbv zeta. cbn [snd].
    eexists. split; [apply lookup_insert_eq|]. reflexivity.
Qed.

End BusFacts.

(** ** Per-note filter and pitch automation *)
Section FxFacts.
Import JS Hardline NoteFx.
Local Open Scope R_scope.

Lemma Forall_snoc {A : Type} (P : A -> Prop) (l : list A) (x : A) :
  Forall P l -> P x -> Forall P (l ++ [x]).
Proof. intros Hl Hx. apply Forall_app. split; [exact Hl|]. constructor; [exact Hx|constructor]. Qed.

(** X22: when [playNote] inserts a filter, every value it schedules on the
    filter's frequency is at least 10 Hz and every value on its Q at least
    0.0001, nothing is scheduled before the note's start, and the first
    call sets the frequency at the start time; an exponential ramp is used
    only when the note's [fx.flt.curve] is ['exp'].  No filter is inserted
    when neither the tone nor the note has one. *)
Theorem note_filter_stays_in_range (toneFilt : option ToneFilter)
    (noteFilt : option NoteFilter) (t0 : R) :
  let f := configureFilter toneFilt noteFilt t0 in
  buildFilter None None t0 = None /\
  ((toneFilt <> None \/ noteFilt <> None) -> buildFilter toneFilt noteFilt t0 = Some f) /\
  Forall (fun c => 10 <= callValue c /\ t0 <= callTime c) (f_frequency f) /\
  Forall (fun c => 0.0001 <= callValue c /\ callTime c = t0) (f_Q f) /\
  (exists v rest, f_frequency f = SetAt v t0 :: rest) /\
  (forall v t, ExpRampTo v t ∈ f_frequency f ->
     exists nf, noteFilt = Some nf /\ nf_curve nf = Some "exp").
Proof.
  intros f. split; [reflexivity|]. split.
  { intros H. unfold buildFilter. destruct toneFilt, noteFilt; try reflexivity.
    destruct H; congruence. }
  subst f. unfold configureFilter. cbv zeta.
  set (base := SetAt (Rmax 10 (numOr (Some _) 1200)) t0).
  assert (Hbase : 10 <= callValue base /\ t0 <= callTime base).
  { unfold base. cbn [callValue callTime]. split; [apply Rmax_l|lra]. }
  set (Q0 := match toneFilt ≫= tf_q with
             | Some q => [SetAt (Rmax 0.0001 (numOr (Some q) 1)) t0]
             | None => []
             end).
  assert (HQ0 : Forall (fun c => 0.0001 <= callValue c /\ callTime c = t0) Q0).
  { unfold Q0. destruct (toneFilt ≫= tf_q); [|constructor].
    constructor; [|constructor]. cbn [callValue callTime]. split; [apply Rmax_l|reflexivity]. }
  destruct noteFilt as [nf|]; cbn [f_frequency f_Q].
  - set (fr1 := match finiteOrNull (nf_from nf) with
                | Some x => [base] ++ [SetAt (Rmax 10 x) t0]
                | None => [base]
                end).
    assert (H1 : Forall (fun c => 10 <= callValue c /\ t0 <= callTime c) fr1 /\
                 (exists v rest, fr1 = SetAt v t0 :: rest) /\
                 (forall v t, ~ ExpRampTo v t ∈ fr1)).
    { unfold fr1. destruct (finiteOrNull (nf_from nf)).
      - split; [|split].
        + cbn [app]. constructor; [exact Hbase|]. constructor; [|constructor].
          cbn [callValue callTime]. split; [apply Rmax_l|lra].
        + eexists _, _. reflexivity.
        + intros v t Hin. cbn [app] in Hin.
          repeat (apply elem_of_cons in Hin as [Hin|Hin]; [discriminate|]). inversion Hin.
      - split; [|split].
        + constructor; [exact Hbase|constructor].
        + eexists _, _. reflexivity.
        + intros v t Hin.
          repeat (apply elem_of_cons in Hin as [Hin|Hin]; [discriminate|]). inversion Hin. }
    destruct H1 as (F1 & (v1 & rest1 & E1) & N1).
    assert (Htime : 0 <= Rmax 0 (numOr (nf_time nf) 0)) by apply Rmax_l.
    split; [|split; [|split]].
    + destruct (finiteOrNull (nf_to nf)) as [x|]; [|exact F1].
      destruct (Rgt_dec _ 0).
      * destruct (_ && _ && _); apply Forall_snoc; try exact F1;
          cbn [callValue callTime]; (split; [apply Rmax_l|lra]).
      * apply Forall_snoc; [exact F1|]. cbn [callValue callTime]. split; [apply Rmax_l|lra].
    + destruct (nf_q nf); [apply Forall_snoc; [exact HQ0|]|exact HQ0].
      cbn [callValue callTime]. split; [apply Rmax_l|reflexivity].
    + destruct (finiteOrNull (nf_to nf)) as [x|]; [|eexists _, _; exact E1].
      destruct (Rgt_dec _ 0); [destruct (_ && _ && _)|];
        rewrite E1; eexists _, _; reflexivity.
    + intros v t Hin. exists nf. split; [reflexivity|].
      destruct (finiteOrNull (nf_to nf)) as [x|]; [|exfalso; apply (N1 v t Hin)].
      destruct (Rgt_dec _ 0).
      * destruct (bool_decide (orFalsy (nf_curve nf) "lin" = "exp")) eqn:Hc; cbn [andb] in Hin.
        -- apply bool_decide_eq_true in Hc. unfold orFalsy in Hc.
           destruct (nf_curve nf) as [c|]; [|discriminate].
           destruct (decide (c = "")); [discriminate|]. congruence.
        -- apply elem_of_app in Hin as [Hin|Hin]; [exfalso; apply (N1 v t Hin)|].
           apply list_elem_of_singleton in Hin. discriminate.
      * apply elem_of_app in Hin as [Hin|Hin]; [exfalso; apply (N1 v t Hin)|].
        apply list_elem_of_singleton in Hin. discriminate.
  - split; [constructor; [exact Hbase|constructor]|]. split; [exact HQ0|].
    split; [eexists _, _; reflexivity|].
    intros v t Hin. apply list_elem_of_singleton in Hin. discriminate.
Qed.

(** X23: the oscillator of a note never gets a frequency below 1 Hz: every
    value [playNote] schedules on [o.frequency] is at least 1, starting
    with [max(1, hz)] at the note's start and nothing earlier; a pitch
    sweep in cents (the default mode) leaves the frequency alone and works
    on [o.detune], where it never uses an exponential ramp. *)
Theorem note_pitch_stays_positive (hz : R) (detuneCents : option R)
    (notePitch : option NotePitch) (t0 : R) :
  let frequency := fst (pitchCalls hz detuneCents notePitch t0) in
  let detune := snd (pitchCalls hz detuneCents notePitch t0) in
  Forall (fun c => 1 <= callValue c /\ t0 <= callTime c) frequency /\
  (exists rest, frequency = SetAt (Rmax 1 hz) t0 :: rest) /\
  (forall v t, ~ ExpRampTo v t ∈ detune) /\
  (forall np, notePitch = Some np -> orFalsy (np_mode np) "cents" <> "hz" ->
     frequency = [SetAt (Rmax 1 hz) t0]) /\
  (notePitch = None -> frequency = [SetAt (Rmax 1 hz) t0]).
Proof.
  intros frequency detune. subst frequency detune. unfold pitchCalls. cbv zeta.
  set (base := SetAt (Rmax 1 hz) t0).
  assert (Hbase : 1 <= callValue base /\ t0 <= callTime base).
  { unfold base. cbn [callValue callTime]. split; [apply Rmax_l|lra]. }
  set (det0 := match detuneCents with
               | Some c => if Req_dec_T c 0 then [] else [SetAt c t0]
               | None => []
               end).
  assert (Hdet0 : forall v t, ~ ExpRampTo v t ∈ det0).
  { intros v t Hin. unfold det0 in Hin. destruct detuneCents as [c|]; [|inversion Hin].
    destruct (Req_dec_T c 0); [inversion Hin|].
    apply list_elem_of_singleton in Hin. discriminate. }
  destruct notePitch as [np|]; cbn [fst snd].
  2:{ split; [constructor; [exact Hbase|constructor]|]. split; [eexists; reflexivity|].
      split; [exact Hdet0|]. split; [intros np Hnp; discriminate|reflexivity]. }
  assert (Htime : 0 <= Rmax 0 (numOr (np_time np) 0)) by apply Rmax_l.
  destruct (bool_decide (orFalsy (np_mode np) "cents" = "hz")) eqn:Hmode; cbn [fst snd].
  - set (fr1 := match finiteOrNull (np_from np) with
                | Some x => [base] ++ [SetAt (Rmax 1 x) t0]
                | None => [base]
                end).
    assert (F1 : Forall (fun c => 1 <= callValue c /\ t0 <= callTime c) fr1 /\
                 exists rest, fr1 = base :: rest).
    { unfold fr1. destruct (finiteOrNull (np_from np)).
      - split; [|eexists; reflexivity].
        cbn [app]. constructor; [exact Hbase|]. constructor; [|constructor].
        cbn [callValue callTime]. split; [apply Rmax_l|lra].
      - split; [|eexists; reflexivity]. constructor; [exact Hbase|constructor]. }
    destruct F1 as [F1 (rest1 & E1)].
    split; [|split; [|split; [exact Hdet0|split]]].
    + destruct (finiteOrNull (np_to np)) as [x|]; [|exact F1].
      destruct (Rgt_dec _ 0).
      * destruct (_ && _ && _); apply Forall_snoc; try exact F1;
          cbn [callValue callTime]; (split; [apply Rmax_l|lra]).
      * apply Forall_snoc; [exact F1|]. cbn [callValue callTime]. split; [apply Rmax_l|lra].
    + destruct (finiteOrNull (np_to np)) as [x|]; [|eexists; exact E1].
      destruct (Rgt_dec _ 0); [destruct (_ && _ && _)|]; rewrite E1; eexists; reflexivity.
    + intros np' [= <-] Hne. apply bool_decide_eq_true in Hmode. contradiction.
    + discriminate.
  - split; [constructor; [exact Hbase|constructor]|]. split; [eexists; reflexivity|].
    split; [|split; [intros; reflexivity|discriminate]].
    intros v t Hin.
    set (det1 := match finiteOrNull (np_from np) with
                 | Some x => det0 ++ [SetAt x t0]
                 | None => det0
                 end) in Hin.
    assert (Hdet1 : forall v t, ~ ExpRampTo v t ∈ det1).
    { intros v' t' Hin'. unfold det1 in Hin'. destruct (finiteOrNull (np_from np)).
      - apply elem_of_app in Hin' as [Hin'|Hin']; [apply (Hdet0 v' t' Hin')|].
        apply list_elem_of_singleton in Hin'. discriminate.
      - apply (Hdet0 v' t' Hin'). }
    destruct (finiteOrNull (np_to np)) as [x|]; [|apply (Hdet1 v t Hin)].
    destruct (Rgt_dec _ 0);
      (apply elem_of_app in Hin as [Hin|Hin]; [apply (Hdet1 v t Hin)|];
       apply list_elem_of_singleton in Hin; discriminate).
Qed.

End FxFacts.

(** * Further properties of the one-voice core *)

(** ** The bit-depth curve as a transfer function *)
Section CurveFacts.
Import JS Core.
Local Open Scope Q_scope.

(** A quantized value lies within half a step of its input and inside
    [-1, 1]. *)
Lemma quantize_close (b : Z) (x : Q) :
  (2 <= b)%Z -> -1 <= x <= 1 ->
  -1 <= quantize (2 ^ b) x <= 1 /\
  - (1 / inject_Z (2 ^ b - 1)) <= quantize (2 ^ b) x - x <= 1 / inject_Z (2 ^ b - 1).
Proof.
  intros Hb Hx. pose proof (levels_pos b Hb) as HL.
  unfold quantize. cbv zeta.
  set (Lm := inject_Z (2 ^ b - 1)) in *.
  set (u := (x * 0.5 + 0.5) * Lm).
  assert (Hu : 0 <= u <= Lm) by (unfold u; nra).
  pose proof (Qfloor_le (u + 0.5)) as F1. pose proof (Qlt_floor (u + 0.5)) as F2.
  fold (round u) in F1, F2.
  rewrite inject_Z_plus in F2. change (inject_Z 1) with 1 in F2.
  assert (R0 : (0 <= round u)%Z).
  { rewrite <- (round_integer 0). apply round_mono. apply Hu. }
  assert (R1 : (round u <= 2 ^ b - 1)%Z).
  { rewrite <- (round_integer (2 ^ b - 1)). apply round_mono. apply Hu. }
  rewrite Zle_Qle in R0, R1. fold Lm in R1. change (inject_Z 0) with 0 in R0.
  set (r := inject_Z (round u)) in *.
  set (k := / Lm).
  assert (Hk : 0 < k) by (apply Qinv_lt_0_compat; exact HL).
  assert (Hinv : Lm * k == 1) by (unfold k; field; lra).
  assert (Hdiv : r / Lm == r * k) by reflexivity.
  assert (Hone : 1 / Lm == k) by (unfold k; field; lra).
  rewrite Hdiv, Hone.
  assert (Hux : u * k == x * 0.5 + 0.5).
  { unfold u. rewrite <- Qmult_assoc, Hinv. ring. }
  assert (P1 : 0 <= r * k) by nra.
  assert (P2 : r * k <= 1) by nra.
  assert (P3 : r * k <= (u + 0.5) * k) by nra.
  assert (P4 : (u + 0.5) * k < (r + 1) * k) by nra.
  split; [lra|].
  assert (E1 : (u + 0.5) * k == x * 0.5 + 0.5 + 0.5 * k) by (rewrite Qmult_plus_distr_l, Hux; ring).
  assert (E2 : (r + 1) * k == r * k + k) by ring.
  rewrite E1 in P3, P4. rewrite E2 in P4. lra.
Qed.

(** X24: whatever depth is asked for, the curve the core hands to the
    WaveShaper maps its first grid point [-1] to [-1] and its last [1] to
    [1], stays inside [-1, 1], and at every one of its 2048 grid points
    differs from the identity by at most half a quantization step,
    [1 / (2^b - 1)] for the clamped depth [b]. *)
Theorem bit_depth_curve_is_close_to_identity cache bits :
  curveCacheOk cache ->
  let b := clampBits (default 12%Z bits) in
  let curve := fst (_getBitDepthCurve cache bits) in
  (exists y, curve !! 0%nat = Some y /\ y == -1) /\
  (exists y, curve !! 2047%nat = Some y /\ y == 1) /\
  (forall (i : nat) (y : Q), curve !! i = Some y ->
     -1 <= y <= 1 /\
     - (1 / inject_Z (2 ^ b - 1)) <= y - gridX 2048 (Z.of_nat i) <= 1 / inject_Z (2 ^ b - 1)).
Proof.
  intros Hok b curve.
  destruct (getBitDepthCurve_ok cache bits Hok) as [Hc _].
  fold b in Hc. fold curve in Hc.
  pose proof (clampBits_range (default 12%Z bits)) as Hb. fold b in Hb.
  pose proof (levels_pos b ltac:(lia)) as HL.
  split; [|split].
  - eexists. split; [rewrite Hc; apply buildCurve_lookup; lia|].
    unfold quantize, gridX. cbv zeta. change (inject_Z (Z.of_nat 0)) with 0.
    change (inject_Z (2048 - 1)) with 2047.
    assert (Hz : (0 / 2047 * 2 - 1) * 0.5 + 0.5 == 0) by reflexivity.
    assert (Hr : round (((0 / 2047 * 2 - 1) * 0.5 + 0.5) * inject_Z (2 ^ b - 1)) = 0%Z).
    { unfold round. apply Qfloor_eq.
      - rewrite Hz. change (inject_Z 0) with 0. lra.
      - rewrite Hz. change (inject_Z (0 + 1)) with 1. lra. }
    rewrite Hr. change (inject_Z 0) with 0. field. lra.
  - eexists. split; [rewrite Hc; apply buildCurve_lookup; lia|].
    unfold quantize, gridX. cbv zeta. change (inject_Z (Z.of_nat 2047)) with 2047.
    change (inject_Z (2048 - 1)) with 2047.
    assert (Hz : (2047 / 2047 * 2 - 1) * 0.5 + 0.5 == 1) by reflexivity.
    assert (Hr : round (((2047 / 2047 * 2 - 1) * 0.5 + 0.5) * inject_Z (2 ^ b - 1))
                 = (2 ^ b - 1)%Z).
    { unfold round. apply Qfloor_eq.
      - rewrite Hz. lra.
      - rewrite Hz, inject_Z_plus. change (inject_Z 1) with 1. lra. }
    rewrite Hr. field. lra.
  - intros i y Hy. rewrite Hc in Hy.
    assert (Hi : (i < 2048)%nat).
    { apply lookup_lt_Some in Hy. rewrite buildCurve_length in Hy. exact Hy. }
    rewrite buildCurve_lookup in Hy by exact Hi. injection Hy as <-.
    apply quantize_close; [lia|]. apply gridX_range. lia.
Qed.

(** The theorem on a fresh core asked for the default depth. *)
Lemma bit_depth_curve_is_close_to_identity_witness :
  let b := clampBits (default 12%Z None) in
  let curve := fst (_getBitDepthCurve ∅ None) in
  curveCacheOk ∅ /\
  (exists y, curve !! 0%nat = Some y /\ y == -1) /\
  (exists y, curve !! 2047%nat = Some y /\ y == 1) /\
  (forall (i : nat) (y : Q), curve !! i = Some y ->
     -1 <= y <= 1 /\
     - (1 / inject_Z (2 ^ b - 1)) <= y - gridX 2048 (Z.of_nat i) <= 1 / inject_Z (2 ^ b - 1)).
Proof.
  intros b curve. split; [exact empty_cache_ok|].
  exact (bit_depth_curve_is_close_to_identity ∅ None empty_cache_ok).
Defined.

End CurveFacts.

(** ** The pulse-wave cache *)
Section PulseCacheFacts.
Import JS Core.
Local Open Scope R_scope.

(** The key of a duty whose product with 1000 is a double, and of one
    whose product is not. *)
Lemma dutyKey_of_double (D : R) (m k : Z) :
  D * 1000 = IZR m * Binary64.pow2 k -> (Z.abs m < 2 ^ 53)%Z -> (-1074 <= k)%Z ->
  dutyKey D = Int_part (D * 1000 + 0.5).
Proof.
  intros HD Hm Hk. unfold dutyKey. rewrite HD, round_representable by assumption.
  reflexivity.
Qed.

Lemma dutyKey_near (D : R) (e n key : Z) :
  (-1022 <= e)%Z ->
  Binary64.pow2 e <= Rabs (D * 1000) < Binary64.pow2 (e + 1) ->
  IZR n - 1 / 2 < D * 1000 * Binary64.pow2 (52 - e) < IZR n + 1 / 2 ->
  IZR key <= IZR n * Binary64.pow2 (e - 52) + 0.5 < IZR key + 1 ->
  dutyKey D = key.
Proof.
  intros He HD Hn Hkey. unfold dutyKey.
  rewrite (round_near _ e n He HD Hn). apply Int_part_between. exact Hkey.
Qed.

Lemma dutyKey_quarter : dutyKey 0.25 = 250%Z.
Proof.
  rewrite (dutyKey_of_double 0.25 250 0) by (change (Binary64.pow2 0) with 1; lra || lia).
  apply Int_part_between. lra.
Qed.

(** [0.2502 * 1000] lies between two doubles; the nearer one is
    [8803129896625766 * 2^-45], just below 250.2. *)
Lemma dutyKey_2502 : dutyKey 0.2502 = 250%Z.
Proof.
  apply (dutyKey_near 0.2502 7 8803129896625766 250).
  - lia.
  - change (7 + 1)%Z with 8%Z. pow2_numerals. rewrite Rabs_pos_eq by lra. lra.
  - change (52 - 7)%Z with 45%Z. pow2_numerals. lra.
  - change (7 - 52)%Z with (-45)%Z. pow2_numerals. lra.
Qed.

Lemma dutyKey_three_quarters : dutyKey 0.75 = 750%Z.
Proof.
  rewrite (dutyKey_of_double 0.75 750 0) by (change (Binary64.pow2 0) with 1; lra || lia).
  apply Int_part_between. lra.
Qed.

(** The double nearest to 0.7505 is below 0.7505, and so is its exact
    product with 1000 below 750.5; but the nearest double to that product
    is 750.5 itself, which [Math.round] takes to 751. *)
Lemma dutyKey_7505 :
  duty7505 < 0.7505 /\ duty7505 * 1000 < 750.5 /\ dutyKey duty7505 = 751%Z.
Proof.
  unfold duty7505. split; [pow2_numerals; lra|]. split; [pow2_numerals; lra|].
  apply (dutyKey_near _ 9 6601467813167104 751).
  - lia.
  - change (9 + 1)%Z with 10%Z. pow2_numerals. rewrite Rabs_pos_eq by lra. lra.
  - change (52 - 9)%Z with 43%Z. pow2_numerals. lra.
  - change (9 - 52)%Z with (-43)%Z. pow2_numerals. lra.
Qed.

Lemma coreDuty_7505 : Rmax 0.05 (Rmin 0.95 duty7505) = duty7505.
Proof.
  apply coreDuty_in_range. unfold duty7505. pow2_numerals. lra.
Qed.

(** X25: the pulse-wave cache answers by the key [Math.round(D * 1000)] of
    the clamped duty [D], the product being the double the source
    computes.  Once a wave has been asked for, a request for a duty with
    the same key returns that very wave and leaves the cache as it is, so
    the second duty gets the wave computed for the first one; a request
    for a duty with another key that is not cached builds the wave of its
    own duty.  The keys follow the rounded product, not the exact one: the
    double nearest to 0.7505 has an exact product below 750.5 and the key
    751, so it does not share the wave of duty 0.75. *)
Theorem pulse_cache_answers_by_rounded_duty (cache : gmap Z PeriodicWave) (d1 d2 : R) :
  let D1 := Rmax 0.05 (Rmin 0.95 d1) in
  let D2 := Rmax 0.05 (Rmin 0.95 d2) in
  let first := _getPulseWave cache (Some (Fin d1)) in
  let second := _getPulseWave (snd first) (Some (Fin d2)) in
  (dutyKey D1 = dutyKey D2 ->
   second = first /\
   (cache !! dutyKey D1 = None ->
    forall k : nat, (1 <= k <= 63)%nat ->
      real (fst second) !! k = Some (2 * sin (INR k * PI * D1) / (INR k * PI)))) /\
  (dutyKey D1 <> dutyKey D2 -> cache !! dutyKey D2 = None ->
   snd second = <[ dutyKey D2 := fst second ]> (snd first) /\
   forall k : nat, (1 <= k <= 63)%nat ->
     real (fst second) !! k = Some (2 * sin (INR k * PI * D2) / (INR k * PI))) /\
  (dutyKey (Rmax 0.05 (Rmin 0.95 0.75)) = 750%Z /\
   dutyKey (Rmax 0.05 (Rmin 0.95 duty7505)) = 751%Z /\
   duty7505 * 1000 < 750.5).
Proof.
  intros D1 D2 first second.
  assert (Hfirst : snd first !! dutyKey D1 = Some (fst first)).
  { unfold first, _getPulseWave. cbv zeta.
    change (default (Fin 0.5) (Some (Fin d1))) with (Fin d1). cbv iota. fold D1.
    destruct (cache !! dutyKey D1) as [w|] eqn:E; cbn [snd fst].
    - exact E.
    - apply lookup_insert_eq. }
  assert (Hother : forall key, key <> dutyKey D1 -> snd first !! key = cache !! key).
  { intros key Hne. unfold first, _getPulseWave. cbv zeta.
    change (default (Fin 0.5) (Some (Fin d1))) with (Fin d1). cbv iota. fold D1.
    destruct (cache !! dutyKey D1) as [w|] eqn:E; cbn [snd]; [reflexivity|].
    apply lookup_insert_ne. congruence. }
  split; [|split].
  - intros Hkey.
    assert (Hsecond : second = first).
    { unfold second, _getPulseWave at 1. cbv zeta.
      change (default (Fin 0.5) (Some (Fin d2))) with (Fin d2). cbv iota. fold D2.
      rewrite <- Hkey, Hfirst. destruct first; reflexivity. }
    split; [exact Hsecond|].
    intros Hmiss k Hk. rewrite Hsecond.
    destruct (getPulseWave_miss cache d1 Hmiss) as (_ & _ & _ & _ & H5).
    apply H5. exact Hk.
  - intros Hne Hmiss.
    assert (Hmiss2 : snd first !! dutyKey D2 = None).
    { rewrite Hother by congruence. exact Hmiss. }
    split.
    + unfold second, _getPulseWave at 1 2. cbv zeta.
      change (default (Fin 0.5) (Some (Fin d2))) with (Fin d2). cbv iota. fold D2.
      rewrite Hmiss2. reflexivity.
    + intros k Hk.
      destruct (getPulseWave_miss (snd first) d2 Hmiss2) as (_ & _ & _ & _ & H5).
      apply H5. exact Hk.
  - rewrite (coreDuty_in_range 0.75) by lra. rewrite coreDuty_7505.
    destruct dutyKey_7505 as (_ & Hlt & Hk).
    split; [exact dutyKey_three_quarters|]. split; [exact Hk|exact Hlt].
Qed.

Lemma quarter_duty_keys :
  dutyKey (Rmax 0.05 (Rmin 0.95 0.25)) = dutyKey (Rmax 0.05 (Rmin 0.95 0.2502)).
Proof.
  rewrite (coreDuty_in_range 0.25), (coreDuty_in_range 0.2502) by lra.
  rewrite dutyKey_quarter, dutyKey_2502. reflexivity.
Defined.

(** The theorem for the duties 0.25 and 0.2502 on an empty cache. *)
Lemma pulse_cache_answers_by_rounded_duty_witness :
  dutyKey (Rmax 0.05 (Rmin 0.95 0.25)) = dutyKey (Rmax 0.05 (Rmin 0.95 0.2502)) /\
  _getPulseWave (snd (_getPulseWave ∅ (Some (Fin 0.25)))) (Some (Fin 0.2502)) =
    _getPulseWave ∅ (Some (Fin 0.25)).
Proof.
  split; [exact quarter_duty_keys|].
  exact (proj1 (proj1 (pulse_cache_answers_by_rounded_duty ∅ 0.25 0.2502) quarter_duty_keys)).
Defined.

End PulseCacheFacts.

(** ** The sample-rate crusher *)
Section CrushFacts.
Import JS Core Crush.
Context {A : Type}.

Lemma holdChannel_cons (step : Z) (s : state A) (x : A) (rest : list A) :
  let s1 := if (counter s =? 0)%Z then {| lastValue := x; counter := step |} else s in
  let s2 := {| lastValue := lastValue s1; counter := (counter s1 - 1)%Z |} in
  holdChannel step s (x :: rest) =
  (lastValue s1 :: fst (holdChannel step s2 rest), snd (holdChannel step s2 rest)).
Proof.
  cbv zeta. cbn [holdChannel].
  destruct (holdChannel step _ rest) as [o s']. reflexivity.
Qed.

(** Two buffers in a row are handled like their concatenation: the state
    is carried across the boundary. *)
Lemma holdChannel_app (step : Z) (a b : list A) :
  forall s : state A,
    holdChannel step s (a ++ b) =
    (fst (holdChannel step s a) ++ fst (holdChannel step (snd (holdChannel step s a)) b),
     snd (holdChannel step (snd (holdChannel step s a)) b)).
Proof.
  induction a as [|x a IH]; intros s.
  - cbn [app holdChannel fst snd].
    destruct (holdChannel step s b); reflexivity.
  - rewrite <- app_comm_cons, !holdChannel_cons. cbv zeta. cbn [fst snd].
    rewrite IH. reflexivity.
Qed.

Lemma process_concat (step : Z) (blocks : list (list A)) :
  forall s : state A,
    concat (fst (process step s blocks)) = fst (holdChannel step s (concat blocks)) /\
    snd (process step s blocks) = snd (holdChannel step s (concat blocks)) /\
    map length (fst (process step s blocks)) = map length blocks.
Proof.
  induction blocks as [|b blocks IH]; intros s; [repeat split|].
  cbn [process concat]. rewrite holdChannel_app. cbn [fst snd].
  assert (Hlen : forall (l : list A) s0, length (fst (holdChannel step s0 l)) = length l).
  { induction l as [|x l IHl]; intros s0; [reflexivity|].
    rewrite holdChannel_cons. cbv zeta. cbn [fst length]. rewrite IHl. reflexivity. }
  pose proof (Hlen b s) as Hb.
  destruct (holdChannel step s b) as [o1 s1]. cbn [fst snd] in *.
  destruct (IH s1) as (H1 & H2 & H3).
  destruct (process step s1 blocks) as [outs s2]. cbn [fst snd concat map] in *.
  rewrite H1, H2, H3, Hb. repeat split.
Qed.

(** Sample [k] of the output of one buffer: the held value while the hold
    in progress lasts, then the input sample at the start of the block of
    [step] samples that [k] falls in. *)
Lemma holdChannel_lookup (step : Z) :
  (0 < step)%Z ->
  forall (inp : list A) (s : state A) (k : nat),
    (0 <= counter s)%Z -> (k < length inp)%nat ->
    fst (holdChannel step s inp) !! k =
    if (Z.of_nat k <? counter s)%Z then Some (lastValue s)
    else inp !! Z.to_nat (counter s + step * ((Z.of_nat k - counter s) / step)).
Proof.
  intros Hs. induction inp as [|x inp IH]; intros s k Hc Hk; [cbn in Hk; lia|].
  rewrite holdChannel_cons. cbv zeta. cbn [fst]. cbn [length] in Hk.
  destruct k as [|k].
  - change ((?y :: _) !! 0%nat) with (Some y).
    destruct (counter s =? 0)%Z eqn:E.
    + apply Z.eqb_eq in E. rewrite E. cbn [lastValue].
      change (Z.of_nat 0 <? 0)%Z with false. cbv iota.
      replace (Z.to_nat (0 + step * ((Z.of_nat 0 - 0) / step))) with 0%nat; [reflexivity|].
      change (Z.of_nat 0 - 0)%Z with 0%Z. rewrite Z.div_0_l by lia. lia.
    + apply Z.eqb_neq in E. destruct (Z.of_nat 0 <? counter s)%Z eqn:E2; [reflexivity|].
      apply Z.ltb_ge in E2. change (Z.of_nat 0) with 0%Z in E2. lia.
  - match goal with |- (_ :: ?l) !! S k = ?r => change (l !! k = r) end.
    destruct (counter s =? 0)%Z eqn:E.
    + apply Z.eqb_eq in E. rewrite E.
      rewrite IH by (cbn [counter]; lia). cbn [counter lastValue].
      destruct (Z.of_nat (S k) <? 0)%Z eqn:E0; [apply Z.ltb_lt in E0; lia|].
      destruct (Z.of_nat k <? step - 1)%Z eqn:E1.
      * apply Z.ltb_lt in E1.
        replace (Z.to_nat (0 + step * ((Z.of_nat (S k) - 0) / step))) with 0%nat; [reflexivity|].
        rewrite Z.sub_0_r, Z.div_small by lia. lia.
      * apply Z.ltb_ge in E1.
        assert (Hq : (0 <= (Z.of_nat k - (step - 1)) / step)%Z) by (apply Z.div_pos; lia).
        assert (Hd : ((Z.of_nat (S k) - 0) / step = (Z.of_nat k - (step - 1)) / step + 1)%Z).
        { replace (Z.of_nat (S k) - 0)%Z with ((Z.of_nat k - (step - 1)) + 1 * step)%Z by lia.
          apply Z.div_add. lia. }
        rewrite Hd.
        replace (Z.to_nat (0 + step * ((Z.of_nat k - (step - 1)) / step + 1)))
          with (S (Z.to_nat (step - 1 + step * ((Z.of_nat k - (step - 1)) / step)))) by nia.
        reflexivity.
    + apply Z.eqb_neq in E.
      rewrite IH by (cbn [counter]; lia). cbn [counter lastValue].
      destruct (Z.of_nat k <? counter s - 1)%Z eqn:E1;
        destruct (Z.of_nat (S k) <? counter s)%Z eqn:E2;
        try (apply Z.ltb_lt in E1); try (apply Z.ltb_ge in E1);
        try (apply Z.ltb_lt in E2); try (apply Z.ltb_ge in E2); try lia; try reflexivity.
      replace (Z.of_nat k - (counter s - 1))%Z with (Z.of_nat (S k) - counter s)%Z by lia.
      assert (0 <= (Z.of_nat (S k) - counter s) / step)%Z by (apply Z.div_pos; lia).
      replace (Z.to_nat (counter s + step * ((Z.of_nat (S k) - counter s) / step)))
        with (S (Z.to_nat (counter s - 1 + step * ((Z.of_nat (S k) - counter s) / step))))
        by nia.
      reflexivity.
Qed.

(** X26: the crusher holds every [step]-th input sample for [step] output
    samples, and it does so across buffer boundaries: for a processor in
    its initial state fed the buffers [blocks] one after the other, output
    sample [k] of the whole stream is input sample [step * (k / step)] of
    the whole stream, and every output buffer has the length of its input
    buffer. *)
Theorem crusher_holds_across_buffers (step : Z) (zero : A) (blocks : list (list A)) :
  (1 <= step)%Z ->
  let outs := fst (process step (initial zero) blocks) in
  map length outs = map length blocks /\
  forall k : nat, (k < length (concat blocks))%nat ->
    concat outs !! k = concat blocks !! Z.to_nat (step * (Z.of_nat k / step)).
Proof.
  intros Hs outs. subst outs.
  destruct (process_concat step blocks (initial zero)) as (H1 & _ & H3).
  split; [exact H3|]. intros k Hk. rewrite H1.
  rewrite (holdChannel_lookup step ltac:(lia)) by (cbn [counter initial]; lia).
  cbn [counter initial]. destruct (Z.of_nat k <? 0)%Z eqn:E; [apply Z.ltb_lt in E; lia|].
  rewrite Z.sub_0_r. reflexivity.
Qed.

End CrushFacts.

Section CrushExamples.
Import JS Core Crush.

Lemma one_le_two : (1 <= 2)%Z.
Proof. lia. Defined.

(** The theorem for [step = 2] and the two buffers [1,2,3] and [4,5]: the
    outputs are [1,1,3] and [3,5]. *)
Lemma crusher_holds_across_buffers_witness :
  (1 <= 2)%Z /\
  fst (process 2 (initial 0%nat) [[1; 2; 3]; [4; 5]]%nat) = [[1; 1; 3]; [3; 5]]%nat /\
  forall k : nat, (k < 5)%nat ->
    concat (fst (process 2 (initial 0%nat) [[1; 2; 3]; [4; 5]]%nat)) !! k =
    [1; 2; 3; 4; 5]%nat !! Z.to_nat (2 * (Z.of_nat k / 2)).
Proof.
  split; [exact one_le_two|]. split; [reflexivity|].
  exact (proj2 (crusher_holds_across_buffers 2 0%nat [[1; 2; 3]; [4; 5]]%nat one_le_two)).
Defined.

End CrushExamples.

(** ** The two crusher back ends *)
Section CrushNodeFacts.
Import JS Core.
Local Open Scope Q_scope.

Lemma orNumber_zero (x y : Q) : x == 0 -> orNumber x y = y.
Proof.
  intros H. unfold orNumber. apply Qeq_bool_iff in H. rewrite H. reflexivity.
Qed.

Lemma orNumber_nonzero (x y : Q) : ~ x == 0 -> orNumber x y = x.
Proof.
  intros H. unfold orNumber. destruct (Qeq_bool x 0) eqn:E; [|reflexivity].
  apply Qeq_bool_iff in E. contradiction.
Qed.

(** X27: [_createSRCrushNode] at a positive sample rate [sr].  A rate of 0
    counts as the sample rate ([srCrushHz || sampleRate]), and no node is
    built for it, nor for a rate within 1 Hz of the sample rate or above
    it, nor when neither back end is there.  For any other rate the
    worklet holds [max(1, floor(sr / max(1, hz)))] samples and the
    ScriptProcessor fallback [max(1, floor(sr / max(20, min(sr, hz))))]:
    both hold at least one sample, they agree whenever the rate is at
    least 20 Hz, and below 20 Hz the fallback holds [floor(sr / 20)]
    samples whatever the rate. *)
Theorem crush_back_ends_agree_from_20_hz (st : core) (hz : Q) :
  (0 < sampleRate st)%Z ->
  let sr := inject_Z (sampleRate st) in
  let workletStep := Z.max 1 (Qfloor (sr / Qmax 1 hz)) in
  let fallbackStep := Z.max 1 (Qfloor (sr / Qmax 20 (Qmin sr hz))) in
  (hz == 0 -> _createSRCrushNode st hz = None) /\
  (sr - 1 <= hz -> _createSRCrushNode st hz = None) /\
  (~ hz == 0 -> hz < sr - 1 -> workletLoaded st = true ->
     _createSRCrushNode st hz = Some (WorkletNode workletStep)) /\
  (~ hz == 0 -> hz < sr - 1 -> workletLoaded st = false -> hasScriptProcessor st = true ->
     _createSRCrushNode st hz = Some (ScriptProcessorNode fallbackStep)) /\
  (workletLoaded st = false -> hasScriptProcessor st = false ->
     _createSRCrushNode st hz = None) /\
  (1 <= workletStep)%Z /\ (1 <= fallbackStep)%Z /\
  (20 <= hz -> hz < sr - 1 -> workletStep = fallbackStep) /\
  (hz < 20 -> fallbackStep = Z.max 1 (Qfloor (sr / 20))).
Proof.
  intros Hsr sr workletStep fallbackStep.
  assert (Hsr0 : 0 < sr).
  { unfold sr. change 0 with (inject_Z 0). rewrite <- Zlt_Qlt. exact Hsr. }
  assert (Hle : forall a b, a <= b -> Qle_bool a b = true) by (intros; apply Qle_bool_iff; assumption).
  assert (Hgt : forall a b, b < a -> Qle_bool a b = false).
  { intros a b H. destruct (Qle_bool a b) eqn:E; [|reflexivity].
    apply Qle_bool_iff in E. lra. }
  assert (Hproc : ~ hz == 0 -> processorStep sr hz = workletStep).
  { intros Hnz. unfold processorStep. cbv zeta.
    rewrite (orNumber_nonzero sr) by lra. rewrite (orNumber_nonzero hz) by exact Hnz.
    reflexivity. }
  split; [|split; [|split; [|split; [|split; [|split; [|split; [|split]]]]]]].
  - intros H. unfold _createSRCrushNode. cbv zeta. fold sr.
    rewrite (orNumber_zero hz sr H), (Hle (sr - 1) sr) by lra. reflexivity.
  - intros H. unfold _createSRCrushNode. cbv zeta. fold sr.
    destruct (Qeq_dec hz 0) as [Hz|Hnz].
    + rewrite (orNumber_zero hz sr Hz), (Hle (sr - 1) sr) by lra. reflexivity.
    + rewrite (orNumber_nonzero hz sr Hnz), (Hle _ _ H). reflexivity.
  - intros Hnz H Hw. unfold _createSRCrushNode. cbv zeta. fold sr.
    rewrite (orNumber_nonzero hz sr Hnz), (Hgt _ _ H), Hw, (Hproc Hnz). reflexivity.
  - intros Hnz H Hw Hsp. unfold _createSRCrushNode. cbv zeta. fold sr.
    rewrite (orNumber_nonzero hz sr Hnz), (Hgt _ _ H), Hw, Hsp. reflexivity.
  - intros Hw Hsp. unfold _createSRCrushNode. cbv zeta. fold sr.
    rewrite Hw, Hsp. destruct (Qle_bool (sr - 1) (orNumber hz sr)); reflexivity.
  - unfold workletStep. lia.
  - unfold fallbackStep. lia.
  - intros H20 H. unfold workletStep, fallbackStep. f_equal. apply Qfloor_comp.
    assert (E1 : Qmax 1 hz == hz) by (apply Q.max_r; lra).
    assert (E2 : Qmin sr hz == hz) by (apply Q.min_r; lra).
    assert (E3 : Qmax 20 (Qmin sr hz) == hz) by (rewrite E2; apply Q.max_r; lra).
    rewrite E1, E3. reflexivity.
  - intros H20. unfold fallbackStep. f_equal. apply Qfloor_comp.
    assert (E : Qmax 20 (Qmin sr hz) == 20).
    { apply Q.max_l. destruct (Q.min_spec sr hz) as [[L E]|[L E]]; rewrite E; lra. }
    rewrite E. reflexivity.
Qed.

Lemma freshCore_rate : (0 < sampleRate freshCore)%Z.
Proof. reflexivity. Defined.

(** The theorem on a fresh core at 44100 Hz, which has the fallback only:
    a rate of 8000 Hz holds 5 samples, 10 Hz holds 2205, and a rate of 0
    builds no node. *)
Lemma crush_back_ends_agree_from_20_hz_witness :
  (0 < sampleRate freshCore)%Z /\
  _createSRCrushNode freshCore 8000 = Some (ScriptProcessorNode 5) /\
  _createSRCrushNode freshCore 10 = Some (ScriptProcessorNode 2205) /\
  _createSRCrushNode freshCore 0 = None.
Proof.
  split; [exact freshCore_rate|].
  destruct (crush_back_ends_agree_from_20_hz freshCore 8000 freshCore_rate)
    as (_ & _ & _ & H8000 & _).
  destruct (crush_back_ends_agree_from_20_hz freshCore 10 freshCore_rate)
    as (_ & _ & _ & H10 & _).
  destruct (crush_back_ends_agree_from_20_hz freshCore 0 freshCore_rate) as (H0 & _).
  split; [|split].
  - rewrite H8000 by (reflexivity || discriminate). reflexivity.
  - rewrite H10 by (reflexivity || discriminate). reflexivity.
  - apply H0. reflexivity.
Defined.

End CrushNodeFacts.

(** ** The registry over whole runs *)
Section RegistryFacts.
Import JS Core Registry.
Local Open Scope Q_scope.

Lemma registryOk_shrink (st st' : core) :
  registryOk st ->
  (forall k e, activeTracks st' !! k = Some e -> activeTracks st !! k = Some e) ->
  (forall id k, onended st' !! id = Some k -> onended st !! id = Some k) ->
  (nextId st <= nextId st')%nat ->
  registryOk st'.
Proof.
  intros ((Ha & Ho) & Hd & Hr) Hat Hon Hn. split; [split|split].
  - intros k e Hk. apply Hat, Ha in Hk. lia.
  - intros id k Hk. apply Hon, Ho in Hk. lia.
  - intros k1 k2 e1 e2 H1 H2. apply (Hd k1 k2 e1 e2); [apply Hat, H1|apply Hat, H2].
  - intros k e r Hk. apply (Hr k e r). apply Hat, Hk.
Qed.

Lemma registryOk_insert (st st' : core) (k : string) (e : Entry) :
  registryOk st ->
  activeTracks st' = <[ k := e ]> (activeTracks st) ->
  (nextId st <= entryId e < nextId st')%nat ->
  (onended st' = onended st \/ onended st' = <[ entryId e := k ]> (onended st)) ->
  (forall r, releaseSec e = Some r -> 0.01 <= r) ->
  registryOk st'.
Proof.
  intros ((Ha & Ho) & Hd & Hr) Hat Hid Hon Hrel. split; [split|split].
  - intros k' e' Hk. rewrite Hat in Hk. destruct (decide (k' = k)) as [->|Hne].
    + rewrite lookup_insert_eq in Hk. injection Hk as <-. lia.
    + rewrite lookup_insert_ne in Hk by congruence. apply Ha in Hk. lia.
  - intros id k' Hk. destruct Hon as [Hon|Hon]; rewrite Hon in Hk.
    + apply Ho in Hk. lia.
    + destruct (decide (id = entryId e)) as [->|Hne]; [lia|].
      rewrite lookup_insert_ne in Hk by congruence. apply Ho in Hk. lia.
  - intros k1 k2 e1 e2 H1 H2 He. rewrite Hat in H1, H2.
    destruct (decide (k1 = k)) as [->|N1], (decide (k2 = k)) as [->|N2]; [reflexivity| | |].
    + rewrite lookup_insert_eq in H1. injection H1 as <-.
      rewrite lookup_insert_ne in H2 by congruence. apply Ha in H2. lia.
    + rewrite lookup_insert_eq in H2. injection H2 as <-.
      rewrite lookup_insert_ne in H1 by congruence. apply Ha in H1. lia.
    + rewrite lookup_insert_ne in H1, H2 by congruence. apply (Hd k1 k2 e1 e2); assumption.
  - intros k' e' r Hk Hre. rewrite Hat in Hk. destruct (decide (k' = k)) as [->|Hne].
    + rewrite lookup_insert_eq in Hk. injection Hk as <-. apply Hrel. exact Hre.
    + rewrite lookup_insert_ne in Hk by congruence. apply (Hr k' e' r); assumption.
Qed.

(** The entry [playToneBus] registers: a fresh id, a release time of at
    least 10 ms, no handler. *)
Lemma playToneBus_entry st tone whenSec busKey k monoCutMs :
  let st' := snd (playToneBus st tone whenSec busKey (Some k) monoCutMs) in
  exists entry r,
    activeTracks st' = <[ k := entry ]> (activeTracks st) /\
    (nextId st <= entryId entry < nextId st')%nat /\
    onended st' = onended st /\
    releaseSec entry = Some r /\ 0.01 <= r.
Proof.
  unfold playToneBus. cbv zeta.
  pose proof (getOrCreateBus_registry (stealToneBus (Some k) monoCutMs st)
                (Some (default "bgm"%string busKey))
                (default emptyFilter (tone_filter tone)) (Some 1)) as Hb.
  destruct (_getOrCreateBus _ _ _ _) as [bus st1]. cbn [snd] in Hb.
  destruct Hb as (Ha & Ho & Hn).
  destruct (stealToneBus_ids (Some k) monoCutMs st) as [Hn0 Ho0].
  rewrite stealToneBus_activeTracks in Ha. rewrite Hn0 in Hn. rewrite Ho0 in Ho.
  eexists _, _. cbn [snd activeTracks onended nextId set_activeTracks set_nextId].
  rewrite Ha, insert_delete_eq. split; [reflexivity|]. cbn [entryId releaseSec].
  split; [lia|]. split; [exact Ho|]. split; [reflexivity|]. apply Q.le_max_l.
Qed.

Lemma fireEnded_shrinks id st :
  (forall k e, activeTracks (fireEnded id st) !! k = Some e -> activeTracks st !! k = Some e) /\
  (forall i k, onended (fireEnded id st) !! i = Some k -> onended st !! i = Some k) /\
  nextId (fireEnded id st) = nextId st /\
  backend (fireEnded id st) = backend st.
Proof.
  unfold fireEnded. destruct (onended st !! id) as [tid|]; [|repeat split; auto].
  unfold onendedHandler. cbn [activeTracks set_onended].
  destruct (activeTracks st !! tid) as [cur|].
  - destruct (decide (entryId cur = id)) as [Heq|Hne].
    + cbn [activeTracks onended nextId backend set_activeTracks set_onended].
      repeat split.
      * intros k e Hk. apply lookup_delete_Some in Hk. apply Hk.
      * intros i k Hk. apply lookup_delete_Some in Hk. apply Hk.
    + cbn [activeTracks onended nextId backend set_onended]. repeat split; auto.
      intros i k Hk. apply lookup_delete_Some in Hk. apply Hk.
  - cbn [activeTracks onended nextId backend set_onended]. repeat split; auto.
    intros i k Hk. apply lookup_delete_Some in Hk. apply Hk.
Qed.

Lemma step_registryOk st o : registryOk st -> registryOk (step st o).
Proof.
  intros Hok. destruct o as [bk f g|tone w bk [k|] m|tone w [k|]|id|t]; cbn [step].
  - destruct (getOrCreateBus_registry st bk f g) as (Ha & Ho & Hn).
    apply (registryOk_shrink st); [exact Hok| | |exact Hn].
    + intros k e. rewrite Ha. auto.
    + intros i k. rewrite Ho. auto.
  - destruct (playToneBus_entry st tone w bk k m) as (entry & r & Ha & Hid & Ho & Hr & Hr1).
    apply (registryOk_insert st _ k entry Hok Ha Hid); [left; exact Ho|].
    intros r' Hr'. rewrite Hr in Hr'. injection Hr' as <-. exact Hr1.
  - destruct (playToneBus_untracked st tone w bk m) as (Ha & Ho & Hn).
    apply (registryOk_shrink st); [exact Hok| | |exact Hn].
    + intros k e. rewrite Ha. auto.
    + intros i k. rewrite Ho. auto.
  - destruct (playTone_registers st tone w k) as (Ha & Ho & Hn).
    apply (registryOk_insert st _ k _ Hok Ha); cbn [entryId releaseSec].
    + rewrite Hn. lia.
    + right. exact Ho.
    + intros r Hr. discriminate.
  - destruct (playTone_untracked st tone w) as (Ha & Ho & Hn).
    apply (registryOk_shrink st); [exact Hok| | |lia].
    + intros k e. rewrite Ha. auto.
    + intros i k. rewrite Ho. auto.
  - destruct (fireEnded_shrinks id st) as (Ha & Ho & Hn & _).
    apply (registryOk_shrink st); [exact Hok|exact Ha|exact Ho|lia].
  - exact Hok.
Qed.

Lemma run_registryOk ops : forall st, registryOk st -> registryOk (run ops st).
Proof.
  induction ops as [|o ops IH]; intros st Hok; [exact Hok|].
  unfold run. cbn [foldl]. apply IH. apply step_registryOk. exact Hok.
Qed.

Lemma freshCore_registryOk : registryOk freshCore.
Proof.
  split; [split|split].
  - intros k e Hk. cbn in Hk. rewrite lookup_empty in Hk. discriminate.
  - intros id k Hk. cbn in Hk. rewrite lookup_empty in Hk. discriminate.
  - intros k1 k2 e1 e2 H1. cbn in H1. rewrite lookup_empty in H1. discriminate.
  - intros k e r Hk. cbn in Hk. rewrite lookup_empty in Hk. discriminate.
Defined.

(** X28: through any run of core operations (bus requests, [playToneBus],
    [playTone], [ended] events, clock ticks) the registry stays sound: no
    voice is registered under two tracks, every registered voice and every
    pending [onended] handler belongs to an id allocated earlier, and every
    recorded release time is at least 10 ms. *)
Theorem registry_stays_sound (ops : list op) (st : core) :
  registryOk st ->
  let st' := run ops st in
  voicesDistinct st' /\
  (forall k e, activeTracks st' !! k = Some e -> (entryId e < nextId st')%nat) /\
  (forall id k, onended st' !! id = Some k -> (id < nextId st')%nat) /\
  releasesOk st'.
Proof.
  intros Hok st'. destruct (run_registryOk ops st Hok) as ((Ha & Ho) & Hd & Hr).
  split; [exact Hd|]. split; [exact Ha|]. split; [exact Ho|exact Hr].
Qed.

(** The theorem for two triggers on two tracks of a fresh core. *)
Lemma registry_stays_sound_witness :
  let st' := run [OpPlayTone beepTone 0 (Some "a"%string);
                  OpPlayToneBus dullTone 0 None (Some "b"%string) None] freshCore in
  registryOk freshCore /\
  voicesDistinct st' /\
  (forall k e, activeTracks st' !! k = Some e -> (entryId e < nextId st')%nat) /\
  (forall id k, onended st' !! id = Some k -> (id < nextId st')%nat) /\
  releasesOk st'.
Proof.
  intros st'. split; [exact freshCore_registryOk|].
  exact (registry_stays_sound _ freshCore freshCore_registryOk).
Defined.

End RegistryFacts.

(** ** Stealing and completion in [playToneBus] *)
Section BusVoiceFacts.
Import JS Core Registry.
Local Open Scope Q_scope.

Lemma getOrCreateBus_backend st busKey f g :
  backend (snd (_getOrCreateBus st busKey f g)) = backend st /\
  currentTime (snd (_getOrCreateBus st busKey f g)) = currentTime st.
Proof.
  unfold _getOrCreateBus. cbv zeta.
  destruct (busCache st !! busKeyOf busKey); [split; reflexivity|].
  destruct (_getBitDepthCurve _ _) as [c cache]. split; reflexivity.
Qed.

Lemma playToneBus_backend st tone whenSec busKey trackId monoCutMs :
  backend (snd (playToneBus st tone whenSec busKey trackId monoCutMs)) =
  backend (stealToneBus trackId monoCutMs st).
Proof.
  unfold playToneBus. cbv zeta.
  pose proof (getOrCreateBus_backend (stealToneBus trackId monoCutMs st)
                (Some (default "bgm"%string busKey))
                (default emptyFilter (tone_filter tone)) (Some 1)) as [Hb _].
  destruct (_getOrCreateBus _ _ _ _) as [bus st1]. cbn [snd] in Hb.
  destruct trackId; cbn [snd backend set_activeTracks set_nextId]; exact Hb.
Qed.

Lemma playTone_backend st tone whenSec trackId :
  backend (snd (playTone st tone whenSec trackId)) = backend (stealTone trackId st).
Proof.
  unfold playTone. cbv zeta. destruct (_getBitDepthCurve _ _) as [c cache].
  destruct trackId; reflexivity.
Qed.

(** X29: when [playToneBus] takes a track over from a sounding voice it fades
    that voice's gain to zero, over [max(5 ms, monoCutMs)] when a cut time
    is given and otherwise over the voice's recorded release time, so the
    fade ends at least 5 ms after now; it never calls [stop] on the old
    source.  [playTone] in the same situation fades over 10 ms and stops
    the old source 20 ms from now. *)
Theorem playToneBus_fades_but_never_stops (st : core) (tone : ToneJson) (whenSec : Q)
    (busKey trackId : option string) (monoCutMs : option Q) :
  releasesOk st ->
  let st' := snd (playToneBus st tone whenSec busKey trackId monoCutMs) in
  stopCalls st' = stopCalls st /\
  match trackId ≫= (fun k => activeTracks st !! k) with
  | Some old =>
      exists tEnd,
        backend st' = FadeToZero (entryId old) tEnd :: backend st /\
        currentTime st + 0.005 <= tEnd
  | None => backend st' = backend st
  end /\
  (forall k old, activeTracks st !! k = Some old ->
     backend (snd (playTone st tone whenSec (Some k))) =
     StopSource (entryId old) (currentTime st + 0.02) ::
     FadeToZero (entryId old) (currentTime st + 0.01) :: backend st).
Proof.
  intros Hrel st'. subst st'. unfold stopCalls. rewrite playToneBus_backend.
  split; [|split].
  - unfold stealToneBus. destruct trackId as [k|]; [|reflexivity].
    destruct (activeTracks st !! k); reflexivity.
  - unfold stealToneBus. destruct trackId as [k|]; cbn [mbind option_bind]; [|reflexivity].
    destruct (activeTracks st !! k) as [old|] eqn:Hk; [|reflexivity].
    cbv zeta. cbn [backend set_activeTracks call]. eexists. split; [reflexivity|].
    assert (Hdef : 0.005 <= default 0.02 (releaseSec old)).
    { destruct (releaseSec old) as [r|] eqn:Hr; simpl; [|lra].
      pose proof (Hrel k old r Hk Hr). lra. }
    destruct monoCutMs as [ms|]; [destruct (Qle_bool 0 ms)|].
    + pose proof (Q.le_max_l 0.005 (ms / 1000)). lra.
    + lra.
    + lra.
  - intros k old Hk. rewrite playTone_backend. unfold stealTone. rewrite Hk. reflexivity.
Qed.

(** The theorem for a second [playToneBus] on the track of a first one. *)
Lemma playToneBus_fades_but_never_stops_witness :
  let st1 := snd (playToneBus freshCore beepTone 0 None (Some "a"%string) None) in
  let st2 := snd (playToneBus st1 beepTone 0 None (Some "a"%string) None) in
  releasesOk st1 /\
  stopCalls st2 = stopCalls st1 /\
  exists tEnd, backend st2 = FadeToZero 1%nat tEnd :: backend st1 /\ 0 + 0.005 <= tEnd.
Proof.
  intros st1 st2.
  assert (Hok : releasesOk st1).
  { apply (step_registryOk freshCore (OpPlayToneBus beepTone 0 None (Some "a"%string) None)).
    exact freshCore_registryOk. }
  split; [exact Hok|].
  destruct (playToneBus_fades_but_never_stops st1 beepTone 0 None (Some "a"%string) None Hok)
    as (H1 & H2 & _).
  split; [exact H1|]. exact H2.
Defined.

Lemma step_keeps_silent_entry st o k e :
  registryOk st ->
  activeTracks st !! k = Some e -> onended st !! entryId e = None ->
  ~ retriggers k o ->
  activeTracks (step st o) !! k = Some e /\ onended (step st o) !! entryId e = None.
Proof.
  intros Hok Ha Hno Hr.
  assert (Hlt : (entryId e < nextId st)%nat) by (apply (proj1 (proj1 Hok) k e Ha)).
  split.
  - assert (Hcases : o = OpEnded (entryId e) \/ o <> OpEnded (entryId e)).
    { destruct o as [| | |id|]; try (right; discriminate).
      destruct (decide (id = entryId e)) as [->|Hne]; [left; reflexivity|right; congruence]. }
    destruct Hcases as [->|Hne].
    + cbn [step]. unfold fireEnded. rewrite Hno. exact Ha.
    + apply step_keeps_entry; assumption.
  - destruct o as [bk f g|tone w bk [k'|] cut|tone w [k'|]|id|t]; cbn [step].
    + destruct (getOrCreateBus_registry st bk f g) as (_ & H & _). rewrite H. exact Hno.
    + destruct (playToneBus_registers st tone w bk k' cut) as (entry & _ & _ & H).
      rewrite H. exact Hno.
    + destruct (playToneBus_untracked st tone w bk cut) as (_ & H & _). rewrite H. exact Hno.
    + destruct (playTone_registers st tone w k') as (_ & H & _).
      rewrite H. rewrite lookup_insert_ne by lia. exact Hno.
    + destruct (playTone_untracked st tone w) as (_ & H & _). rewrite H. exact Hno.
    + destruct (fireEnded_shrinks id st) as (_ & H & _).
      destruct (onended (fireEnded id st) !! entryId e) as [k'|] eqn:E; [|reflexivity].
      apply H in E. congruence.
    + exact Hno.
Qed.

Lemma run_keeps_silent_entry ops : forall st k e,
  registryOk st ->
  activeTracks st !! k = Some e -> onended st !! entryId e = None ->
  Forall (fun o => ~ retriggers k o) ops ->
  activeTracks (run ops st) !! k = Some e.
Proof.
  unfold run. induction ops as [|o ops IH]; intros st k e Hok Ha Hno Hall; [exact Ha|].
  apply Forall_cons in Hall as [Hr Hall]. cbn [foldl].
  destruct (step_keeps_silent_entry st o k e Hok Ha Hno Hr) as [Ha' Hno'].
  apply IH; [apply step_registryOk; exact Hok|exact Ha'|exact Hno'|exact Hall].
Qed.

(** X30: a voice registered by [playToneBus] is not deregistered when it
    ends.  [playToneBus] installs no [onended] handler, so the entry it
    puts on a track stays there through every later operation - [ended]
    events of any voice included - until the next trigger on that
    track. *)
Theorem playToneBus_entry_outlives_its_voice (st : core) (tone : ToneJson) (whenSec : Q)
    (busKey : option string) (k : string) (monoCutMs : option Q) (ops : list op) :
  registryOk st ->
  Forall (fun o => ~ retriggers k o) ops ->
  let st' := snd (playToneBus st tone whenSec busKey (Some k) monoCutMs) in
  exists e,
    activeTracks st' !! k = Some e /\
    onended st' !! entryId e = None /\
    activeTracks (run (OpEnded (entryId e) :: ops) st') !! k = Some e.
Proof.
  intros Hok Hall st'.
  destruct (playToneBus_entry st tone whenSec busKey k monoCutMs)
    as (entry & r & Ha & Hid & Ho & _).
  fold st' in Ha, Hid, Ho.
  assert (Hin : activeTracks st' !! k = Some entry) by (rewrite Ha; apply lookup_insert_eq).
  assert (Hno : onended st' !! entryId entry = None).
  { rewrite Ho. destruct (onended st !! entryId entry) as [k'|] eqn:E; [|reflexivity].
    apply (proj2 (proj1 Hok)) in E. lia. }
  exists entry. split; [exact Hin|]. split; [exact Hno|].
  apply run_keeps_silent_entry; [|exact Hin|exact Hno|].
  - apply (step_registryOk st (OpPlayToneBus tone whenSec busKey (Some k) monoCutMs)). exact Hok.
  - constructor; [|exact Hall]. intros H. exact H.
Qed.

Lemma no_retrigger_of_a :
  Forall (fun o => ~ retriggers "a"%string o)
         [OpClock 1; OpPlayTone beepTone 0 (Some "b"%string)].
Proof.
  constructor; [intros H; exact H|].
  constructor; [|constructor]. cbn [retriggers]. discriminate.
Defined.

(** The theorem for a voice on track ["a"] of a fresh core, followed by its
    [ended] event, a clock tick and a trigger on another track. *)
Lemma playToneBus_entry_outlives_its_voice_witness :
  let st' := snd (playToneBus freshCore beepTone 0 None (Some "a"%string) None) in
  registryOk freshCore /\
  Forall (fun o => ~ retriggers "a"%string o)
         [OpClock 1; OpPlayTone beepTone 0 (Some "b"%string)] /\
  exists e,
    activeTracks st' !! "a"%string = Some e /\
    onended st' !! entryId e = None /\
    activeTracks (run (OpEnded (entryId e) ::
                       [OpClock 1; OpPlayTone beepTone 0 (Some "b"%string)]) st')
      !! "a"%string = Some e.
Proof.
  intros st'. split; [exact freshCore_registryOk|]. split; [exact no_retrigger_of_a|].
  exact (playToneBus_entry_outlives_its_voice freshCore beepTone 0 None "a"%string None
           _ freshCore_registryOk no_retrigger_of_a).
Defined.

End BusVoiceFacts.
